(** * The dataset viewer (assets/app.js), flat-strip and paged variants

    A shallow embedding of the viewer controller: descriptor
    normalisation and caching, the pager index with its clamp/wrap rule,
    the event handlers, manifest loading and the renderer.

    Conventions of the embedding.
    - JavaScript strings are held as Rocq strings, i.e. as the UTF-8
      bytes of their text (lone surrogates are not represented).
    - Integers the code computes with (indices, counts, HTTP statuses)
      are in Z: they are bounded by the length of an array, far below
      2^53, up to where doubles hold every whole number. [toColLabel] is
      a function of any whole number and computes with [Double], the
      arithmetic of doubles on whole numbers.
    - The manifests are typed by their documented schema: an image entry
      has optional string fields [image_path], [species], [class_name];
      the class map sends class identifiers to arrays of species
      identifiers. Descriptor files are arbitrary JSON values, since the
      code sniffs their shape.
    - The mutable [state] object, the DOM nodes the code writes, the
      console and the list of requests issued form one [World], threaded
      through a state-and-exception monad. Every handler runs together
      with the asynchronous continuation it starts before the next event
      is taken; [Promise.all] starts all its calls before finishing any.
      Calls of the descriptor loader that overlap, because a response
      arrives after a later event, are the subject of [flight_step].
    - The two variants share one [World]; [btnPage] and [classList]
      belong to the paged variant, [bigTitle] to the flat one. *)

From Stdlib Require Import ZArith List String Ascii Lia Bool.
From stdpp Require Import gmap strings list fin_maps pretty.

Local Open Scope Z_scope.

(** ** Strings *)

Module Str.

(** UTF-8 bytes of a code point of the Basic Multilingual Plane. *)
Definition byte (n : N) : ascii := ascii_of_N n.

Definition utf8 (cp : N) : string :=
  if (cp <? 128)%N then String (byte cp) EmptyString
  else if (cp <? 2048)%N then
    String (byte (192 + cp / 64)) (String (byte (128 + cp mod 64)) EmptyString)
  else
    String (byte (224 + cp / 4096))
      (String (byte (128 + (cp / 64) mod 64))
         (String (byte (128 + cp mod 64)) EmptyString)).

(** ECMAScript WhiteSpace and LineTerminator code points, the characters
    [String.prototype.trim] strips. *)
Definition white_space_code_points : list N :=
  [9; 10; 11; 12; 13; 32; 160; 5760;
   8192; 8193; 8194; 8195; 8196; 8197; 8198; 8199; 8200; 8201; 8202;
   8232; 8233; 8239; 8287; 12288; 65279]%N.

Definition white_space : list string := map utf8 white_space_code_points.

(** [strip_prefix p s] is [Some r] when [s = p ++ r]. *)
Fixpoint strip_prefix (p s : string) : option string :=
  match p, s with
  | EmptyString, _ => Some s
  | String a p', String b s' =>
      if Ascii.eqb a b then strip_prefix p' s' else None
  | String _ _, EmptyString => None
  end.

(** The string after one leading character drawn from [cs], if any. *)
Fixpoint strip_one (cs : list string) (s : string) : option string :=
  match cs with
  | [] => None
  | c :: cs' =>
      match strip_prefix c s with
      | Some r => Some r
      | None => strip_one cs' s
      end
  end.

Fixpoint strip_leading (fuel : nat) (cs : list string) (s : string) : string :=
  match fuel with
  | O => s
  | S fuel' =>
      match strip_one cs s with
      | Some r => strip_leading fuel' cs r
      | None => s
      end
  end.

Definition trimStart (s : string) : string :=
  strip_leading (String.length s) white_space s.

Definition trimEnd (s : string) : string :=
  String.rev
    (strip_leading (String.length s) (map String.rev white_space) (String.rev s)).

(** [s.trim()] *)
Definition trim (s : string) : string := trimEnd (trimStart s).

(** [s.replaceAll(a, b)] for one-character [a]. *)
Fixpoint replaceAll (a : ascii) (b : string) (s : string) : string :=
  match s with
  | EmptyString => EmptyString
  | String c s' =>
      if Ascii.eqb c a then b +:+ replaceAll a b s'
      else String c (replaceAll a b s')
  end.

(** [arr.join(sep)] *)
Fixpoint join (sep : string) (l : list string) : string :=
  match l with
  | [] => EmptyString
  | [x] => x
  | x :: rest => x +:+ sep +:+ join sep rest
  end.

(** Truthiness of a string: [Boolean(s)]. *)
Definition truthy (s : string) : bool :=
  match s with EmptyString => false | String _ _ => true end.

(** [String.fromCharCode(n)] for [n] below 128. *)
Definition fromCharCode (n : Z) : string :=
  String (ascii_of_N (Z.to_N n)) EmptyString.

End Str.

(** ** JSON values *)

(** JSON numbers are doubles; the code only ever prints them, so the
    number type is kept abstract together with [Number::toString]. *)
Class JsNumber (number : Type) := Number_toString : number -> string.

(** A parsed JSON value. [JObj] lists the own properties, under pairwise
    distinct keys, in the order [Object.values] enumerates them. *)
#[warnings="-register-all"]
Inductive json (number : Type) : Type :=
| JNull
| JBool (b : bool)
| JNum (n : number)
| JStr (s : string)
| JArr (elts : list (json number))
| JObj (props : list (string * json number)).

Arguments JNull {number}.
Arguments JBool {number} b.
Arguments JNum {number} n.
Arguments JStr {number} s.
Arguments JArr {number} elts.
Arguments JObj {number} props.

Section Descriptors.
Context {number : Type} `{JsNumber number}.

(** [String(v)]: arrays print as their elements joined by commas, with
    [null] elements printed empty; objects print as [[object Object]]. *)
Fixpoint ToString (v : json number) : string :=
  match v with
  | JNull => "null"
  | JBool b => if b then "true" else "false"
  | JNum n => Number_toString n
  | JStr s => s
  | JArr elts =>
      Str.join ","
        (map (fun e => match e with JNull => "" | _ => ToString e end) elts)
  | JObj _ => "[object Object]"
  end.

(** [typeof v === "string"] *)
Definition is_string (v : json number) : bool :=
  match v with JStr _ => true | _ => false end.

(** The strings among [vals]; all of them when every value is a string. *)
Fixpoint strings (vals : list (json number)) : list string :=
  match vals with
  | [] => []
  | JStr s :: rest => s :: strings rest
  | _ :: rest => strings rest
  end.

(** [obj?.[k]] for a key that no prototype defines: an own property of an
    object, otherwise undefined. *)
Fixpoint own_property (k : string) (props : list (string * json number))
  : option (json number) :=
  match props with
  | [] => None
  | (k', v) :: rest => if String.eqb k' k then Some v else own_property k rest
  end.

Definition get (obj : json number) (k : string) : option (json number) :=
  match obj with
  | JObj props => own_property k props
  | _ => None
  end.

Definition descriptor_keys : list string :=
  ["descriptors"; "attributes"; "captions"; "descriptor_list"].

(** The [for (const k of [...])] loop of [normalizeDescriptorList]: the
    array under the first key that holds one. *)
Fixpoint first_array (obj : json number) (keys : list string)
  : option (list (json number)) :=
  match keys with
  | [] => None
  | k :: rest =>
      match get obj k with
      | Some (JArr elts) => Some elts
      | _ => first_array obj rest
      end
  end.

Definition normalizeDescriptorList (obj : json number) : list string :=
  match obj with
  | JArr elts => map ToString elts
  | _ =>
      match first_array obj descriptor_keys with
      | Some elts => map ToString elts
      | None =>
          match obj with
          | JObj props =>
              let vals := map snd props in
              if forallb is_string vals then strings vals else []
          | _ => []
          end
      end
  end.

End Descriptors.

(** Integers as JSON numbers: they print in decimal. *)
#[export] Instance Z_JsNumber : JsNumber Z := fun z => pretty z.

(** [uniq(arr)], i.e. [Array.from(new Set(arr))]: a Set keeps its members
    in insertion order and ignores the insertion of a member it has. *)
Definition Set_add (s : list string) (x : string) : list string :=
  if bool_decide (x ∈ s) then s else s ++ [x].

Definition uniq (arr : list string) : list string :=
  fold_left Set_add arr [].

(** The expression bound to [out] in [loadDescriptorsForSpecies]:
    [uniq(data.map(s => String(s).trim()).filter(Boolean))] in the flat
    variant, with [s.trim()] for [String(s).trim()] in the paged one;
    [data] holds strings, on which the two agree. *)
Definition tidy (data : list string) : list string :=
  uniq (List.filter Str.truthy (map Str.trim data)).

(** ** Numbers

    A JavaScript number is an IEEE 754 double: a sign, a mantissa below
    2^53 and a binary exponent. The viewer computes with whole numbers
    only, so a number is modelled by the integer it holds. Addition,
    subtraction and division give the double nearest to the exact result,
    of two equally near the one with the even mantissa. No whole number the
    viewer computes leaves the range of the exponent. *)

Module Double.

(** The integer nearest to [a / b], for [b > 0]; of two equally near the
    even one. *)
Definition nearest_integer (a b : Z) : Z :=
  let q := a / b in
  match 2 * (a mod b) ?= b with
  | Lt => q
  | Gt => q + 1
  | Eq => if Z.even q then q else q + 1
  end.

(** [z * 2^e] when [e] is positive, [z] otherwise. *)
Definition scale (z e : Z) : Z := z * 2 ^ Z.max 0 e.

(** The integer part of the binary logarithm of [a / b], for [a, b > 0]. *)
Definition log2_quotient (a b : Z) : Z :=
  let k := Z.log2 a - Z.log2 b in
  if scale a (- k) <? scale b k then k - 1 else k.

(** The double nearest to [a / b], for [b > 0], as its signed mantissa
    [m] and exponent [e]: the double is [m * 2^e], and [m] is [a / b / 2^e]
    rounded, where [e] is such that [2^52 <= |a / b / 2^e| < 2^53]. *)
Definition nearest (a b : Z) : Z * Z :=
  if a =? 0 then (0, 0)
  else
    let e := log2_quotient (Z.abs a) b - 52 in
    (Z.sgn a * nearest_integer (scale (Z.abs a) (- e)) (scale b e), e).

(** [Math.floor(x)] of the double [x = m * 2^e]; [x] itself when it is a
    whole number. *)
Definition floor (x : Z * Z) : Z :=
  let (m, e) := x in if 0 <=? e then m * 2 ^ e else m / 2 ^ (- e).

(** [x + y] and [x - y] for whole [x] and [y]: the nearest double to a whole
    number is whole. *)
Definition add (x y : Z) : Z := floor (nearest (x + y) 1).
Definition sub (x y : Z) : Z := floor (nearest (x - y) 1).

(** [Math.floor(a / b)] for whole [a] and [b > 0]. *)
Definition floor_div (a b : Z) : Z := floor (nearest a b).

(** The whole numbers that are doubles. *)
Definition representable (z : Z) : Prop := floor (nearest z 1) = z.

End Double.

(** ** Column labels (flat variant) *)

(** The [while (n > 0)] loop of [toColLabel], with [s] the label built so
    far, run for at most [fuel] iterations. *)
Fixpoint toColLabel_loop (fuel : nat) (n : Z) (s : string) : string :=
  match fuel with
  | O => s
  | S fuel' =>
      if 0 <? n then
        let r := Z.rem (Double.sub n 1) 26 in
        toColLabel_loop fuel' (Double.floor_div (Double.sub n 1) 26)
          (Str.fromCharCode (65 + r) +:+ s)
      else s
  end.

(** [toColLabel(n0)]. An iteration leaves less than half of [n], so the loop
    has ended after one iteration for each binary digit of [n]. *)
Definition toColLabel (n0 : Z) : string :=
  let n := Double.add n0 1 in
  toColLabel_loop (S (Z.to_nat (Z.log2 n))) n "".

(** ** The world the viewer runs in *)

(** An entry of images_index.json; [None] is an absent field. *)
Record entry := {
  image_path : option string;
  species : option string;
  class_name : option string
}.

(** What the [onclick] closure of a numbered control does. *)
Inductive action :=
| JumpTo (i : Z)       (* [() => { state.idx = i; render(); }] *)
| AdvancePage.         (* the closure of the "0" control, paged variant *)

Record button := {
  btn_className : string;
  btn_textContent : string;
  btn_title : string;
  btn_onclick : action
}.

Record span := { span_className : string; span_textContent : string }.

(** A list item, by the way the code fills it. *)
Inductive li :=
| LiText (className textContent : string)
| LiSpans (className : string) (children : list span)
| LiHtml (innerHTML : string).

(** The DOM nodes the code writes to, by element id. *)
Record Dom := {
  bigTitle : string;
  meta : string;
  mainImg_src : string;
  numstrip : list button;
  speciesList : list li;
  classList : list li
}.

Record error := { err_name : string; message : string }.

Inductive log :=
| Warn (text : string) (e : error)     (* console.warn(text, e) *)
| ErrorLog (e : error).                (* console.error(e) *)

(** The [state] object. A species key is [None] for [undefined]. *)
Record State := {
  items : list entry;
  classToSpecies : gmap string (list string);
  idx : Z;
  btnPage : Z;
  cacheDescriptors : gmap (option string) (list string)
}.

Record World := {
  state : State;
  dom : Dom;
  console : list log;       (* oldest first *)
  requests : list string    (* paths fetched, oldest first *)
}.

Definition upd_state (f : State -> State) (w : World) : World :=
  {| state := f (state w); dom := dom w;
     console := console w; requests := requests w |}.

Definition upd_dom (f : Dom -> Dom) (w : World) : World :=
  {| state := state w; dom := f (dom w);
     console := console w; requests := requests w |}.

Definition set_items (v : list entry) (s : State) : State :=
  {| items := v; classToSpecies := classToSpecies s; idx := idx s;
     btnPage := btnPage s; cacheDescriptors := cacheDescriptors s |}.

Definition set_classToSpecies (v : gmap string (list string)) (s : State) : State :=
  {| items := items s; classToSpecies := v; idx := idx s;
     btnPage := btnPage s; cacheDescriptors := cacheDescriptors s |}.

Definition set_idx (v : Z) (s : State) : State :=
  {| items := items s; classToSpecies := classToSpecies s; idx := v;
     btnPage := btnPage s; cacheDescriptors := cacheDescriptors s |}.

Definition set_btnPage (v : Z) (s : State) : State :=
  {| items := items s; classToSpecies := classToSpecies s; idx := idx s;
     btnPage := v; cacheDescriptors := cacheDescriptors s |}.

Definition set_cacheDescriptors (v : gmap (option string) (list string))
    (s : State) : State :=
  {| items := items s; classToSpecies := classToSpecies s; idx := idx s;
     btnPage := btnPage s; cacheDescriptors := v |}.

Definition set_bigTitle (v : string) (d : Dom) : Dom :=
  {| bigTitle := v; meta := meta d; mainImg_src := mainImg_src d;
     numstrip := numstrip d; speciesList := speciesList d;
     classList := classList d |}.

Definition set_meta (v : string) (d : Dom) : Dom :=
  {| bigTitle := bigTitle d; meta := v; mainImg_src := mainImg_src d;
     numstrip := numstrip d; speciesList := speciesList d;
     classList := classList d |}.

Definition set_mainImg_src (v : string) (d : Dom) : Dom :=
  {| bigTitle := bigTitle d; meta := meta d; mainImg_src := v;
     numstrip := numstrip d; speciesList := speciesList d;
     classList := classList d |}.

Definition set_numstrip (v : list button) (d : Dom) : Dom :=
  {| bigTitle := bigTitle d; meta := meta d; mainImg_src := mainImg_src d;
     numstrip := v; speciesList := speciesList d; classList := classList d |}.

Definition set_speciesList (v : list li) (d : Dom) : Dom :=
  {| bigTitle := bigTitle d; meta := meta d; mainImg_src := mainImg_src d;
     numstrip := numstrip d; speciesList := v; classList := classList d |}.

Definition set_classList (v : list li) (d : Dom) : Dom :=
  {| bigTitle := bigTitle d; meta := meta d; mainImg_src := mainImg_src d;
     numstrip := numstrip d; speciesList := speciesList d; classList := v |}.

Definition console_log (l : log) (w : World) : World :=
  {| state := state w; dom := dom w;
     console := console w ++ [l]; requests := requests w |}.

Definition add_request (path : string) (w : World) : World :=
  {| state := state w; dom := dom w;
     console := console w; requests := requests w ++ [path] |}.

(** The page as loaded, before any script has run. *)
Definition initial_world : World :=
  {| state := {| items := []; classToSpecies := ∅; idx := 0; btnPage := 0;
                 cacheDescriptors := ∅ |};
     dom := {| bigTitle := ""; meta := ""; mainImg_src := ""; numstrip := [];
               speciesList := []; classList := [] |};
     console := [];
     requests := [] |}.

(** ** Computations: state and exceptions *)

(** A computation returns a value or throws, and leaves a world. *)
Definition M (A : Type) : Type := World -> (error + A) * World.

Definition ret {A} (a : A) : M A := fun w => (inr a, w).

Definition throw {A} (e : error) : M A := fun w => (inl e, w).

Definition bind {A B} (c : M A) (k : A -> M B) : M B :=
  fun w =>
    match c w with
    | (inr a, w') => k a w'
    | (inl e, w') => (inl e, w')
    end.

(** [try { c } catch (e) { handler }] *)
Definition try_catch {A} (c : M A) (handler : error -> M A) : M A :=
  fun w =>
    match c w with
    | (inr a, w') => (inr a, w')
    | (inl e, w') => handler e w'
    end.

Definition modify (f : World -> World) : M unit := fun w => (inr tt, f w).

Definition gets {A} (f : World -> A) : M A := fun w => (inr (f w), w).

Notation "x <- c ;; k" := (bind c (fun x => k))
  (at level 100, c at next level, right associativity).
Notation "c ;; k" := (bind c (fun _ => k))
  (at level 100, right associativity).

Fixpoint mapM {A B} (f : A -> M B) (l : list A) : M (list B) :=
  match l with
  | [] => ret []
  | a :: rest => b <- f a ;; bs <- mapM f rest ;; ret (b :: bs)
  end.

(** [if (b) c] *)
Definition when (b : bool) (c : M unit) : M unit := if b then c else ret tt.

(** [state.items.length] *)
Definition items_length (w : World) : Z := Z.of_nat (length (items (state w))).

(** [arr[i]] for an integer [i]; [None] is undefined. *)
Definition at_index {A} (arr : list A) (i : Z) : option A :=
  if i <? 0 then None else arr !! Z.to_nat i.

(** [`${v}`] for a string or undefined. *)
Definition show (v : option string) : string :=
  match v with Some s => s | None => "undefined" end.

Definition dquote : string := String (ascii_of_N 34) EmptyString.

(** *** The server *)

(** What a [fetch] of a path comes to. *)
Inductive response (A : Type) : Type :=
| Rejected (e : error)                       (* [fetch] rejects: no response *)
| Response (status : Z) (body : error + A).  (* [r.json()] throws, or parses *)

Arguments Rejected {A} e.
Arguments Response {A} status body.

(** [r.ok] *)
Definition ok (status : Z) : bool := (200 <=? status) && (status <=? 299).

(** Whether [fetchJson] throws on the response. *)
Definition failed {A} (r : response A) : bool :=
  match r with
  | Rejected _ => true
  | Response status (inl _) => true
  | Response status (inr _) => negb (ok status)
  end.

(** The static files, as served: the two manifests, and the answer to a
    fetch of any other path. *)
Record Server (number : Type) := {
  images_index : response (list entry);
  class_to_species : response (gmap string (list string));
  descriptor_file : string -> response (json number)
}.

Arguments images_index {number} s.
Arguments class_to_species {number} s.
Arguments descriptor_file {number} s path.

(** [fetchJson(path)], in two halves: the request goes out, and the
    response [r] served for it is examined. *)
Definition request (path : string) : M unit := modify (add_request path).

Definition respond {A} (path : string) (r : response A) : M A :=
  match r with
  | Rejected e => throw e
  | Response status body =>
      if negb (ok status) then
        throw {| err_name := "Error";
                 message := "Failed to fetch " +:+ path +:+ ": " +:+ pretty status |}
      else
        match body with
        | inl e => throw e
        | inr v => ret v
        end
  end.

Definition fetchJson {A} (path : string) (r : response A) : M A :=
  request path ;; respond path r.

(** [clampIdx()] *)
Definition clampIdx : M unit :=
  (n <- gets items_length ;;
   when (n =? 0) (modify (upd_state (set_idx 0)))) ;;
  (n <- gets items_length ;; i <- gets (fun w => idx (state w)) ;;
   when (i <? 0) (modify (upd_state (set_idx (n - 1))))) ;;
  (n <- gets items_length ;; i <- gets (fun w => idx (state w)) ;;
   when (i >=? n) (modify (upd_state (set_idx 0)))).

Section Loader.
Context {number : Type} `{JsNumber number}.
Variable DESCRIPTOR_DIR : string.
Variable srv : Server number.

Definition descriptor_path (species : option string) : string :=
  DESCRIPTOR_DIR +:+ "/" +:+ show species +:+ ".json".

(** [loadDescriptorsForSpecies(species)] up to its [await]: the cached
    value, or the request sent and nothing yet. *)
Definition load_begin (species : option string) : M (option (list string)) :=
  cached <- gets (fun w => cacheDescriptors (state w) !! species) ;;
  match cached with
  | Some v => ret (Some v)
  | None => request (descriptor_path species) ;; ret None
  end.

(** ... and from the [await] on, when the response has arrived. *)
Definition load_end (species : option string) (begun : option (list string))
  : M (list string) :=
  match begun with
  | Some v => ret v
  | None =>
      let path := descriptor_path species in
      data <- try_catch
                (obj <- respond path (descriptor_file srv path) ;;
                 ret (normalizeDescriptorList obj))
                (fun e =>
                   modify (console_log
                     (Warn ("Descriptor load failed for " +:+ show species +:+ ":") e)) ;;
                   ret []) ;;
      let out := tidy data in
      modify (upd_state (fun s =>
        set_cacheDescriptors (<[species := out]> (cacheDescriptors s)) s)) ;;
      ret out
  end.

Definition loadDescriptorsForSpecies (species : option string) : M (list string) :=
  begun <- load_begin species ;; load_end species begun.

(** [Promise.all(l.map(loadDescriptorsForSpecies))]: every call runs to
    its [await] before any response is handled. *)
Definition Promise_all_load (l : list (option string)) : M (list (list string)) :=
  begun <- mapM load_begin l ;;
  mapM (fun sb => load_end (fst sb) (snd sb)) (zip l begun).

End Loader.

(** *** Calls in flight

    Nothing awaits the [render()] of an event handler, so a call of
    [loadDescriptorsForSpecies] that waits for its response can be overtaken:
    other calls start and end before it is resumed. The cache is read before
    the [await] and written after it. *)

Section Flight.
Context {number : Type} `{JsNumber number}.
Variable DESCRIPTOR_DIR : string.




End Flight.

(** Truthiness of a field that is a string or undefined. *)
Definition truthy (v : option string) : bool :=
  match v with Some s => Str.truthy s | None => false end.

(** [v || ""] *)
Definition or_empty (v : option string) : string :=
  match v with Some s => s | None => "" end.

(** The test of [state.items.filter(x => x.image_path && x.species)]. *)
Definition valid (x : entry) : bool := truthy (image_path x) && truthy (species x).

(** A call that is not awaited: the caller goes on whatever it comes to.
    The call is run to its end at once, as when every response arrives
    before the next event. The images, the index, the button page and the
    number strip are written before the first [await] of [render], so for
    them every order of arrival gives the same; for the cache see
    [flight_step]. *)
Definition spawn {A} (c : M A) : M unit := fun w => (inr tt, snd (c w)).

(** The last statement of the script:
    [main().catch(err => { console.error(err); el("meta").textContent = ... })]. *)
Definition run_main (main : M unit) : World -> World :=
  fun w =>
    match main w with
    | (inr _, w') => w'
    | (inl err, w') =>
        upd_dom (set_meta ("Error: " +:+ message err)) (console_log (ErrorLog err) w')
    end.

(** ** The flat-strip variant (src/assets/app.js) *)

Module Flat.

Definition IMAGE_BASE_URL : string := "".
Definition DESCRIPTOR_DIR : string := "site_descriptors".
Definition DATA_DIR : string := "data".

Section WithServer.
Context {number : Type} `{JsNumber number}.
Variable srv : Server number.

Definition setBigTitle (item : entry) : M unit :=
  i <- gets (fun w => idx (state w)) ;;
  n <- gets items_length ;;
  let path := or_empty (image_path item) in
  modify (upd_dom (set_bigTitle
    ("Image " +:+ pretty (i + 1) +:+ " / " +:+ pretty n +:+ " " +:+
     Str.utf8 8212 +:+ " " +:+ path))).

Definition setMetaText (item : entry) : M unit :=
  let speciesPretty := Str.replaceAll "_" " " (or_empty (species item)) in
  modify (upd_dom (set_meta
    (if Str.truthy speciesPretty then "Species: " +:+ speciesPretty else ""))).

Definition setImage (item : entry) : M unit :=
  modify (upd_dom (set_mainImg_src (IMAGE_BASE_URL +:+ show (image_path item)))).

(** The button the loop of [renderNumButtons] makes for [i]. *)
Definition numBtn (current i : Z) : button :=
  {| btn_className := "numBtn" +:+ (if i =? current then " active" else "");
     btn_textContent := pretty (i + 1);
     btn_title := "Jump to image " +:+ pretty (i + 1);
     btn_onclick := JumpTo i |}.

(** Scrolling the active button into view leaves no trace in the model. *)
Definition renderNumButtons : M unit :=
  total <- gets items_length ;;
  i <- gets (fun w => idx (state w)) ;;
  modify (upd_dom (set_numstrip (map (numBtn i) (seqZ 0 total)))).

(** The row the loop of [renderDescriptorList] makes for [descs[i]]. *)
Definition descRow (i : Z) (d : string) : li :=
  LiSpans "descRow"
    [ {| span_className := "descBadge"; span_textContent := toColLabel i |};
      {| span_className := "descText"; span_textContent := d |} ].

(** [renderDescriptorList(listEl, descs)]: the children [listEl] ends
    up with. *)
Definition renderDescriptorList (descs : list string) : list li :=
  match descs with
  | [] => [LiText "descRow empty" "No descriptors found."]
  | _ => imap (fun i d => descRow (Z.of_nat i) d) descs
  end.

Definition renderDescriptors (item : entry) : M unit :=
  myDesc <- loadDescriptorsForSpecies DESCRIPTOR_DIR srv (species item) ;;
  modify (upd_dom (set_speciesList (renderDescriptorList myDesc))).

Definition render : M unit :=
  clampIdx ;;
  found <- gets (fun w => at_index (items (state w)) (idx (state w))) ;;
  match found with
  | None => ret tt
  | Some item =>
      setBigTitle item ;;
      setMetaText item ;;
      setImage item ;;
      renderNumButtons ;;
      renderDescriptors item
  end.

(** The events [setupControls] and [renderNumButtons] install handlers
    for. *)
Inductive event :=
| ClickPrev
| ClickNext
| ClickNum (i : Z)         (* a numbered control made for index [i] *)
| KeyDown (key : string).

Definition handle (e : event) : M unit :=
  match e with
  | ClickPrev =>
      modify (upd_state (fun s => set_idx (idx s - 1) s)) ;; spawn render
  | ClickNext =>
      modify (upd_state (fun s => set_idx (idx s + 1) s)) ;; spawn render
  | ClickNum i =>
      modify (upd_state (set_idx i)) ;; spawn render
  | KeyDown key =>
      if String.eqb key "ArrowLeft" then
        modify (upd_state (fun s => set_idx (idx s - 1) s)) ;; spawn render
      else if String.eqb key "ArrowRight" then
        modify (upd_state (fun s => set_idx (idx s + 1) s)) ;; spawn render
      else ret tt
  end.

(** The world after an event. *)
Definition step (w : World) (e : event) : World := snd (handle e w).

(** The worlds after each of a sequence of events. *)
Fixpoint trace (w : World) (es : list event) : list World :=
  match es with
  | [] => []
  | e :: rest => step w e :: trace (step w e) rest
  end.

Definition main : M unit :=
  fetched <- fetchJson (DATA_DIR +:+ "/images_index.json") (images_index srv) ;;
  modify (upd_state (set_items fetched)) ;;
  fetched <- fetchJson (DATA_DIR +:+ "/class_to_species.json") (class_to_species srv) ;;
  modify (upd_state (set_classToSpecies fetched)) ;;
  modify (upd_state (fun s => set_items (List.filter valid (items s)) s)) ;;
  render.

End WithServer.
End Flat.

(** ** The paged variant (src/unnamed/part_000) *)

Module Paged.

Definition IMAGE_BASE_URL : string := "".
Definition DESCRIPTOR_DIR : string := "descriptors".
Definition DATA_DIR : string := "data".

(** Property names every object inherits from [Object.prototype]; their
    values are functions, or the prototype itself. *)
Definition Object_prototype_names : list string :=
  ["constructor"; "__defineGetter__"; "__defineSetter__"; "hasOwnProperty";
   "__lookupGetter__"; "__lookupSetter__"; "isPrototypeOf";
   "propertyIsEnumerable"; "toString"; "valueOf"; "__proto__";
   "toLocaleString"].

(** What [state.classToSpecies[cls]] evaluates to. *)
Inductive class_lookup :=
| Members (l : list string)    (* an own property: the species of the class *)
| Inherited                    (* a member of [Object.prototype]: truthy, no [filter] *)
| Undefined.

Definition lookup_class (m : gmap string (list string)) (cls : string) : class_lookup :=
  match m !! cls with
  | Some l => Members l
  | None =>
      if bool_decide (cls ∈ Object_prototype_names) then Inherited else Undefined
  end.

(** [findClassForSpecies(species)], over the class map as
    [Object.entries(state.classToSpecies)] lists it: the first class whose
    list includes the species; [None] is [null]. *)
Fixpoint findClassForSpecies (entries : list (string * list string))
    (species : string) : option string :=
  match entries with
  | [] => None
  | (cls, members) :: rest =>
      if bool_decide (species ∈ members) then Some cls
      else findClassForSpecies rest species
  end.

(** [parseInt(s, 10)] for [s] that starts with a digit: the value of its
    leading run of digits. *)
Fixpoint digits_value (acc : Z) (s : string) : Z :=
  match s with
  | EmptyString => acc
  | String c rest =>
      let d := Z.of_N (N_of_ascii c) - 48 in
      if (0 <=? d) && (d <=? 9) then digits_value (10 * acc + d) rest else acc
  end.

Definition parseInt (s : string) : Z := digits_value 0 s.

(** [[a[i], a[j]] = [a[j], a[i]]] for indices within the array. *)
Definition swap {A} (a : list A) (i j : nat) : list A :=
  match a !! j, a !! i with
  | Some aj, Some ai => <[j := ai]> (<[i := aj]> a)
  | _, _ => a
  end.

(** The Fisher-Yates loop, [i] counting down to 1. [pick i] stands for
    the draw [Math.random()] gives at [i]; [Math.floor(Math.random() *
    (i + 1))] is some index from 0 to [i]. *)
Fixpoint shuffle_from (i : nat) (pick : nat -> nat) (a : list entry) : list entry :=
  match i with
  | O => a
  | S i' => shuffle_from i' pick (swap a i (pick i mod (i + 1))%nat)
  end.

Section WithServer.
Context {number : Type} `{JsNumber number}.
Variable srv : Server number.

Definition setMetaText (item : entry) : M unit :=
  match species item with
  | None =>
      throw {| err_name := "TypeError";
               message := "Cannot read properties of undefined (reading 'replaceAll')" |}
  | Some sp =>
      let speciesPretty := Str.replaceAll "_" " " sp in
      i <- gets (fun w => idx (state w)) ;;
      n <- gets items_length ;;
      modify (upd_dom (set_meta
        (pretty (i + 1) +:+ " / " +:+ pretty n +:+ " " +:+ Str.utf8 8226 +:+ " " +:+
         speciesPretty)))
  end.

(** The button the loop of [renderNumButtons] makes for [i]. *)
Definition nbtn (current start i : Z) : button :=
  {| btn_className := "nbtn" +:+ (if i =? current then " active" else "");
     btn_textContent := pretty ((i - start) + 1);
     btn_title := "Jump to item " +:+ pretty (i + 1);
     btn_onclick := JumpTo i |}.

Definition adv : button :=
  {| btn_className := "nbtn"; btn_textContent := "0";
     btn_title := "Next button page"; btn_onclick := AdvancePage |}.

Definition renderNumButtons : M unit :=
  page <- gets (fun w => btnPage (state w)) ;;
  n <- gets items_length ;;
  i <- gets (fun w => idx (state w)) ;;
  let start := page * 9 in
  let end_ := Z.min (start + 9) n in
  modify (upd_dom (set_numstrip
    (map (nbtn i start) (seqZ start (end_ - start)) ++ [adv]))).

(** The closure of the "0" control, which the "0" key repeats. *)
Definition advancePage : M unit :=
  n <- gets items_length ;;
  page <- gets (fun w => btnPage (state w)) ;;
  let maxPage := (n - 1) / 9 in
  modify (upd_state (set_btnPage (if page + 1 >? maxPage then 0 else page + 1))) ;;
  renderNumButtons.

Definition setImage (item : entry) : M unit :=
  modify (upd_dom (set_mainImg_src (IMAGE_BASE_URL +:+ show (image_path item)))).

(** [renderList(listEl, items)]: the children [listEl] ends up with. *)
Definition renderList (l : list string) : list li :=
  map (LiText "") l ++
  (if (Z.of_nat (length l) =? 0) then
     [LiHtml ("<span style=" +:+ dquote +:+ "opacity:.8" +:+ dquote +:+
              ">No descriptors found.</span>")]
   else []).

Definition renderDescriptors (item : entry) : M unit :=
  let cls := class_name item in
  classes <- gets (fun w => classToSpecies (state w)) ;;
  otherSpecies <-
    (match cls with
     | Some c =>
         if Str.truthy c then
           match lookup_class classes c with
           | Members l =>
               ret (List.filter (fun s => negb (bool_decide (Some s = species item))) l)
           | Inherited =>
               throw {| err_name := "TypeError";
                        message := "state.classToSpecies[cls].filter is not a function" |}
           | Undefined => ret []
           end
         else ret []
     | None => ret []
     end) ;;
  myDesc <- loadDescriptorsForSpecies DESCRIPTOR_DIR srv (species item) ;;
  classDesc <-
    (if (Z.of_nat (length otherSpecies) >? 0) then
       all <- Promise_all_load DESCRIPTOR_DIR srv (map Some otherSpecies) ;;
       ret (uniq (concat all))
     else ret []) ;;
  let otherOnly := List.filter (fun d => negb (bool_decide (d ∈ myDesc))) classDesc in
  modify (upd_dom (set_speciesList (renderList myDesc))) ;;
  modify (upd_dom (set_classList (renderList otherOnly))).

Definition render : M unit :=
  clampIdx ;;
  found <- gets (fun w => at_index (items (state w)) (idx (state w))) ;;
  match found with
  | None => ret tt
  | Some item =>
      modify (upd_state (fun s => set_btnPage (idx s / 9) s)) ;;
      setMetaText item ;;
      setImage item ;;
      renderNumButtons ;;
      renderDescriptors item
  end.

(** The events [setupControls] and [renderNumButtons] install handlers
    for. *)
Inductive event :=
| ClickPrev
| ClickNext
| ClickShuffle (pick : nat -> nat)
| ClickNum (i : Z)         (* a numbered control made for index [i] *)
| ClickAdv                 (* the "0" control *)
| KeyDown (key : string).

Definition handle (e : event) : M unit :=
  match e with
  | ClickPrev =>
      modify (upd_state (fun s => set_idx (idx s - 1) s)) ;; spawn render
  | ClickNext =>
      modify (upd_state (fun s => set_idx (idx s + 1) s)) ;; spawn render
  | ClickShuffle pick =>
      modify (upd_state (fun s =>
        set_items (shuffle_from (length (items s) - 1) pick (items s)) s)) ;;
      modify (upd_state (set_idx 0)) ;;
      modify (upd_state (set_btnPage 0)) ;;
      spawn render
  | ClickNum i =>
      modify (upd_state (set_idx i)) ;; spawn render
  | ClickAdv => advancePage
  | KeyDown key =>
      if String.eqb key "ArrowLeft" then
        modify (upd_state (fun s => set_idx (idx s - 1) s)) ;; spawn render
      else if String.eqb key "ArrowRight" then
        modify (upd_state (fun s => set_idx (idx s + 1) s)) ;; spawn render
      else if String.leb "1" key && String.leb key "9" then
        let offset := parseInt key - 1 in
        page <- gets (fun w => btnPage (state w)) ;;
        n <- gets items_length ;;
        let i := page * 9 + offset in
        when (i <? n) (modify (upd_state (set_idx i)) ;; spawn render)
      else if String.eqb key "0" then advancePage
      else ret tt
  end.

(** The world after an event. *)
Definition step (w : World) (e : event) : World := snd (handle e w).

(** The worlds after each of a sequence of events. *)
Fixpoint trace (w : World) (es : list event) : list World :=
  match es with
  | [] => []
  | e :: rest => step w e :: trace (step w e) rest
  end.

Definition main : M unit :=
  fetched <- fetchJson (DATA_DIR +:+ "/images_index.json") (images_index srv) ;;
  modify (upd_state (set_items fetched)) ;;
  fetched <- fetchJson (DATA_DIR +:+ "/class_to_species.json") (class_to_species srv) ;;
  modify (upd_state (set_classToSpecies fetched)) ;;
  modify (upd_state (fun s => set_items (List.filter valid (items s)) s)) ;;
  render.

End WithServer.
End Paged.

(** ** Definitions used to state the properties *)

(** The number a column label denotes in bijective base 26, continuing
    from [acc]. *)
Fixpoint label_value (acc : Z) (s : string) : Z :=
  match s with
  | EmptyString => acc
  | String c r => label_value (acc * 26 + (Z.of_N (N_of_ascii c) - 64)) r
  end.

(** The badge of a rendered descriptor row. *)
Definition badge (row : li) : option string :=
  match row with
  | LiSpans _ (b :: _) => Some (span_textContent b)
  | _ => None
  end.


(** Strings that are a run of characters drawn from [cs]. *)
Inductive made_of (cs : list string) : string -> Prop :=
| made_nil : made_of cs ""
| made_cons c s : c ∈ cs -> made_of cs s -> made_of cs (c +:+ s).

(** The index [clampIdx] leaves for [n] items when it finds [i]. *)
Definition wrap (n i : Z) : Z :=
  if n =? 0 then 0 else if i <? 0 then n - 1 else if i >=? n then 0 else i.

(** The pager invariant. *)
Definition valid_idx (w : World) : Prop :=
  (items_length w = 0 /\ idx (state w) = 0) \/
  0 <= idx (state w) < items_length w.

(** A computation respects [R] when every run relates the world it
    starts in to the world it leaves. *)
Definition respects (R : World -> World -> Prop) {A} (c : M A) : Prop :=
  forall w, R w (snd (c w)).

(** A computation returns when no run of it throws. *)
Definition returns {A} (c : M A) : Prop :=
  forall w, exists a, fst (c w) = inr a.

(** The image list, the class map and the index stay. *)
Definition same_pager (w w' : World) : Prop :=
  items (state w') = items (state w) /\
  classToSpecies (state w') = classToSpecies (state w) /\
  idx (state w') = idx (state w).

(** Everything but the cache, the console and the requests stays. *)
Definition same_page (w w' : World) : Prop :=
  items (state w') = items (state w) /\
  classToSpecies (state w') = classToSpecies (state w) /\
  idx (state w') = idx (state w) /\
  btnPage (state w') = btnPage (state w) /\
  dom w' = dom w.

(** Every cached descriptor list is still cached, unchanged. *)
Definition cache_grows (w w' : World) : Prop :=
  cacheDescriptors (state w) ⊆ cacheDescriptors (state w').

(** What [fetchJson] comes to on a response: the error it throws, or the
    value it returns. *)
Definition outcome {A} (path : string) (r : response A) : error + A :=
  match r with
  | Rejected e => inl e
  | Response status body =>
      if negb (ok status) then
        inl {| err_name := "Error";
               message := "Failed to fetch " +:+ path +:+ ": " +:+ pretty status |}
      else body
  end.

Section LoaderSpec.
Context {number : Type} `{JsNumber number}.
Variable DESCRIPTOR_DIR : string.
Variable srv : Server number.

(** What fetching the descriptor file of [species] comes to. *)
Definition served (species : option string) : error + json number :=
  let path := descriptor_path DESCRIPTOR_DIR species in
  outcome path (descriptor_file srv path).

(** The list a load of [species] that goes to the server ends with. *)
Definition answer (species : option string) : list string :=
  tidy (match served species with
        | inr obj => normalizeDescriptorList obj
        | inl _ => []
        end).

(** The world after the warning such a load logs, if it logs one. *)
Definition warned (species : option string) (w : World) : World :=
  match served species with
  | inl e =>
      console_log (Warn ("Descriptor load failed for " +:+ show species +:+ ":") e) w
  | inr _ => w
  end.

(** The world after [state.cacheDescriptors.set(species, v)]. *)
Definition cached (species : option string) (v : list string) (w : World) : World :=
  upd_state (fun s => set_cacheDescriptors (<[species := v]> (cacheDescriptors s)) s) w.

(** The descriptor list of [species] in world [w]: what
    [loadDescriptorsForSpecies] returns for it there. *)
Definition loaded (w : World) (species : option string) : list string :=
  match fst (loadDescriptorsForSpecies DESCRIPTOR_DIR srv species w) with
  | inr v => v
  | inl _ => []
  end.

End LoaderSpec.

Section ClassOnly.
Context {number : Type} `{JsNumber number}.
Variable DESCRIPTOR_DIR : string.
Variable srv : Server number.

(** The union, without duplicates, of the descriptor lists of the members
    of a class other than the species of [item], less the descriptors of
    that species. *)
Definition class_only (w : World) (item : entry) (members : list string) : list string :=
  let own := loaded DESCRIPTOR_DIR srv w (species item) in
  let others :=
    List.filter (fun s => negb (bool_decide (Some s = species item))) members in
  let union :=
    uniq (concat (map (fun s => loaded DESCRIPTOR_DIR srv w (Some s)) others)) in
  List.filter (fun d => negb (bool_decide (d ∈ own))) union.

End ClassOnly.

(** *** Sample data *)

Definition sample_entry (sp : string) (cls : option string) : entry :=
  {| image_path := Some ("img/" +:+ sp +:+ ".png"); species := Some sp;
     class_name := cls |}.

Definition sample_items : list entry :=
  [sample_entry "a" (Some "0"); sample_entry "b" (Some "0");
   sample_entry "c" (Some "0")].

Definition not_found : response (json Z) :=
  Response 404 (inl {| err_name := "SyntaxError"; message := "Unexpected token" |}).

(** Species a and b are described by "x", species c by "y"; nothing else
    has a descriptor file. *)
Definition sample_descriptor_file (path : string) : response (json Z) :=
  if String.eqb path "descriptors/a.json" || String.eqb path "site_descriptors/a.json"
  then Response 200 (inr (JArr [JStr "x"]))
  else if String.eqb path "descriptors/b.json" || String.eqb path "site_descriptors/b.json"
  then Response 200 (inr (JObj [("attributes", JArr [JStr "x"; JStr " x "])]))
  else if String.eqb path "descriptors/c.json" || String.eqb path "site_descriptors/c.json"
  then Response 200 (inr (JObj [("1", JStr "y")]))
  else not_found.

Definition sample_server : Server Z :=
  {| images_index := Response 200 (inr sample_items);
     class_to_species := Response 200 (inr {[ "0" := ["a"; "b"; "c"] ]});
     descriptor_file := sample_descriptor_file |}.

(** The paged viewer after start-up on the sample data and one click on
    "next": three images, index 1, button page 0. *)
Definition sample_world : World :=
  Paged.step sample_server (run_main (Paged.main sample_server) initial_world)
    Paged.ClickNext.

(** A page whose class map is that of the sample data, nothing loaded. *)
Definition scenario_world : World :=
  upd_state (set_classToSpecies {[ "0" := ["a"; "b"; "c"] ]}) initial_world.

(** A data set whose only class is named by the empty string, and the
    paged viewer after start-up on it: it shows the first image, of
    species a. *)
Definition empty_class_server : Server Z :=
  {| images_index :=
       Response 200 (inr [sample_entry "a" (Some ""); sample_entry "c" (Some "")]);
     class_to_species := Response 200 (inr {[ "" := ["a"; "c"] ]});
     descriptor_file := sample_descriptor_file |}.

Definition empty_class_world : World :=
  run_main (Paged.main empty_class_server) initial_world.

(** A server on which the image index is unavailable. *)
Definition broken_server : Server Z :=
  {| images_index :=
       Response 503 (inl {| err_name := "SyntaxError"; message := "Unexpected token" |});
     class_to_species := Response 200 (inr {[ "0" := ["a"; "b"; "c"] ]});
     descriptor_file := sample_descriptor_file |}.


(** *** Further notions *)

(** The event of clicking a control of the paged strip: its [onclick]
    closure runs. *)
Definition click (b : button) : Paged.event :=
  match btn_onclick b with
  | JumpTo i => Paged.ClickNum i
  | AdvancePage => Paged.ClickAdv
  end.

(** The button page is one of the pages the list has. *)
Definition page_ok (w : World) : Prop :=
  (items_length w = 0 /\ btnPage (state w) = 0) \/
  (0 <= btnPage (state w) /\ btnPage (state w) * 9 < items_length w).

(** The image list, the index and the button page stay. *)
Definition same_paging (w w' : World) : Prop :=
  items (state w') = items (state w) /\
  idx (state w') = idx (state w) /\
  btnPage (state w') = btnPage (state w).

(** A descriptor list as the loader leaves it: no duplicates, no empty
    string, no string with white space at either end. *)
Definition normal (v : list string) : Prop :=
  NoDup v /\ Forall (fun d => d <> "" /\ Str.trim d = d) v.

(** Every cached descriptor list is normal. *)
Definition cache_normal (w : World) : Prop :=
  forall sp v, cacheDescriptors (state w) !! sp = Some v -> normal v.

(** [P] holds after if it held before. *)
Definition keeps (P : World -> Prop) (w w' : World) : Prop := P w -> P w'.

(** The page of the flat variant that shows [item] as the current entry
    of [w], with descriptors [descs]; the class list is not the flat
    variant's to write. *)
Definition flat_page (w : World) (item : entry) (descs : list string) : Dom :=
  {| bigTitle :=
       "Image " +:+ pretty (idx (state w) + 1) +:+ " / " +:+
       pretty (items_length w) +:+ " " +:+ Str.utf8 8212 +:+ " " +:+
       or_empty (image_path item);
     meta :=
       (let speciesPretty := Str.replaceAll "_" " " (or_empty (species item)) in
        if Str.truthy speciesPretty then "Species: " +:+ speciesPretty else "");
     mainImg_src := Flat.IMAGE_BASE_URL +:+ show (image_path item);
     numstrip := map (Flat.numBtn (idx (state w))) (seqZ 0 (items_length w));
     speciesList := Flat.renderDescriptorList descs;
     classList := classList (dom w) |}.

(** [fuel] iterations are enough for the loop of [toColLabel] started at
    [n]: one for each binary digit of a positive [n]. *)
Definition enough (fuel : nat) (n : Z) : Prop := n <= 0 \/ Z.log2 n < Z.of_nat fuel.

(** A string of capital letters A to Z. *)
Definition capitals (s : string) : Prop :=
  Forall (fun c => (65 <= N_of_ascii c <= 90)%N) (list_ascii_of_string s).

(** ** Worked examples *)

Example trim_ex1 : Str.trim " striped " = "striped".
Proof. reflexivity. Qed.

Example trim_ex2 :
  Str.trim (Str.utf8 160 +:+ " a b" +:+ Str.utf8 8232 +:+ Str.utf8 9) = "a b".
Proof. reflexivity. Qed.

Example uniq_ex : uniq ["b"; "a"; "b"; "c"; "a"] = ["b"; "a"; "c"].
Proof. reflexivity. Qed.

Example toColLabel_27 : toColLabel 27 = "AB".
Proof. reflexivity. Qed.

Example toColLabel_702 : toColLabel 702 = "AAA".
Proof. reflexivity. Qed.

(** ** Strings: basic facts *)

Lemma append_nil_r s : s +:+ "" = s.
Proof. induction s as [|c s IH]; [reflexivity|]. unfold append; fold append. now rewrite IH. Qed.

Lemma append_assoc s t u : (s +:+ t) +:+ u = s +:+ (t +:+ u).
Proof.
  induction s as [|c s IH]; [reflexivity|].
  unfold append; fold append. now rewrite IH.
Qed.

Lemma append_length s t :
  String.length (s +:+ t) = (String.length s + String.length t)%nat.
Proof.
  induction s as [|c s IH]; [reflexivity|].
  unfold append; fold append. simpl. now rewrite IH.
Qed.

Lemma append_cons c s t : String c s +:+ t = String c (s +:+ t).
Proof. reflexivity. Qed.

Lemma rev_app_append s : forall t, String.rev_app s t = String.rev s +:+ t.
Proof.
  unfold String.rev. induction s as [|a s IH]; intros t; [reflexivity|].
  cbn [String.rev_app]. rewrite (IH (String a t)), (IH (String a "")).
  now rewrite append_assoc.
Qed.

Lemma rev_append s t : String.rev (s +:+ t) = String.rev t +:+ String.rev s.
Proof.
  induction s as [|a s IH]; [now rewrite append_nil_r|].
  rewrite append_cons. unfold String.rev at 1 3. cbn [String.rev_app].
  rewrite !rev_app_append, IH. now rewrite append_assoc.
Qed.

Lemma rev_involutive s : String.rev (String.rev s) = s.
Proof.
  induction s as [|a s IH]; [reflexivity|].
  unfold String.rev at 2. cbn [String.rev_app].
  rewrite rev_app_append, rev_append, IH. reflexivity.
Qed.

Lemma rev_length s : String.length (String.rev s) = String.length s.
Proof.
  induction s as [|a s IH]; [reflexivity|].
  unfold String.rev. cbn [String.rev_app]. rewrite rev_app_append, append_length, IH.
  simpl. lia.
Qed.

Lemma strip_prefix_spec p : forall s r, Str.strip_prefix p s = Some r <-> s = p +:+ r.
Proof.
  induction p as [|a p IH]; intros s r; cbn [Str.strip_prefix].
  - split; [now intros [= ->]|now intros ->].
  - destruct s as [|b s]; [split; discriminate|].
    rewrite append_cons. destruct (Ascii.eqb_spec a b) as [->|Hab].
    + rewrite IH. split; [now intros ->|now intros [= ->]].
    + split; [discriminate|]. intros [= -> _]. now destruct Hab.
Qed.

Lemma made_of_app cs s t : made_of cs s -> made_of cs t -> made_of cs (s +:+ t).
Proof.
  induction 1 as [|c s Hc _ IH]; intros Ht; [exact Ht|].
  rewrite append_assoc. constructor; auto.
Qed.

Lemma made_of_rev cs p : made_of (map String.rev cs) p -> made_of cs (String.rev p).
Proof.
  induction 1 as [|c p Hc _ IH]; [constructor|].
  rewrite rev_append. apply made_of_app; [exact IH|].
  apply list_elem_of_In, in_map_iff in Hc. destruct Hc as (c0 & <- & Hc0).
  rewrite rev_involutive. rewrite <- (append_nil_r c0).
  constructor; [now apply list_elem_of_In|constructor].
Qed.

Lemma strip_one_some cs s r :
  Str.strip_one cs s = Some r -> exists c, c ∈ cs /\ s = c +:+ r.
Proof.
  induction cs as [|c cs IH]; cbn [Str.strip_one]; [discriminate|].
  destruct (Str.strip_prefix c s) as [r'|] eqn:Hc.
  - intros [= ->]. exists c. split; [constructor|]. now apply strip_prefix_spec.
  - intros Hr. destruct (IH Hr) as (c' & Hc' & ->). exists c'. split; [now constructor|reflexivity].
Qed.

Lemma strip_one_none cs s :
  Str.strip_one cs s = None -> forall c r, c ∈ cs -> s <> c +:+ r.
Proof.
  induction cs as [|c0 cs IH]; cbn [Str.strip_one]; intros Hnone c r Hc.
  - inversion Hc.
  - destruct (Str.strip_prefix c0 s) as [r'|] eqn:Hc0; [discriminate|].
    apply elem_of_cons in Hc. destruct Hc as [->|Hc]; [|now apply IH].
    intros Hs. apply strip_prefix_spec in Hs. congruence.
Qed.

Lemma strip_one_empty cs :
  Forall (fun c => c <> "") cs -> Str.strip_one cs "" = None.
Proof.
  induction 1 as [|c cs Hc _ IH]; [reflexivity|].
  cbn [Str.strip_one]. destruct c; [now destruct Hc|]. exact IH.
Qed.

Lemma strip_leading_spec cs :
  Forall (fun c => c <> "") cs ->
  forall fuel s, (String.length s <= fuel)%nat ->
  exists pre, made_of cs pre /\ s = pre +:+ Str.strip_leading fuel cs s /\
              Str.strip_one cs (Str.strip_leading fuel cs s) = None.
Proof.
  intros Hcs. induction fuel as [|fuel IH]; intros s Hlen; cbn [Str.strip_leading].
  - destruct s; [|simpl in Hlen; lia].
    exists "". split; [constructor|]. split; [reflexivity|]. now apply strip_one_empty.
  - destruct (Str.strip_one cs s) as [r|] eqn:Hone.
    + destruct (strip_one_some _ _ _ Hone) as (c & Hc & ->).
      assert (Hne : c <> "") by (rewrite Forall_forall in Hcs; now apply Hcs).
      rewrite append_length in Hlen.
      destruct (IH r) as (pre & Hpre & Hr & Hnone).
      { destruct c; [now destruct Hne|]. simpl in Hlen. lia. }
      exists (c +:+ pre). split; [now constructor|]. split; [|exact Hnone].
      rewrite append_assoc. now rewrite <- Hr.
    + exists "". split; [constructor|]. split; [reflexivity|exact Hone].
Qed.

Lemma white_space_nonempty : Forall (fun c => c <> "") Str.white_space.
Proof. vm_compute. repeat constructor; discriminate. Qed.

Lemma white_space_rev_nonempty : Forall (fun c => c <> "") (map String.rev Str.white_space).
Proof. vm_compute. repeat constructor; discriminate. Qed.

Lemma trimStart_spec s :
  exists pre, made_of Str.white_space pre /\ s = pre +:+ Str.trimStart s /\
    forall c r, c ∈ Str.white_space -> Str.trimStart s <> c +:+ r.
Proof.
  destruct (strip_leading_spec _ white_space_nonempty (String.length s) s (le_n _))
    as (pre & Hpre & Hs & Hnone).
  exists pre. split; [exact Hpre|]. split; [exact Hs|].
  now apply strip_one_none.
Qed.

Lemma trimEnd_spec s :
  exists suf, made_of Str.white_space suf /\ s = Str.trimEnd s +:+ suf /\
    forall c r, c ∈ Str.white_space -> Str.trimEnd s <> r +:+ c.
Proof.
  destruct (strip_leading_spec _ white_space_rev_nonempty (String.length s) (String.rev s))
    as (pre & Hpre & Hs & Hnone); [rewrite rev_length; lia|].
  exists (String.rev pre). split; [now apply made_of_rev|]. split.
  - unfold Str.trimEnd. rewrite <- rev_append, <- Hs. now rewrite rev_involutive.
  - intros c r Hc Heq. unfold Str.trimEnd in Heq.
    apply (f_equal String.rev) in Heq. rewrite rev_involutive, rev_append in Heq.
    refine (strip_one_none _ _ Hnone (String.rev c) (String.rev r) _ Heq).
    apply list_elem_of_In, in_map, list_elem_of_In, Hc.
Qed.

Lemma trim_spec s :
  exists pre suf, made_of Str.white_space pre /\ made_of Str.white_space suf /\
    s = pre +:+ Str.trim s +:+ suf /\
    forall c r, c ∈ Str.white_space -> Str.trim s <> c +:+ r /\ Str.trim s <> r +:+ c.
Proof.
  destruct (trimStart_spec s) as (pre & Hpre & Hs & Hlead).
  destruct (trimEnd_spec (Str.trimStart s)) as (suf & Hsuf & Ht & Htrail).
  exists pre, suf. split; [exact Hpre|]. split; [exact Hsuf|]. split.
  - unfold Str.trim. now rewrite <- Ht.
  - intros c r Hc. split; [|now apply Htrail].
    intros Heq. apply (Hlead c (r +:+ suf) Hc).
    rewrite Ht. unfold Str.trim in Heq. rewrite Heq. now rewrite append_assoc.
Qed.

(** ** Deduplication *)

Lemma Set_add_elem s x y : y ∈ Set_add s x <-> y ∈ s \/ y = x.
Proof.
  unfold Set_add. case_bool_decide as Hx.
  - split; [auto|]. intros [Hy| ->]; assumption.
  - rewrite elem_of_app, list_elem_of_singleton. reflexivity.
Qed.

Lemma Set_add_NoDup s x : NoDup s -> NoDup (Set_add s x).
Proof.
  intros Hs. unfold Set_add. case_bool_decide as Hx; [exact Hs|].
  apply NoDup_app. split; [exact Hs|]. split.
  - intros y Hy Hyx. apply list_elem_of_singleton in Hyx. now subst.
  - apply NoDup_singleton.
Qed.

Lemma fold_Set_add_elem l : forall acc y,
  y ∈ fold_left Set_add l acc <-> y ∈ acc \/ y ∈ l.
Proof.
  induction l as [|x l IH]; intros acc y; cbn [fold_left].
  - rewrite elem_of_nil. tauto.
  - rewrite IH, Set_add_elem, elem_of_cons. tauto.
Qed.

Lemma fold_Set_add_NoDup l : forall acc,
  NoDup acc -> NoDup (fold_left Set_add l acc).
Proof.
  induction l as [|x l IH]; intros acc Hacc; cbn [fold_left]; [exact Hacc|].
  apply IH, Set_add_NoDup, Hacc.
Qed.



(** ** Numbers *)

Lemma nearest_integer_bounds a b :
  0 < b ->
  2 * a - b <= 2 * b * Double.nearest_integer a b <= 2 * a + b.
Proof.
  intros Hb. unfold Double.nearest_integer.
  pose proof (Z.div_mod a b ltac:(lia)) as Hdm.
  pose proof (Z.mod_pos_bound a b Hb) as Hr.
  destruct (Z.compare_spec (2 * (a mod b)) b) as [Heq|Hlt|Hgt].
  - destruct (Z.even (a / b)); nia.
  - nia.
  - nia.
Qed.

Lemma scale_nonneg z e : 0 <= e -> Double.scale z e = z * 2 ^ e.
Proof. intros He. unfold Double.scale. now rewrite Z.max_r. Qed.

Lemma scale_neg z e : e <= 0 -> Double.scale z e = z.
Proof. intros He. unfold Double.scale. rewrite Z.max_l by lia. lia. Qed.

Lemma pow2_pos e : 0 <= e -> 0 < 2 ^ e.
Proof. intros He. apply Z.pow_pos_nonneg; lia. Qed.

(** [2 ^ log2_quotient a b] is at most [a / b]. *)
Lemma log2_quotient_lower a b :
  0 < a -> 0 < b ->
  Double.scale b (Double.log2_quotient a b) <=
  Double.scale a (- Double.log2_quotient a b).
Proof.
  intros Ha Hb. unfold Double.log2_quotient.
  set (k := Z.log2 a - Z.log2 b).
  destruct (Z.ltb_spec (Double.scale a (- k)) (Double.scale b k)) as [Hlt|Hge];
    [|exact Hge].
  destruct (Z.log2_spec a Ha) as [Hla _].
  destruct (Z.log2_spec b Hb) as [_ Hlb].
  pose proof (Z.log2_nonneg a) as Hla0. pose proof (Z.log2_nonneg b) as Hlb0.
  destruct (Z_le_gt_dec 1 k) as [Hk|Hk].
  - rewrite scale_nonneg, scale_neg by lia.
    replace (Z.log2 a) with (Z.succ (Z.log2 b) + (k - 1)) in Hla by (unfold k; lia).
    rewrite Z.pow_add_r in Hla by lia.
    pose proof (pow2_pos (k - 1) ltac:(lia)). nia.
  - rewrite scale_neg, scale_nonneg by lia.
    replace (- (k - 1)) with (Z.succ (Z.log2 b) - Z.log2 a) by (unfold k; lia).
    assert (Hsplit : 2 ^ Z.succ (Z.log2 b) =
                     2 ^ Z.log2 a * 2 ^ (Z.succ (Z.log2 b) - Z.log2 a)).
    { rewrite <- Z.pow_add_r by (unfold k in Hk; lia). f_equal. lia. }
    pose proof (pow2_pos (Z.succ (Z.log2 b) - Z.log2 a) ltac:(unfold k in Hk; lia)).
    nia.
Qed.

(** [2 ^ (log2_quotient a b + 1)] is more than [a / b]. *)
Lemma log2_quotient_upper a b :
  0 < a -> 0 < b ->
  Double.scale a (- (Double.log2_quotient a b + 1)) <
  Double.scale b (Double.log2_quotient a b + 1).
Proof.
  intros Ha Hb. unfold Double.log2_quotient.
  set (k := Z.log2 a - Z.log2 b).
  destruct (Z.ltb_spec (Double.scale a (- k)) (Double.scale b k)) as [Hlt|Hge].
  { now replace (k - 1 + 1) with k by lia. }
  destruct (Z.log2_spec a Ha) as [_ Hla].
  destruct (Z.log2_spec b Hb) as [Hlb _].
  pose proof (Z.log2_nonneg a) as Hla0. pose proof (Z.log2_nonneg b) as Hlb0.
  destruct (Z_le_gt_dec 0 (k + 1)) as [Hk|Hk].
  - rewrite (scale_neg a), (scale_nonneg b) by lia.
    replace (Z.succ (Z.log2 a)) with (Z.log2 b + (k + 1)) in Hla by (unfold k; lia).
    rewrite Z.pow_add_r in Hla by lia.
    pose proof (pow2_pos (k + 1) Hk). nia.
  - rewrite (scale_nonneg a), (scale_neg b) by lia.
    assert (Hsplit : 2 ^ Z.log2 b =
                     2 ^ Z.succ (Z.log2 a) * 2 ^ (- (k + 1))).
    { rewrite <- Z.pow_add_r by (unfold k in Hk; lia). f_equal. unfold k. lia. }
    pose proof (pow2_pos (- (k + 1)) ltac:(lia)). nia.
Qed.

(** The scaled quotient that [nearest] rounds is at least 2^52. *)
Lemma nearest_scaled_lower a b :
  0 < a -> 0 < b ->
  let e := Double.log2_quotient a b - 52 in
  Double.scale b e * 2 ^ 52 <= Double.scale a (- e).
Proof.
  intros Ha Hb e. pose proof (log2_quotient_lower a b Ha Hb) as Hl.
  set (L := Double.log2_quotient a b) in *.
  destruct (Z_le_gt_dec 0 e) as [He|He].
  - rewrite (scale_nonneg b e), (scale_neg a (- e)) by lia.
    rewrite (scale_nonneg b L), (scale_neg a (- L)) in Hl by (unfold e in He; lia).
    replace L with (e + 52) in Hl by (unfold e; lia).
    rewrite Z.pow_add_r in Hl by lia. lia.
  - rewrite (scale_neg b e), (scale_nonneg a (- e)) by lia.
    destruct (Z_le_gt_dec 0 L) as [HL|HL].
    + rewrite (scale_nonneg b L), (scale_neg a (- L)) in Hl by lia.
      replace 52 with (L + - e) at 1 by (unfold e; lia).
      rewrite Z.pow_add_r by lia.
      pose proof (pow2_pos (- e) ltac:(lia)). nia.
    + rewrite (scale_neg b L), (scale_nonneg a (- L)) in Hl by lia.
      replace (- e) with (- L + 52) by (unfold e; lia).
      rewrite Z.pow_add_r by lia.
      pose proof (pow2_pos 52 ltac:(lia)). nia.
Qed.

(** ... and below 2^53. *)
Lemma nearest_scaled_upper a b :
  0 < a -> 0 < b ->
  let e := Double.log2_quotient a b - 52 in
  Double.scale a (- e) < Double.scale b e * 2 ^ 53.
Proof.
  intros Ha Hb e. pose proof (log2_quotient_upper a b Ha Hb) as Hu.
  set (L := Double.log2_quotient a b) in *.
  destruct (Z_le_gt_dec 0 e) as [He|He].
  - rewrite (scale_nonneg b e), (scale_neg a (- e)) by lia.
    rewrite (scale_nonneg b (L + 1)), (scale_neg a (- (L + 1))) in Hu
      by (unfold e in He; lia).
    replace (L + 1) with (e + 53) in Hu by (unfold e; lia).
    rewrite Z.pow_add_r in Hu by lia. lia.
  - rewrite (scale_neg b e), (scale_nonneg a (- e)) by lia.
    destruct (Z_le_gt_dec 0 (L + 1)) as [HL|HL].
    + rewrite (scale_nonneg b (L + 1)), (scale_neg a (- (L + 1))) in Hu by lia.
      replace 53 with (L + 1 + - e) at 1 by (unfold e; lia).
      rewrite Z.pow_add_r by lia.
      pose proof (pow2_pos (- e) ltac:(lia)). nia.
    + rewrite (scale_neg b (L + 1)), (scale_nonneg a (- (L + 1))) in Hu by lia.
      replace (- e) with (- (L + 1) + 53) by (unfold e; lia).
      rewrite Z.pow_add_r by lia.
      pose proof (pow2_pos 53 ltac:(lia)). nia.
Qed.

(** [nearest] rounds to 53 binary digits: the mantissa of the double
    nearest to a positive [a / b] has 53 digits, or is 2^53, and is within
    one half of [a / b / 2^e]. *)
Lemma nearest_spec a b :
  0 < a -> 0 < b ->
  let (m, e) := Double.nearest a b in
  2 ^ 52 <= m <= 2 ^ 53 /\
  2 * Double.scale a (- e) - Double.scale b e <= 2 * Double.scale b e * m
    <= 2 * Double.scale a (- e) + Double.scale b e.
Proof.
  intros Ha Hb. unfold Double.nearest.
  destruct (Z.eqb_spec a 0) as [|_]; [lia|].
  rewrite Z.abs_eq, Z.sgn_pos, Z.mul_1_l by lia.
  pose proof (nearest_scaled_lower a b Ha Hb) as Hlow.
  pose proof (nearest_scaled_upper a b Ha Hb) as Hup. cbv zeta in Hlow, Hup.
  set (e := Double.log2_quotient a b - 52) in *.
  assert (HB : 0 < Double.scale b e)
    by (unfold Double.scale; pose proof (pow2_pos (Z.max 0 e) ltac:(lia)); nia).
  pose proof (nearest_integer_bounds (Double.scale a (- e)) (Double.scale b e) HB)
    as Hm.
  set (m := Double.nearest_integer _ _) in *.
  set (A := Double.scale a (- e)) in *. set (B := Double.scale b e) in *.
  change (2 ^ 52) with 4503599627370496 in *.
  change (2 ^ 53) with 9007199254740992 in *.
  split; [|exact Hm]. split; nia.
Qed.

(** Rounding at most doubles a quotient that is not negative. *)
Lemma floor_nearest_le a b :
  0 <= a -> 0 < b ->
  0 <= Double.floor (Double.nearest a b) /\
  b * Double.floor (Double.nearest a b) <= 2 * a.
Proof.
  intros Ha Hb. unfold Double.nearest.
  destruct (Z.eqb_spec a 0) as [->|Hne]; [cbn; lia|].
  assert (Hpos : 0 < a) by lia.
  rewrite Z.abs_eq, Z.sgn_pos, Z.mul_1_l by lia.
  pose proof (nearest_scaled_lower a b Hpos Hb) as Hlow. cbv zeta in Hlow.
  set (e := Double.log2_quotient a b - 52) in *.
  change (2 ^ 52) with 4503599627370496 in Hlow.
  unfold Double.floor.
  destruct (Z.leb_spec 0 e) as [He|He].
  - rewrite (scale_nonneg b e), (scale_neg a (- e)) in * by lia.
    pose proof (pow2_pos e He) as Hp.
    assert (HB : 0 < b * 2 ^ e) by nia.
    pose proof (nearest_integer_bounds a (b * 2 ^ e) HB) as Hm.
    set (m := Double.nearest_integer _ _) in *.
    set (B := b * 2 ^ e) in *.
    assert (Hm0 : 0 <= m) by nia.
    split; [apply Z.mul_nonneg_nonneg; lia|].
    replace (b * (m * 2 ^ e)) with (B * m) by (unfold B; ring). nia.
  - rewrite (scale_neg b e), (scale_nonneg a (- e)) in * by lia.
    pose proof (pow2_pos (- e) ltac:(lia)) as Hs.
    pose proof (nearest_integer_bounds (a * 2 ^ (- e)) b Hb) as Hm.
    set (m := Double.nearest_integer _ _) in *.
    set (A := a * 2 ^ (- e)) in *.
    assert (Hm0 : 0 <= m) by nia.
    pose proof (Z.div_pos m (2 ^ (- e)) Hm0 Hs) as Hq0.
    pose proof (Z.mul_div_le m (2 ^ (- e)) Hs) as Hq.
    split; [exact Hq0|].
    assert (Hbm : b * m <= 2 * A) by nia.
    assert (b * (m / 2 ^ (- e)) * 2 ^ (- e) <= 2 * a * 2 ^ (- e))
      by (unfold A in Hbm; nia).
    nia.
Qed.

Lemma floor_nearest_nonpos a b :
  a <= 0 -> 0 < b -> Double.floor (Double.nearest a b) <= 0.
Proof.
  intros Ha Hb. unfold Double.nearest.
  destruct (Z.eqb_spec a 0) as [->|Hne]; [cbn; lia|].
  rewrite Z.sgn_neg by lia.
  set (e := Double.log2_quotient (Z.abs a) b - 52).
  assert (HB : 0 < Double.scale b e)
    by (unfold Double.scale; pose proof (pow2_pos (Z.max 0 e) ltac:(lia)); nia).
  assert (HA : 0 <= Double.scale (Z.abs a) (- e))
    by (unfold Double.scale; pose proof (pow2_pos (Z.max 0 (- e)) ltac:(lia)); nia).
  pose proof (nearest_integer_bounds (Double.scale (Z.abs a) (- e)) _ HB) as Hm.
  set (m := Double.nearest_integer _ _) in *.
  assert (Hm0 : 0 <= m) by nia.
  unfold Double.floor. destruct (Z.leb_spec 0 e) as [He|He].
  - pose proof (pow2_pos e He). nia.
  - pose proof (pow2_pos (- e) ltac:(lia)) as Hs.
    assert (-1 * m / 2 ^ (- e) <= 0 / 2 ^ (- e)) by (apply Z.div_le_mono; lia).
    rewrite Zdiv_0_l in *. lia.
Qed.

Lemma floor_fraction m e : e <= 0 -> Double.floor (m, e) = m / 2 ^ (- e).
Proof.
  intros He. unfold Double.floor.
  destruct (Z.leb_spec 0 e) as [He0|He0]; [|reflexivity].
  replace e with 0 by lia. change (2 ^ (- 0)) with 1. change (2 ^ 0) with 1.
  now rewrite Z.mul_1_r, Z.div_1_r.
Qed.

(** A quotient below 2^53 is rounded at an exponent that is not positive. *)
Lemma small_exponent a b :
  0 < a < 2 ^ 53 -> 0 < b -> Double.log2_quotient a b - 52 <= 0.
Proof.
  intros [Hpos Hbound] Hb.
  pose proof (nearest_scaled_lower a b Hpos Hb) as Hlow. cbv zeta in Hlow.
  set (e := Double.log2_quotient a b - 52) in *.
  destruct (Z_le_gt_dec e 0) as [|Hgt]; [assumption|exfalso].
  rewrite (scale_nonneg b e), (scale_neg a (- e)) in Hlow by lia.
  assert (2 ^ 1 <= 2 ^ e) by (apply Z.pow_le_mono_r; lia).
  change (2 ^ 1) with 2 in *.
  change (2 ^ 52) with 4503599627370496 in Hlow.
  change (2 ^ 53) with 9007199254740992 in Hbound. nia.
Qed.

(** The quotient of a whole number below 2^53 is floored exactly. *)
Lemma floor_div_exact a b :
  0 <= a < 2 ^ 53 -> 0 < b -> Double.floor_div a b = a / b.
Proof.
  intros [Ha Hbound] Hb. unfold Double.floor_div, Double.nearest.
  destruct (Z.eqb_spec a 0) as [->|Hne]; [rewrite Zdiv_0_l; reflexivity|].
  assert (Hpos : 0 < a) by lia.
  rewrite Z.abs_eq, Z.sgn_pos, Z.mul_1_l by lia.
  pose proof (nearest_scaled_lower a b Hpos Hb) as Hlow. cbv zeta in Hlow.
  pose proof (small_exponent a b ltac:(lia) Hb) as He.
  set (e := Double.log2_quotient a b - 52) in *.
  rewrite floor_fraction by exact He.
  rewrite (scale_neg b e), (scale_nonneg a (- e)) in * by lia.
  pose proof (pow2_pos (- e) ltac:(lia)) as Hs.
  pose proof (nearest_integer_bounds (a * 2 ^ (- e)) b Hb) as Hm.
  set (m := Double.nearest_integer _ _) in *.
  pose proof (Z.div_mod a b ltac:(lia)) as Hdm.
  pose proof (Z.mod_pos_bound a b Hb) as Hr.
  change (2 ^ 52) with 4503599627370496 in Hlow.
  change (2 ^ 53) with 9007199254740992 in Hbound.
  set (P := 2 ^ (- e)) in *. set (q := a / b) in *. set (r := a mod b) in *.
  symmetry. apply (Z.div_unique m P q (m - q * P)); [|lia].
  left. split; nia.
Qed.

(** A whole number below 2^53 in magnitude is a double. *)
Lemma round_exact z : Z.abs z < 2 ^ 53 -> Double.floor (Double.nearest z 1) = z.
Proof.
  intros Hz. unfold Double.nearest.
  destruct (Z.eqb_spec z 0) as [->|Hne]; [reflexivity|].
  assert (Hpos : 0 < Z.abs z) by lia.
  pose proof (small_exponent (Z.abs z) 1 ltac:(lia) ltac:(lia)) as He.
  set (e := Double.log2_quotient (Z.abs z) 1 - 52) in *.
  rewrite floor_fraction by exact He.
  rewrite (scale_neg 1 e), (scale_nonneg _ (- e)) by lia.
  pose proof (pow2_pos (- e) ltac:(lia)) as Hs.
  assert (Hm : Double.nearest_integer (Z.abs z * 2 ^ (- e)) 1 = Z.abs z * 2 ^ (- e)).
  { unfold Double.nearest_integer. rewrite Z.mod_1_r, Z.div_1_r. reflexivity. }
  assert (Hsgn : Z.sgn z * Z.abs z = z) by lia.
  rewrite Hm, Z.mul_assoc, Hsgn. apply Z.div_mul. lia.
Qed.

(** Adding one is exact up to 2^53 and no further. *)
Lemma add_one_exact n : 0 <= n < 2 ^ 53 -> Double.add n 1 = n + 1.
Proof.
  intros Hn. destruct (Z.eq_dec n (2 ^ 53 - 1)) as [->|Hne]; [reflexivity|].
  apply round_exact. lia.
Qed.

Lemma sub_one_exact n : 0 < n <= 2 ^ 53 -> Double.sub n 1 = n - 1.
Proof. intros Hn. apply round_exact. lia. Qed.

(** An iteration of the loop of [toColLabel] leaves less than half. *)
Lemma quotient_halves n :
  0 < n ->
  0 <= Double.sub n 1 /\
  0 <= Double.floor_div (Double.sub n 1) 26 /\
  2 * Double.floor_div (Double.sub n 1) 26 < n.
Proof.
  intros Hn.
  destruct (floor_nearest_le (n - 1) 1 ltac:(lia) ltac:(lia)) as [Ha0 Ha].
  fold (Double.sub n 1) in Ha0, Ha.
  destruct (floor_nearest_le (Double.sub n 1) 26 Ha0 ltac:(lia)) as [Hq0 Hq].
  fold (Double.floor_div (Double.sub n 1) 26) in Hq0, Hq. lia.
Qed.

(** ** Column labels *)

Lemma enough_next fuel n :
  0 < n -> enough (S fuel) n -> enough fuel (Double.floor_div (Double.sub n 1) 26).
Proof.
  intros Hn [Hle|Hlog]; [lia|].
  destruct (quotient_halves n Hn) as (_ & Hq0 & Hq).
  set (q := Double.floor_div (Double.sub n 1) 26) in *.
  destruct (Z.eq_dec q 0) as [Hz|Hz]; [left; lia|right].
  assert (Hlt : Z.log2 q < Z.log2 n); [|lia].
  apply Z.lt_le_trans with (Z.log2 (2 * q)).
  - rewrite Z.log2_double by lia. lia.
  - apply Z.log2_le_mono. lia.
Qed.

Lemma enough_S fuel n : enough fuel n -> enough (S fuel) n.
Proof. intros [Hle|Hlog]; [now left|right; lia]. Qed.

(** Once there is enough fuel, more changes nothing: the loop has ended
    because [n] is no longer positive. *)
Lemma toColLabel_loop_more fuel : forall n s,
  enough fuel n -> toColLabel_loop (S fuel) n s = toColLabel_loop fuel n s.
Proof.
  induction fuel as [|fuel IH]; intros n s Hfuel.
  - destruct Hfuel as [Hle|Hlog]; [|pose proof (Z.log2_nonneg n); lia].
    cbn. destruct (Z.ltb_spec 0 n); [lia|reflexivity].
  - change (toColLabel_loop (S (S fuel)) n s) with
      (if 0 <? n then
         toColLabel_loop (S fuel) (Double.floor_div (Double.sub n 1) 26)
           (Str.fromCharCode (65 + Z.rem (Double.sub n 1) 26) +:+ s)
       else s).
    change (toColLabel_loop (S fuel) n s) with
      (if 0 <? n then
         toColLabel_loop fuel (Double.floor_div (Double.sub n 1) 26)
           (Str.fromCharCode (65 + Z.rem (Double.sub n 1) 26) +:+ s)
       else s).
    destruct (Z.ltb_spec 0 n) as [Hn|Hn]; [|reflexivity].
    apply IH. now apply enough_next.
Qed.

Lemma toColLabel_loop_stable fuel fuel' n s :
  enough fuel n -> enough fuel' n ->
  toColLabel_loop fuel n s = toColLabel_loop fuel' n s.
Proof.
  assert (Hadd : forall k f, enough f n ->
            toColLabel_loop (k + f) n s = toColLabel_loop f n s).
  { induction k as [|k IH]; intros f Hf; [reflexivity|].
    cbn [Nat.add]. rewrite toColLabel_loop_more; [now apply IH|].
    clear IH. induction k as [|k IHk]; [exact Hf|now apply enough_S]. }
  intros Hf Hf'. destruct (Nat.le_ge_cases fuel fuel') as [Hle|Hle].
  - replace fuel' with ((fuel' - fuel) + fuel)%nat by lia. now rewrite Hadd.
  - replace fuel with ((fuel - fuel') + fuel')%nat by lia. now rewrite Hadd.
Qed.

(** With enough fuel the loop is the [while] loop of the code. *)
Lemma toColLabel_loop_step fuel n s :
  enough fuel n ->
  toColLabel_loop fuel n s =
  if 0 <? n then
    toColLabel_loop fuel (Double.floor_div (Double.sub n 1) 26)
      (Str.fromCharCode (65 + Z.rem (Double.sub n 1) 26) +:+ s)
  else s.
Proof.
  intros Hfuel. destruct fuel as [|fuel].
  - destruct Hfuel as [Hle|Hlog]; [|pose proof (Z.log2_nonneg n); lia].
    destruct (Z.ltb_spec 0 n); [lia|reflexivity].
  - cbn [toColLabel_loop]. destruct (Z.ltb_spec 0 n) as [Hn|Hn]; [|reflexivity].
    cbv zeta. symmetry. apply toColLabel_loop_more. now apply enough_next.
Qed.

Lemma toColLabel_enough n : enough (S (Z.to_nat (Z.log2 n))) n.
Proof. right. pose proof (Z.log2_nonneg n). lia. Qed.

Lemma label_value_app a s t :
  label_value a (s +:+ t) = label_value (label_value a s) t.
Proof.
  revert a; induction s as [|c s IH]; intros a; [reflexivity|].
  unfold append; fold append. simpl. apply IH.
Qed.

(** The loop only ever extends the label to the left. *)
Lemma toColLabel_loop_app fuel :
  forall n s, toColLabel_loop fuel n s = toColLabel_loop fuel n "" +:+ s.
Proof.
  induction fuel as [|fuel IH]; intros n s; [reflexivity|].
  cbn [toColLabel_loop]. destruct (0 <? n); [|reflexivity]. cbv zeta.
  rewrite (IH _ (_ +:+ s)), (IH _ (_ +:+ "")).
  now rewrite append_nil_r, append_assoc.
Qed.

Lemma fromCharCode_value r a :
  0 <= r < 26 -> label_value a (Str.fromCharCode (65 + r)) = a * 26 + r + 1.
Proof.
  intros Hr. unfold Str.fromCharCode. simpl.
  rewrite N_ascii_embedding; lia.
Qed.

(** Up to 2^53 an iteration of the loop computes exactly. *)
Lemma toColLabel_loop_exact fuel n s :
  0 < n <= 2 ^ 53 -> enough fuel n ->
  toColLabel_loop fuel n s =
  toColLabel_loop fuel ((n - 1) / 26) (Str.fromCharCode (65 + (n - 1) mod 26) +:+ s).
Proof.
  intros Hn Hfuel. rewrite (toColLabel_loop_step fuel n s Hfuel).
  destruct (Z.ltb_spec 0 n); [|lia].
  rewrite sub_one_exact, floor_div_exact, Z.rem_mod_nonneg by lia. reflexivity.
Qed.

(** Reading a label back gives the number it was made from. *)
Lemma toColLabel_loop_value fuel :
  forall n, 0 <= n <= 2 ^ 53 -> enough fuel n ->
  label_value 0 (toColLabel_loop fuel n "") = n.
Proof.
  intros n Hn. revert Hn. pattern n.
  apply (well_founded_ind (Z.lt_wf 0)). clear n. intros n IH Hn Hfuel.
  destruct (Z.eq_dec n 0) as [->|Hpos].
  { rewrite toColLabel_loop_step by exact Hfuel. reflexivity. }
  rewrite toColLabel_loop_exact by (exact Hfuel || lia).
  assert (Hq : 0 <= (n - 1) / 26 < n).
  { split; [apply Z.div_pos; lia|].
    apply Z.le_lt_trans with (n - 1); [|lia]. apply Z.div_le_upper_bound; lia. }
  assert (Hnext : enough fuel ((n - 1) / 26)).
  { destruct Hfuel as [Hle|Hlog]; [lia|].
    right. apply Z.le_lt_trans with (Z.log2 n); [|exact Hlog].
    apply Z.log2_le_mono. lia. }
  rewrite toColLabel_loop_app, label_value_app, (IH _ Hq) by (exact Hnext || lia).
  rewrite append_nil_r, fromCharCode_value by (apply Z.mod_pos_bound; lia).
  pose proof (Z.div_mod (n - 1) 26). lia.
Qed.

Lemma toColLabel_value n :
  0 <= n < 2 ^ 53 -> label_value 0 (toColLabel n) = n + 1.
Proof.
  intros Hn. unfold toColLabel. cbv zeta. rewrite add_one_exact by exact Hn.
  apply toColLabel_loop_value; [lia|apply toColLabel_enough].
Qed.

Lemma toColLabel_inj m n :
  0 <= m < 2 ^ 53 -> 0 <= n < 2 ^ 53 -> toColLabel m = toColLabel n -> m = n.
Proof.
  intros Hm Hn Heq. apply (f_equal (label_value 0)) in Heq.
  rewrite !toColLabel_value in Heq by assumption. lia.
Qed.

Lemma badges_of_rows (descs : list string) (k : nat) :
  omap badge (imap (fun i d => Flat.descRow (Z.of_nat (k + i)) d) descs) =
  map (fun i => toColLabel (Z.of_nat i)) (seq k (length descs)).
Proof.
  revert k. induction descs as [|d descs IH]; intros k; [reflexivity|].
  cbn [imap omap list_omap length seq map Flat.descRow badge span_textContent].
  rewrite Nat.add_0_r. f_equal.
  rewrite <- (IH (S k)). f_equal. apply imap_ext. intros i x _.
  unfold compose. do 2 f_equal. lia.
Qed.

(** C10, as the code has it: in the flat variant the row of the descriptor
    at index [i] carries the badge [toColLabel i], the bijective base-26
    column label of [i]: 0 gives "A", 25 gives "Z", 26 gives "AA".
    [toColLabel] is injective on the whole numbers from 0 up to, and not
    including, 2^53, so the badges of a rendered list of at most 2^53
    descriptors (an array holds fewer than 2^32) are pairwise distinct. *)
Theorem toColLabel_badges_rows :
  toColLabel 0 = "A" /\ toColLabel 25 = "Z" /\ toColLabel 26 = "AA" /\
  (forall m n : Z,
      0 <= m < 2 ^ 53 -> 0 <= n < 2 ^ 53 -> toColLabel m = toColLabel n -> m = n) /\
  (forall (descs : list string) (i : nat) (d : string),
      descs !! i = Some d ->
      Flat.renderDescriptorList descs !! i =
      Some (LiSpans "descRow"
              [ {| span_className := "descBadge";
                   span_textContent := toColLabel (Z.of_nat i) |};
                {| span_className := "descText"; span_textContent := d |} ])) /\
  (forall descs : list string,
      Z.of_nat (length descs) <= 2 ^ 53 ->
      NoDup (omap badge (Flat.renderDescriptorList descs))).
Proof.
  split; [reflexivity|]. split; [reflexivity|]. split; [reflexivity|].
  split; [exact toColLabel_inj|]. split.
  - intros descs i d Hd. unfold Flat.renderDescriptorList.
    destruct descs as [|d0 descs]; [discriminate|].
    rewrite list_lookup_imap, Hd. reflexivity.
  - intros descs Hlen. unfold Flat.renderDescriptorList.
    destruct descs as [|d0 descs]; [cbn; constructor|].
    rewrite (imap_ext _ (fun i d => Flat.descRow (Z.of_nat (0 + i)) d))
      by (intros; reflexivity).
    rewrite badges_of_rows.
    apply NoDup_fmap_2_strong; [|apply NoDup_seq].
    intros i j Hi Hj Hij.
    apply elem_of_seq in Hi, Hj.
    apply toColLabel_inj in Hij; lia.
Qed.

(** C10, counterexample to the claim as stated: 2^53 - 1 and 2^53 are two
    whole numbers that are doubles, and they get the same label, since
    [n0 + 1] is computed in double precision and 2^53 + 1 is not a double:
    the sum is rounded to 2^53. *)
Lemma toColLabel_collides_at_2_53 :
  Double.representable (2 ^ 53 - 1) /\ Double.representable (2 ^ 53) /\
  Double.add (2 ^ 53) 1 = 2 ^ 53 /\
  toColLabel (2 ^ 53) = toColLabel (2 ^ 53 - 1) /\
  toColLabel (2 ^ 53) = "BKTXHSOGHKKF".
Proof. vm_compute. repeat split. Qed.

Lemma toColLabel_badges_rows_witness :
  (toColLabel 27 = toColLabel 27 -> 27 = 27) /\
  Flat.renderDescriptorList ["spotted"; "striped"] !! 1%nat =
  Some (LiSpans "descRow"
          [ {| span_className := "descBadge"; span_textContent := "B" |};
            {| span_className := "descText"; span_textContent := "striped" |} ]) /\
  NoDup (omap badge (Flat.renderDescriptorList ["spotted"; "striped"])).
Proof.
  destruct toColLabel_badges_rows as (_ & _ & _ & Hinj & Hrow & Hdistinct).
  split; [|split].
  - intros Heq. apply (Hinj 27 27); [lia|lia|exact Heq].
  - apply (Hrow ["spotted"; "striped"] 1%nat "striped"). reflexivity.
  - apply Hdistinct. cbn. lia.
Defined.

(** ** Shapes of a descriptor file *)

Section DescriptorFacts.
Context {number : Type} `{JsNumber number}.






End DescriptorFacts.

(** ** Computations that respect a relation between worlds *)

Section Respects.
Variable R : World -> World -> Prop.
Context `{!Reflexive R, !Transitive R}.

Lemma respects_ret {A} (a : A) : respects R (ret a).
Proof. intros w. reflexivity. Qed.

Lemma respects_throw {A} e : respects R (@throw A e).
Proof. intros w. reflexivity. Qed.

Lemma respects_gets {A} (f : World -> A) : respects R (gets f).
Proof. intros w. reflexivity. Qed.

Lemma respects_modify f : (forall w, R w (f w)) -> respects R (modify f).
Proof. intros Hf w. apply Hf. Qed.

Lemma respects_bind {A B} (c : M A) (k : A -> M B) :
  respects R c -> (forall a, respects R (k a)) -> respects R (bind c k).
Proof.
  intros Hc Hk w. unfold bind. specialize (Hc w).
  destruct (c w) as [[e|a] w']; [exact Hc|].
  etransitivity; [exact Hc|apply Hk].
Qed.

Lemma respects_try_catch {A} (c : M A) handler :
  respects R c -> (forall e, respects R (handler e)) -> respects R (try_catch c handler).
Proof.
  intros Hc Hh w. unfold try_catch. specialize (Hc w).
  destruct (c w) as [[e|a] w']; [|exact Hc].
  etransitivity; [exact Hc|apply Hh].
Qed.

Lemma respects_when b c : respects R c -> respects R (when b c).
Proof. intros Hc. destruct b; [exact Hc|apply respects_ret]. Qed.

Lemma respects_spawn {A} (c : M A) : respects R c -> respects R (spawn c).
Proof. intros Hc w. apply Hc. Qed.

Lemma respects_mapM {A B} (f : A -> M B) l :
  (forall a, respects R (f a)) -> respects R (mapM f l).
Proof.
  intros Hf. induction l as [|a l IH]; cbn [mapM]; [apply respects_ret|].
  apply respects_bind; [apply Hf|]. intros b.
  apply respects_bind; [exact IH|]. intros bs. apply respects_ret.
Qed.

End Respects.

Ltac respects_step :=
  lazymatch goal with
  | |- respects _ (ret _) => apply respects_ret; typeclasses eauto
  | |- respects _ (throw _) => apply respects_throw; typeclasses eauto
  | |- respects _ (gets _) => apply respects_gets; typeclasses eauto
  | |- respects _ (bind _ _) =>
      (apply respects_bind; try typeclasses eauto); [|intros ?]
  | |- respects _ (try_catch _ _) =>
      (apply respects_try_catch; try typeclasses eauto); [|intros ?]
  | |- respects _ (when _ _) => apply respects_when; try typeclasses eauto
  | |- respects _ (spawn _) => apply respects_spawn
  | |- respects _ (mapM _ _) =>
      (apply respects_mapM; try typeclasses eauto); intros ?
  | |- respects _ (modify _) =>
      apply respects_modify; intros ?;
      first [ repeat split; reflexivity | unfold cache_grows; reflexivity ]
  | |- respects _ (match ?x with _ => _ end) => destruct x
  end.

Ltac respects_auto := repeat respects_step.

#[local] Instance same_pager_refl : Reflexive same_pager.
Proof. intros w. now repeat split. Qed.

#[local] Instance same_pager_trans : Transitive same_pager.
Proof. intros a b c (?&?&?) (?&?&?). repeat split; congruence. Qed.

#[local] Instance same_page_refl : Reflexive same_page.
Proof. intros w. now repeat split. Qed.

#[local] Instance same_page_trans : Transitive same_page.
Proof. intros a b c (?&?&?&?&?) (?&?&?&?&?). repeat split; congruence. Qed.

#[local] Instance cache_grows_refl : Reflexive cache_grows.
Proof. intros w. unfold cache_grows. reflexivity. Qed.

#[local] Instance cache_grows_trans : Transitive cache_grows.
Proof. intros a b c. unfold cache_grows. apply transitivity. Qed.

Lemma same_page_pager w w' : same_page w w' -> same_pager w w'.
Proof. intros (?&?&?&?&?). now repeat split. Qed.

(** ** The descriptor loader *)

Section LoaderFacts.
Context {number : Type} `{JsNumber number}.
Variable DESCRIPTOR_DIR : string.
Variable srv : Server number.

#[local] Abbreviation load := (loadDescriptorsForSpecies DESCRIPTOR_DIR srv).
#[local] Abbreviation ans := (answer DESCRIPTOR_DIR srv).

Lemma respond_outcome {A} path (r : response A) w :
  respond path r w = (outcome path r, w).
Proof.
  unfold respond, outcome. destruct r as [e|status body]; [reflexivity|].
  destruct (negb (ok status)); [reflexivity|]. now destruct body.
Qed.

Lemma load_end_pending sp w :
  load_end DESCRIPTOR_DIR srv sp None w =
  (inr (ans sp), cached sp (ans sp) (warned DESCRIPTOR_DIR srv sp w)).
Proof.
  unfold load_end, bind, try_catch, answer, warned, served.
  rewrite respond_outcome.
  destruct (outcome _ _) as [e|obj]; reflexivity.
Qed.

Lemma load_cached sp v w :
  cacheDescriptors (state w) !! sp = Some v -> load sp w = (inr v, w).
Proof.
  intros Hc. unfold loadDescriptorsForSpecies, load_begin, bind, gets.
  now rewrite Hc.
Qed.

Lemma load_uncached sp w :
  cacheDescriptors (state w) !! sp = None ->
  load sp w =
  (inr (ans sp),
   cached sp (ans sp)
     (warned DESCRIPTOR_DIR srv sp (add_request (descriptor_path DESCRIPTOR_DIR sp) w))).
Proof.
  intros Hc. unfold loadDescriptorsForSpecies, load_begin, bind, gets.
  rewrite Hc. unfold request, modify, ret. apply load_end_pending.
Qed.

Lemma load_returns sp w :
  exists v w', load sp w = (inr v, w').
Proof.
  destruct (cacheDescriptors (state w) !! sp) as [v|] eqn:Hc.
  - exists v, w. now apply load_cached.
  - eexists _, _. now apply load_uncached.
Qed.

Lemma load_total sp : returns (load sp).
Proof. intros w. destruct (load_returns sp w) as (v & w' & ->). now exists v. Qed.

Lemma loaded_spec sp w :
  loaded DESCRIPTOR_DIR srv w sp = default (ans sp) (cacheDescriptors (state w) !! sp).
Proof.
  unfold loaded. destruct (cacheDescriptors (state w) !! sp) as [v|] eqn:Hc.
  - now rewrite (load_cached _ _ _ Hc).
  - now rewrite (load_uncached _ _ Hc).
Qed.

Lemma cache_warned sp w :
  state (warned DESCRIPTOR_DIR srv sp w) = state w.
Proof. unfold warned. now destruct (served _ _ _). Qed.

Lemma dom_warned sp w :
  dom (warned DESCRIPTOR_DIR srv sp w) = dom w.
Proof. unfold warned. now destruct (served _ _ _). Qed.

Lemma load_same_page sp : respects same_page (load sp).
Proof.
  unfold loadDescriptorsForSpecies, load_begin, load_end, request, respond.
  respects_auto.
Qed.

Lemma load_cache_grows sp : respects cache_grows (load sp).
Proof.
  intros w. unfold cache_grows.
  destruct (cacheDescriptors (state w) !! sp) as [v|] eqn:Hc.
  - now rewrite (load_cached _ _ _ Hc).
  - rewrite (load_uncached _ _ Hc).
    cbn [snd cached upd_state state set_cacheDescriptors cacheDescriptors].
    rewrite cache_warned. cbn [add_request state].
    now apply insert_subseteq.
Qed.

(** [Promise.all]: every call begins against the cache as it stands. *)
Lemma begin_all l : forall w,
  exists w', mapM (load_begin DESCRIPTOR_DIR) l w =
             (inr (map (fun sp => cacheDescriptors (state w) !! sp) l), w') /\
             state w' = state w /\ dom w' = dom w.
Proof.
  induction l as [|sp l IH]; intros w; cbn [mapM map].
  - exists w. now repeat split.
  - unfold bind at 1. unfold load_begin at 1. unfold bind at 1, gets at 1.
    destruct (cacheDescriptors (state w) !! sp) as [v|] eqn:Hc.
    + unfold ret at 1. destruct (IH w) as (w' & Hw' & Hst & Hdom).
      exists w'. unfold bind. rewrite Hw'. now repeat split.
    + unfold bind at 1, request, modify, ret at 1.
      destruct (IH (add_request (descriptor_path DESCRIPTOR_DIR sp) w))
        as (w' & Hw' & Hst & Hdom).
      exists w'. unfold bind. rewrite Hw'. now repeat split.
Qed.

(** ... and the pending ones end, each storing its answer. *)
Lemma end_all (sbs : list (option string * option (list string))) : forall w,
  (forall sp, (sp, None) ∈ sbs ->
     cacheDescriptors (state w) !! sp = None \/
     cacheDescriptors (state w) !! sp = Some (ans sp)) ->
  exists w',
    mapM (fun sb => load_end DESCRIPTOR_DIR srv (fst sb) (snd sb)) sbs w =
    (inr (map (fun sb => default (ans (fst sb)) (snd sb)) sbs), w') /\
    same_page w w' /\ cache_grows w w'.
Proof.
  induction sbs as [|[sp [v|]] sbs IH]; intros w Hinv; cbn [mapM map fst snd].
  - exists w. split; [reflexivity|]. split; reflexivity.
  - destruct (IH w) as (w' & Hrun & Hpage & Hgrow).
    { intros sp' Hin. apply Hinv. now constructor. }
    exists w'. unfold bind at 1. cbn [load_end]. unfold ret at 1.
    unfold bind. rewrite Hrun. split; [reflexivity|]. now split.
  - set (w1 := cached sp (ans sp) (warned DESCRIPTOR_DIR srv sp w)).
    assert (Hcache1 : cacheDescriptors (state w1) =
                      <[sp := ans sp]> (cacheDescriptors (state w))).
    { unfold w1. cbn [cached upd_state state set_cacheDescriptors cacheDescriptors].
      now rewrite cache_warned. }
    destruct (IH w1) as (w' & Hrun & Hpage & Hgrow).
    { intros sp' Hin. rewrite Hcache1.
      destruct (decide (sp = sp')) as [<-|Hne].
      - right. apply lookup_insert_eq.
      - rewrite lookup_insert_ne by exact Hne. apply Hinv. now constructor. }
    exists w'. unfold bind at 1. rewrite load_end_pending. fold w1.
    unfold bind. rewrite Hrun. split; [reflexivity|]. split.
    + transitivity w1; [|exact Hpage].
      unfold w1, same_page.
      cbn [cached upd_state state set_cacheDescriptors items classToSpecies idx btnPage dom].
      rewrite cache_warned, dom_warned. now repeat split.
    + transitivity w1; [|exact Hgrow].
      unfold cache_grows. rewrite Hcache1.
      destruct (Hinv sp) as [Hnone|Hsome]; [constructor| |].
      * now apply insert_subseteq.
      * now rewrite insert_id.
Qed.

Lemma load_cache_other sp sp' w :
  sp' <> sp ->
  cacheDescriptors (state (snd (loadDescriptorsForSpecies DESCRIPTOR_DIR srv sp w))) !! sp' =
  cacheDescriptors (state w) !! sp'.
Proof.
  intros Hne. destruct (cacheDescriptors (state w) !! sp) as [v|] eqn:Hc.
  - now rewrite (load_cached _ _ _ Hc).
  - rewrite (load_uncached _ _ Hc).
    cbn [snd cached upd_state state set_cacheDescriptors cacheDescriptors].
    rewrite cache_warned. cbn [add_request state].
    apply lookup_insert_ne. congruence.
Qed.

Lemma load_run sp w :
  exists w', loadDescriptorsForSpecies DESCRIPTOR_DIR srv sp w =
             (inr (loaded DESCRIPTOR_DIR srv w sp), w') /\
             same_page w w' /\
             forall sp', sp' <> sp ->
               cacheDescriptors (state w') !! sp' = cacheDescriptors (state w) !! sp'.
Proof.
  destruct (load_returns sp w) as (v & w' & Hload).
  exists w'. split; [|split].
  - unfold loaded. now rewrite Hload.
  - pose proof (load_same_page sp w) as Hp. now rewrite Hload in Hp.
  - intros sp' Hne. pose proof (load_cache_other sp sp' w Hne) as Hc.
    now rewrite Hload in Hc.
Qed.
Lemma zip_map_self {A B} (f : A -> B) (l : list A) :
  zip l (map f l) = map (fun a => (a, f a)) l.
Proof. induction l as [|a l IH]; [reflexivity|]. cbn. now rewrite IH. Qed.

Lemma Promise_all_load_spec l w :
  exists w',
    Promise_all_load DESCRIPTOR_DIR srv l w =
    (inr (map (loaded DESCRIPTOR_DIR srv w) l), w') /\
    same_page w w' /\ cache_grows w w'.
Proof.
  destruct (begin_all l w) as (w1 & Hbegin & Hstate & Hdom).
  destruct (end_all (zip l (map (fun sp => cacheDescriptors (state w) !! sp) l)) w1)
    as (w' & Hend & Hpage & Hgrow).
  { intros sp Hin. left. rewrite Hstate. rewrite zip_map_self in Hin.
    apply list_elem_of_In, in_map_iff in Hin. destruct Hin as (sp' & [= <- Hsp] & _).
    now symmetry. }
  exists w'. unfold Promise_all_load, bind. rewrite Hbegin, Hend.
  split; [|split].
  - f_equal. f_equal. rewrite zip_map_self, map_map. apply map_ext.
    intros sp. cbn [fst snd]. now rewrite loaded_spec.
  - transitivity w1; [|exact Hpage]. unfold same_page. rewrite Hstate, Hdom.
    now repeat split.
  - transitivity w1; [|exact Hgrow]. unfold cache_grows. now rewrite Hstate.
Qed.

End LoaderFacts.

(** ** Computations that return *)

Lemma returns_ret {A} (a : A) : returns (ret a).
Proof. intros w. now exists a. Qed.

Lemma returns_gets {A} (f : World -> A) : returns (gets f).
Proof. intros w. now eexists. Qed.

Lemma returns_modify f : returns (modify f).
Proof. intros w. now exists tt. Qed.

Lemma returns_spawn {A} (c : M A) : returns (spawn c).
Proof. intros w. now exists tt. Qed.

Lemma returns_bind {A B} (c : M A) (k : A -> M B) :
  returns c -> (forall a, returns (k a)) -> returns (bind c k).
Proof.
  intros Hc Hk w. unfold bind. destruct (Hc w) as [a Ha].
  destruct (c w) as [[e|a'] w']; [discriminate|]. apply Hk.
Qed.

Lemma returns_when b c : returns c -> returns (when b c).
Proof. intros Hc. destruct b; [exact Hc|apply returns_ret]. Qed.

Ltac returns_step :=
  lazymatch goal with
  | |- returns (ret _) => apply returns_ret
  | |- returns (gets _) => apply returns_gets
  | |- returns (modify _) => apply returns_modify
  | |- returns (spawn _) => apply returns_spawn
  | |- returns (bind _ _) => apply returns_bind; [|intros ?]
  | |- returns (when _ _) => apply returns_when
  | |- returns (match ?x with _ => _ end) => destruct x
  end.

Ltac returns_auto := repeat returns_step.

Lemma clampIdx_returns : returns clampIdx.
Proof. unfold clampIdx. returns_auto. Qed.

Section LoaderTheorems.
Context {number : Type} `{JsNumber number}.
Variable DESCRIPTOR_DIR : string.

#[local] Abbreviation path_of := (descriptor_path DESCRIPTOR_DIR).

Lemma failed_outcome {A} path (r : response A) :
  failed r = true <-> exists e, outcome path r = inl e.
Proof.
  unfold failed, outcome. destruct r as [e|status [e|v]].
  - split; [now exists e|reflexivity].
  - split; [|reflexivity]. intros _. destruct (negb (ok status)); now eexists.
  - destruct (negb (ok status)).
    + split; [now eexists|reflexivity].
    + split; [discriminate|]. intros [e He]. discriminate.
Qed.

Lemma tidy_elem data d :
  d ∈ tidy data <-> d <> "" /\ exists s, s ∈ data /\ d = Str.trim s.
Proof.
  unfold tidy, uniq. rewrite fold_Set_add_elem, elem_of_nil.
  rewrite list_elem_of_In, filter_In, in_map_iff. split.
  - intros [[]|[(s & <- & Hs) Hd]]. split.
    + intros Heq. now rewrite Heq in Hd.
    + exists s. split; [now apply list_elem_of_In|reflexivity].
  - intros [Hd (s & Hs & ->)]. right. split.
    + exists s. split; [reflexivity|now apply list_elem_of_In].
    + destruct (Str.trim s); [now destruct Hd|reflexivity].
Qed.


End LoaderTheorems.

Lemma Flat_render_returns {number : Type} `{JsNumber number} (srv : Server number) :
  returns (Flat.render srv).
Proof.
  unfold Flat.render, Flat.setBigTitle, Flat.setMetaText, Flat.setImage,
    Flat.renderNumButtons, Flat.renderDescriptors.
  apply returns_bind; [apply clampIdx_returns|intros _].
  returns_auto. apply load_total.
Qed.


(** C6: a load of descriptors never throws; when the fetch of the species'
    file fails (no response, a status that is not ok such as 404, or a body
    that is not JSON) the load logs a warning, caches and returns the empty
    list. Rendering in the flat variant, which loads descriptors last, never
    throws either. *)
Theorem loadDescriptorsForSpecies_failure_is_empty
    {number : Type} `{JsNumber number} (dir : string) (srv : Server number)
    (sp : option string) :
  (forall w, exists v w', loadDescriptorsForSpecies dir srv sp w = (inr v, w')) /\
  (forall w,
      cacheDescriptors (state w) !! sp = None ->
      failed (descriptor_file srv (descriptor_path dir sp)) = true ->
      exists e,
        outcome (descriptor_path dir sp)
                (descriptor_file srv (descriptor_path dir sp)) = inl e /\
        loadDescriptorsForSpecies dir srv sp w =
        (inr [],
         cached sp []
           (console_log
              (Warn ("Descriptor load failed for " +:+ show sp +:+ ":") e)
              (add_request (descriptor_path dir sp) w)))) /\
  returns (Flat.render srv).
Proof.
  split; [apply load_returns|]. split.
  - intros w Hc Hfail. apply (failed_outcome (descriptor_path dir sp)) in Hfail.
    destruct Hfail as [e He]. exists e. split; [exact He|].
    rewrite (load_uncached dir srv sp w Hc).
    unfold answer, warned, served. now rewrite He.
  - apply Flat_render_returns.
Qed.

(** ** The pager *)

Lemma clampIdx_spec w :
  clampIdx w = (inr tt, upd_state (set_idx (wrap (items_length w) (idx (state w)))) w).
Proof.
  destruct w as [[its cts i bp cache] d c r].
  unfold clampIdx, wrap, items_length, bind, gets, when, modify, ret, upd_state, set_idx.
  cbn [state items idx classToSpecies btnPage cacheDescriptors dom console requests].
  repeat
    match goal with
    | |- context [if ?b then _ else _] =>
        destruct b eqn:?;
        cbn [state items idx classToSpecies btnPage cacheDescriptors dom console requests]
    end;
    first [reflexivity | exfalso; lia | repeat f_equal; lia].
Qed.

Lemma wrap_valid n i :
  0 <= n -> (n = 0 /\ wrap n i = 0) \/ 0 <= wrap n i < n.
Proof.
  intros Hn. unfold wrap.
  destruct (n =? 0) eqn:H0; [left; lia|]. right.
  destruct (i <? 0) eqn:Hi; [lia|].
  destruct (i >=? n) eqn:Hge; lia.
Qed.

Lemma wrap_inside n i : 0 <= i < n -> wrap n i = i.
Proof.
  intros Hi. unfold wrap.
  assert ((n =? 0) = false) as -> by lia.
  assert ((i <? 0) = false) as -> by lia.
  assert ((i >=? n) = false) as -> by lia. reflexivity.
Qed.

Lemma wrap_below n i : 0 < n -> i < 0 -> wrap n i = n - 1.
Proof.
  intros Hn Hi. unfold wrap.
  assert ((n =? 0) = false) as -> by lia.
  assert ((i <? 0) = true) as -> by lia. reflexivity.
Qed.

Lemma wrap_above n i : 0 < n -> n <= i -> wrap n i = 0.
Proof.
  intros Hn Hi. unfold wrap.
  assert ((n =? 0) = false) as -> by lia.
  assert ((i <? 0) = false) as -> by lia.
  assert ((i >=? n) = true) as -> by lia. reflexivity.
Qed.

Lemma items_length_nonneg w : 0 <= items_length w.
Proof. unfold items_length. lia. Qed.

Section PagerFacts.
Context {number : Type} `{JsNumber number}.
Variable srv : Server number.

Lemma load_same_pager dir sp :
  respects same_pager (loadDescriptorsForSpecies dir srv sp).
Proof. intros w. apply same_page_pager, load_same_page. Qed.

Lemma Promise_all_same_pager dir l :
  respects same_pager (Promise_all_load dir srv l).
Proof.
  intros w. destruct (Promise_all_load_spec dir srv l w) as (w' & -> & Hpage & _).
  now apply same_page_pager.
Qed.

(** What [render] does after [clampIdx] leaves the list and the index
    alone. *)
Lemma Flat_shown_same_pager item :
  respects same_pager
    (Flat.setBigTitle item ;; Flat.setMetaText item ;; Flat.setImage item ;;
     Flat.renderNumButtons ;; Flat.renderDescriptors srv item).
Proof.
  unfold Flat.setBigTitle, Flat.setMetaText, Flat.setImage,
    Flat.renderNumButtons, Flat.renderDescriptors.
  respects_auto. apply load_same_pager.
Qed.

Lemma Paged_renderNumButtons_same_pager : respects same_pager Paged.renderNumButtons.
Proof. unfold Paged.renderNumButtons. respects_auto. Qed.

Lemma Paged_advancePage_same_pager : respects same_pager Paged.advancePage.
Proof.
  unfold Paged.advancePage. respects_auto.
  apply Paged_renderNumButtons_same_pager.
Qed.

Lemma Paged_shown_same_pager item :
  respects same_pager
    (modify (upd_state (fun s => set_btnPage (idx s / 9) s)) ;;
     Paged.setMetaText item ;; Paged.setImage item ;;
     Paged.renderNumButtons ;; Paged.renderDescriptors srv item).
Proof.
  unfold Paged.setMetaText, Paged.setImage, Paged.renderDescriptors.
  respects_auto;
    first [ apply Paged_renderNumButtons_same_pager
          | apply load_same_pager
          | apply Promise_all_same_pager ].
Qed.

Lemma Flat_render_pager w :
  same_pager (upd_state (set_idx (wrap (items_length w) (idx (state w)))) w)
             (snd (Flat.render srv w)).
Proof.
  unfold Flat.render. unfold bind at 1. rewrite clampIdx_spec.
  set (w1 := upd_state _ w). unfold bind at 1, gets at 1.
  destruct (at_index _ _) as [item|]; [|reflexivity].
  apply Flat_shown_same_pager.
Qed.

Lemma Paged_render_pager w :
  same_pager (upd_state (set_idx (wrap (items_length w) (idx (state w)))) w)
             (snd (Paged.render srv w)).
Proof.
  unfold Paged.render. unfold bind at 1. rewrite clampIdx_spec.
  set (w1 := upd_state _ w). unfold bind at 1, gets at 1.
  destruct (at_index _ _) as [item|]; [|reflexivity].
  apply Paged_shown_same_pager.
Qed.

(** A handler that sets the index to [i] and renders. *)
Lemma Flat_jump_pager (f : State -> State) w :
  (forall s, items (f s) = items s) ->
  (forall s, classToSpecies (f s) = classToSpecies s) ->
  let w' := snd ((modify (upd_state f) ;; spawn (Flat.render srv)) w) in
  items (state w') = items (state w) /\
  classToSpecies (state w') = classToSpecies (state w) /\
  idx (state w') = wrap (items_length w) (idx (f (state w))).
Proof.
  intros Hitems Hcts. cbn. destruct (Flat_render_pager (upd_state f w)) as (Hi & Hc & Hx).
  rewrite Hi, Hc, Hx. unfold items_length. cbn. now rewrite Hitems, Hcts.
Qed.

Lemma Paged_jump_pager (f : State -> State) w :
  (forall s, length (items (f s)) = length (items s)) ->
  let w' := snd ((modify (upd_state f) ;; spawn (Paged.render srv)) w) in
  length (items (state w')) = length (items (state w)) /\
  idx (state w') = wrap (items_length w) (idx (f (state w))).
Proof.
  intros Hitems. cbn. destruct (Paged_render_pager (upd_state f w)) as (Hi & Hc & Hx).
  rewrite Hi, Hx. unfold items_length. cbn. now rewrite Hitems.
Qed.

End PagerFacts.

Lemma valid_of_wrap w w' k :
  items_length w' = items_length w ->
  idx (state w') = wrap (items_length w) k ->
  valid_idx w'.
Proof.
  intros Hn Hi. unfold valid_idx. rewrite Hn, Hi.
  apply wrap_valid, items_length_nonneg.
Qed.

Lemma valid_of_same w w' :
  items_length w' = items_length w ->
  idx (state w') = idx (state w) ->
  valid_idx w -> valid_idx w'.
Proof. intros Hn Hi. unfold valid_idx. now rewrite Hn, Hi. Qed.

Lemma swap_length {A} (a : list A) i j : length (Paged.swap a i j) = length a.
Proof.
  unfold Paged.swap. destruct (a !! j), (a !! i); try reflexivity.
  now rewrite !length_insert.
Qed.

Lemma shuffle_from_length i pick : forall a,
  length (Paged.shuffle_from i pick a) = length a.
Proof.
  induction i as [|i IH]; intros a; cbn [Paged.shuffle_from]; [reflexivity|].
  now rewrite IH, swap_length.
Qed.

Section PagerTheorems.
Context {number : Type} `{JsNumber number}.
Variable srv : Server number.

Lemma Flat_step_set (f : State -> State) w :
  (forall s, items (f s) = items s) ->
  (forall s, classToSpecies (f s) = classToSpecies s) ->
  let w' := snd ((modify (upd_state f) ;; spawn (Flat.render srv)) w) in
  items_length w' = items_length w /\
  idx (state w') = wrap (items_length w) (idx (f (state w))).
Proof.
  intros Hi Hc. destruct (Flat_jump_pager srv f w Hi Hc) as (Hitems & _ & Hidx).
  split; [|exact Hidx]. unfold items_length. now rewrite Hitems.
Qed.

Lemma Paged_step_set (f : State -> State) w :
  (forall s, length (items (f s)) = length (items s)) ->
  let w' := snd ((modify (upd_state f) ;; spawn (Paged.render srv)) w) in
  items_length w' = items_length w /\
  idx (state w') = wrap (items_length w) (idx (f (state w))).
Proof.
  intros Hi. destruct (Paged_jump_pager srv f w Hi) as (Hitems & Hidx).
  split; [|exact Hidx]. unfold items_length. now rewrite Hitems.
Qed.

Lemma Flat_step_valid w e :
  valid_idx w ->
  valid_idx (Flat.step srv w e) /\
  items_length (Flat.step srv w e) = items_length w.
Proof.
  intros Hvalid. unfold Flat.step.
  destruct e as [| |i|key]; cbn [Flat.handle].
  1-3: match goal with
       | |- context [modify (upd_state ?f)] =>
           destruct (Flat_step_set f w) as [Hn Hi]; [reflexivity|reflexivity|]
       end; split; [eapply valid_of_wrap; eassumption|exact Hn].
  destruct (String.eqb key "ArrowLeft");
    [|destruct (String.eqb key "ArrowRight"); [|now split]].
  all: match goal with
       | |- context [modify (upd_state ?f)] =>
           destruct (Flat_step_set f w) as [Hn Hi]; [reflexivity|reflexivity|]
       end; split; [eapply valid_of_wrap; eassumption|exact Hn].
Qed.

Lemma Paged_advancePage_valid w :
  valid_idx w ->
  valid_idx (snd (Paged.advancePage w)) /\
  items_length (snd (Paged.advancePage w)) = items_length w.
Proof.
  intros Hvalid. destruct (Paged_advancePage_same_pager w) as (Hitems & _ & Hidx).
  assert (Hn : items_length (snd (Paged.advancePage w)) = items_length w)
    by (unfold items_length; now rewrite Hitems).
  split; [|exact Hn]. now apply (valid_of_same w).
Qed.

(** The handler of a digit key, by whether its target is below the
    count. *)
Lemma Paged_digit_step w offset :
  snd ((page <- gets (fun w => btnPage (state w)) ;;
        n <- gets items_length ;;
        when (page * 9 + offset <? n)
          (modify (upd_state (set_idx (page * 9 + offset))) ;;
           spawn (Paged.render srv))) w) =
  if btnPage (state w) * 9 + offset <? items_length w then
    snd ((modify (upd_state (set_idx (btnPage (state w) * 9 + offset))) ;;
          spawn (Paged.render srv)) w)
  else w.
Proof.
  unfold bind at 1, gets at 1. unfold bind at 1, gets at 1.
  now destruct (_ <? _).
Qed.

Lemma Paged_step_valid w e :
  valid_idx w ->
  valid_idx (Paged.step srv w e) /\
  items_length (Paged.step srv w e) = items_length w.
Proof.
  intros Hvalid. unfold Paged.step.
  destruct e as [| |pick|i| |key]; cbn [Paged.handle].
  1-2,4: match goal with
       | |- context [modify (upd_state ?f)] =>
           destruct (Paged_step_set f w) as [Hn Hi]; [reflexivity|]
       end; split; [eapply valid_of_wrap; eassumption|exact Hn].
  - set (f := fun s : State =>
        set_btnPage 0 (set_idx 0
          (set_items (Paged.shuffle_from (length (items s) - 1) pick (items s)) s))).
    destruct (Paged_step_set f w) as [Hn Hi].
    { intros s. cbn. apply shuffle_from_length. }
    split; [eapply valid_of_wrap; eassumption|exact Hn].
  - now apply Paged_advancePage_valid.
  - destruct (String.eqb key "ArrowLeft");
      [|destruct (String.eqb key "ArrowRight");
        [|destruct (String.leb "1" key && String.leb key "9");
          [|destruct (String.eqb key "0");
            [now apply Paged_advancePage_valid|now split]]]].
    1-2: match goal with
       | |- context [modify (upd_state ?f)] =>
           destruct (Paged_step_set f w) as [Hn Hi]; [reflexivity|]
       end; split; [eapply valid_of_wrap; eassumption|exact Hn].
    rewrite Paged_digit_step.
    destruct (_ <? _); [|now split].
    match goal with
    | |- context [modify (upd_state ?f)] =>
        destruct (Paged_step_set f w) as [Hn Hi]; [reflexivity|]
    end; split; [eapply valid_of_wrap; eassumption|exact Hn].
Qed.

Lemma Flat_trace_valid es : forall w,
  valid_idx w ->
  Forall (fun w' => valid_idx w' /\ items_length w' = items_length w)
         (Flat.trace srv w es).
Proof.
  induction es as [|e es IH]; intros w Hvalid; cbn [Flat.trace]; [constructor|].
  destruct (Flat_step_valid w e Hvalid) as [Hv Hn].
  constructor; [now split|].
  eapply Forall_impl; [apply IH, Hv|].
  intros w' [Hv' Hn']. split; [exact Hv'|congruence].
Qed.

Lemma Paged_trace_valid es : forall w,
  valid_idx w ->
  Forall (fun w' => valid_idx w' /\ items_length w' = items_length w)
         (Paged.trace srv w es).
Proof.
  induction es as [|e es IH]; intros w Hvalid; cbn [Paged.trace]; [constructor|].
  destruct (Paged_step_valid w e Hvalid) as [Hv Hn].
  constructor; [now split|].
  eapply Forall_impl; [apply IH, Hv|].
  intros w' [Hv' Hn']. split; [exact Hv'|congruence].
Qed.

Lemma render_valid_Flat w : valid_idx (snd (Flat.render srv w)).
Proof.
  destruct (Flat_render_pager srv w) as (Hitems & _ & Hidx).
  apply (valid_of_wrap w _ (idx (state w))); [|exact Hidx].
  unfold items_length. now rewrite Hitems.
Qed.

Lemma render_valid_Paged w : valid_idx (snd (Paged.render srv w)).
Proof.
  destruct (Paged_render_pager srv w) as (Hitems & _ & Hidx).
  apply (valid_of_wrap w _ (idx (state w))); [|exact Hidx].
  unfold items_length. now rewrite Hitems.
Qed.

Lemma render_nothing_Flat w :
  items (state w) = [] -> Flat.render srv w = (inr tt, upd_state (set_idx 0) w).
Proof.
  intros Hnil. unfold Flat.render. unfold bind at 1. rewrite clampIdx_spec.
  unfold items_length, wrap. rewrite Hnil. cbn [length Z.of_nat Z.eqb].
  unfold bind, gets, at_index. cbn. now rewrite Hnil.
Qed.

Lemma render_nothing_Paged w :
  items (state w) = [] -> Paged.render srv w = (inr tt, upd_state (set_idx 0) w).
Proof.
  intros Hnil. unfold Paged.render. unfold bind at 1. rewrite clampIdx_spec.
  unfold items_length, wrap. rewrite Hnil. cbn [length Z.of_nat Z.eqb].
  unfold bind, gets, at_index. cbn. now rewrite Hnil.
Qed.

(** C1: from a valid state, after every event of either variant (previous,
    next, a jump by a numbered control or a digit key, and in the paged
    variant also page advance and shuffle) the index lies in [0, N), or is
    0 when there are no images, and N has not changed; a render leaves the
    index so from any state; with no images a render sets the index to 0 and
    does nothing else. *)
Theorem idx_stays_in_range :
  (forall w es, valid_idx w ->
     Forall (fun w' => valid_idx w' /\ items_length w' = items_length w)
            (Flat.trace srv w es)) /\
  (forall w es, valid_idx w ->
     Forall (fun w' => valid_idx w' /\ items_length w' = items_length w)
            (Paged.trace srv w es)) /\
  (forall w, valid_idx (snd (Flat.render srv w)) /\
             valid_idx (snd (Paged.render srv w))) /\
  (forall w, items (state w) = [] ->
     Flat.render srv w = (inr tt, upd_state (set_idx 0) w) /\
     Paged.render srv w = (inr tt, upd_state (set_idx 0) w)).
Proof.
  split; [intros w es; apply Flat_trace_valid|].
  split; [intros w es; apply Paged_trace_valid|].
  split; [intros w; split; [apply render_valid_Flat|apply render_valid_Paged]|].
  intros w Hnil. split; [now apply render_nothing_Flat|now apply render_nothing_Paged].
Qed.

End PagerTheorems.

Lemma wrap_succ n i : 0 <= i < n -> wrap n (i + 1) = (i + 1) mod n.
Proof.
  intros Hi. destruct (Z.eq_dec (i + 1) n) as [Heq|Hne].
  - rewrite Heq, Z.mod_same by lia. apply wrap_above; lia.
  - rewrite Z.mod_small by lia. apply wrap_inside. lia.
Qed.

Lemma wrap_pred n i : 0 <= i < n -> wrap n (i - 1) = (i - 1) mod n.
Proof.
  intros Hi. destruct (Z.eq_dec i 0) as [->|Hne].
  - rewrite wrap_below by lia. apply (Z.mod_unique_pos _ _ (-1)); lia.
  - rewrite Z.mod_small by lia. apply wrap_inside. lia.
Qed.

Lemma wrap_succ_pred n i : 0 <= i < n -> wrap n (wrap n (i + 1) - 1) = i.
Proof.
  intros Hi. destruct (Z.eq_dec (i + 1) n) as [Heq|Hne].
  - rewrite (wrap_above n (i + 1)) by lia. rewrite wrap_below; lia.
  - rewrite (wrap_inside n (i + 1)) by lia. rewrite wrap_inside; lia.
Qed.

Lemma wrap_pred_succ n i : 0 <= i < n -> wrap n (wrap n (i - 1) + 1) = i.
Proof.
  intros Hi. destruct (Z.eq_dec i 0) as [->|Hne].
  - rewrite (wrap_below n (0 - 1)) by lia. rewrite wrap_above; lia.
  - rewrite (wrap_inside n (i - 1)) by lia. rewrite wrap_inside; lia.
Qed.

Lemma digit_key_not_arrow key :
  String.leb "1" key && String.leb key "9" = true ->
  String.eqb key "ArrowLeft" = false /\ String.eqb key "ArrowRight" = false.
Proof.
  intros Hkey. split.
  - destruct (String.eqb_spec key "ArrowLeft") as [->|]; [discriminate|reflexivity].
  - destruct (String.eqb_spec key "ArrowRight") as [->|]; [discriminate|reflexivity].
Qed.

(** C2: from a valid index of a non-empty list, "next" moves to the index
    plus one modulo N and "previous" to the index minus one modulo N, in
    both variants, so either followed by the other returns to the index
    started from; the arrow keys do what the two buttons do. *)
Theorem next_previous_inverse
    {number : Type} `{JsNumber number} (srv : Server number) (w : World) :
  0 <= idx (state w) < items_length w ->
  (idx (state (Flat.step srv w Flat.ClickNext)) =
     (idx (state w) + 1) mod items_length w /\
   idx (state (Flat.step srv w Flat.ClickPrev)) =
     (idx (state w) - 1) mod items_length w /\
   idx (state (Flat.step srv (Flat.step srv w Flat.ClickNext) Flat.ClickPrev)) =
     idx (state w) /\
   idx (state (Flat.step srv (Flat.step srv w Flat.ClickPrev) Flat.ClickNext)) =
     idx (state w)) /\
  (idx (state (Paged.step srv w Paged.ClickNext)) =
     (idx (state w) + 1) mod items_length w /\
   idx (state (Paged.step srv w Paged.ClickPrev)) =
     (idx (state w) - 1) mod items_length w /\
   idx (state (Paged.step srv (Paged.step srv w Paged.ClickNext) Paged.ClickPrev)) =
     idx (state w) /\
   idx (state (Paged.step srv (Paged.step srv w Paged.ClickPrev) Paged.ClickNext)) =
     idx (state w)) /\
  Flat.step srv w (Flat.KeyDown "ArrowRight") = Flat.step srv w Flat.ClickNext /\
  Flat.step srv w (Flat.KeyDown "ArrowLeft") = Flat.step srv w Flat.ClickPrev /\
  Paged.step srv w (Paged.KeyDown "ArrowRight") = Paged.step srv w Paged.ClickNext /\
  Paged.step srv w (Paged.KeyDown "ArrowLeft") = Paged.step srv w Paged.ClickPrev.
Proof.
  intros Hi.
  assert (Hflat : forall w0 : World,
    (items_length (Flat.step srv w0 Flat.ClickNext) = items_length w0 /\
     idx (state (Flat.step srv w0 Flat.ClickNext)) =
       wrap (items_length w0) (idx (state w0) + 1)) /\
    (items_length (Flat.step srv w0 Flat.ClickPrev) = items_length w0 /\
     idx (state (Flat.step srv w0 Flat.ClickPrev)) =
       wrap (items_length w0) (idx (state w0) - 1))).
  { intros w0. split.
    - apply (Flat_step_set srv (fun s => set_idx (idx s + 1) s) w0); reflexivity.
    - apply (Flat_step_set srv (fun s => set_idx (idx s - 1) s) w0); reflexivity. }
  assert (Hpaged : forall w0 : World,
    (items_length (Paged.step srv w0 Paged.ClickNext) = items_length w0 /\
     idx (state (Paged.step srv w0 Paged.ClickNext)) =
       wrap (items_length w0) (idx (state w0) + 1)) /\
    (items_length (Paged.step srv w0 Paged.ClickPrev) = items_length w0 /\
     idx (state (Paged.step srv w0 Paged.ClickPrev)) =
       wrap (items_length w0) (idx (state w0) - 1))).
  { intros w0. split.
    - apply (Paged_step_set srv (fun s => set_idx (idx s + 1) s) w0); reflexivity.
    - apply (Paged_step_set srv (fun s => set_idx (idx s - 1) s) w0); reflexivity. }
  split; [|split; [|repeat split; reflexivity]].
  - destruct (Hflat w) as [[Hn1 Hi1] [Hn2 Hi2]].
    destruct (Hflat (Flat.step srv w Flat.ClickNext)) as [_ [_ Hback]].
    destruct (Hflat (Flat.step srv w Flat.ClickPrev)) as [[_ Hforth] _].
    rewrite Hn1, Hi1 in Hback. rewrite Hn2, Hi2 in Hforth.
    rewrite Hback, Hforth, Hi1, Hi2.
    rewrite wrap_succ_pred, wrap_pred_succ, wrap_succ, wrap_pred by exact Hi.
    now repeat split.
  - destruct (Hpaged w) as [[Hn1 Hi1] [Hn2 Hi2]].
    destruct (Hpaged (Paged.step srv w Paged.ClickNext)) as [_ [_ Hback]].
    destruct (Hpaged (Paged.step srv w Paged.ClickPrev)) as [[_ Hforth] _].
    rewrite Hn1, Hi1 in Hback. rewrite Hn2, Hi2 in Hforth.
    rewrite Hback, Hforth, Hi1, Hi2.
    rewrite wrap_succ_pred, wrap_pred_succ, wrap_succ, wrap_pred by exact Hi.
    now repeat split.
Qed.

(** C3, as the code has it: a click on a numbered control made for target
    [t] sets the index to [t] and clamps it: with N > 0 a target below 0
    gives N - 1, a target at or above N gives 0, any other target stays;
    with N = 0 the index is 0. A digit key "1" to "9" of the paged variant
    has the target [btnPage * 9 + digit - 1] and jumps in the same way only
    when that target is below N; otherwise the key is ignored and nothing
    changes. The flat variant ignores digit keys. *)
Theorem jump_sets_and_clamps
    {number : Type} `{JsNumber number} (srv : Server number) (w : World) :
  (forall t, idx (state (Flat.step srv w (Flat.ClickNum t))) =
             wrap (items_length w) t) /\
  (forall t, idx (state (Paged.step srv w (Paged.ClickNum t))) =
             wrap (items_length w) t) /\
  (forall key,
      String.leb "1" key && String.leb key "9" = true ->
      let t := btnPage (state w) * 9 + (Paged.parseInt key - 1) in
      (t < items_length w ->
       idx (state (Paged.step srv w (Paged.KeyDown key))) =
       wrap (items_length w) t) /\
      (items_length w <= t -> Paged.step srv w (Paged.KeyDown key) = w) /\
      Flat.step srv w (Flat.KeyDown key) = w) /\
  (forall n t, 0 < n ->
      (t < 0 -> wrap n t = n - 1) /\
      (n <= t -> wrap n t = 0) /\
      (0 <= t < n -> wrap n t = t)) /\
  (forall t, wrap 0 t = 0).
Proof.
  split; [|split; [|split; [|split]]].
  - intros t. apply (Flat_step_set srv (set_idx t) w); reflexivity.
  - intros t. apply (Paged_step_set srv (set_idx t) w); reflexivity.
  - intros key Hkey t.
    destruct (digit_key_not_arrow key Hkey) as [Hleft Hright].
    unfold Flat.step, Paged.step. cbn [Flat.handle Paged.handle].
    rewrite Hleft, Hright, Hkey.
    rewrite (Paged_digit_step srv w (Paged.parseInt key - 1)). fold t.
    split; [|split; [|reflexivity]].
    + intros Hlt. assert ((t <? items_length w) = true) as -> by lia.
      apply (Paged_step_set srv (set_idx t) w); reflexivity.
    + intros Hge. now assert ((t <? items_length w) = false) as -> by lia.
  - intros n t Hn. split; [|split].
    + now apply wrap_below.
    + now apply wrap_above.
    + apply wrap_inside.
  - reflexivity.
Qed.

(** C3, counterexample to the claim as stated: with three images, index 1
    and button page 0, the digit key "9" has target 8, at or above N; the
    clamp rule would give index 0, but the key is ignored and the index
    stays 1. *)
Lemma digit_key_past_end_is_ignored :
  items_length sample_world = 3 /\
  idx (state sample_world) = 1 /\
  btnPage (state sample_world) * 9 + (Paged.parseInt "9" - 1) = 8 /\
  wrap 3 8 = 0 /\
  idx (state (Paged.step sample_server sample_world (Paged.KeyDown "9"))) = 1.
Proof. vm_compute. repeat split. Qed.

(** ** The descriptor cache *)

Section FlightFacts.
Context {number : Type} `{JsNumber number}.
Variable dir : string.









End FlightFacts.



(** ** Start-up *)

Lemma bind_inr {A B} (c : M A) (k : A -> M B) w a w' :
  c w = (inr a, w') -> bind c k w = k a w'.
Proof. intros Hc. unfold bind. now rewrite Hc. Qed.

Lemma bind_inl {A B} (c : M A) (k : A -> M B) w e w' :
  c w = (inl e, w') -> bind c k w = (inl e, w').
Proof. intros Hc. unfold bind. now rewrite Hc. Qed.

Lemma fetchJson_outcome {A} path (r : response A) w :
  fetchJson path r w = (outcome path r, add_request path w).
Proof. unfold fetchJson, bind, request, modify. apply respond_outcome. Qed.

Lemma valid_spec x :
  valid x = true <->
  exists p s, image_path x = Some p /\ p <> "" /\ species x = Some s /\ s <> "".
Proof.
  unfold valid, truthy. rewrite andb_true_iff. split.
  - intros [Hp Hs].
    destruct (image_path x) as [p|]; [|discriminate].
    destruct (species x) as [sp|]; [|discriminate].
    exists p, sp. repeat split; [now destruct p|now destruct sp].
  - intros (p & sp & -> & Hp & -> & Hs). split; [now destruct p|now destruct sp].
Qed.

(** C9: when the fetch of either manifest fails (a status that is not ok,
    a body that is not JSON, or no response at all) the error [fetchJson]
    throws leaves [main], and the script's [catch] logs it and writes
    "Error: " and its message into the meta area; nothing is rendered.
    When both manifests load, [main] keeps exactly the entries whose
    [image_path] and [species] are both non-empty, in order, and ends
    without an error. (Flat variant.) *)
Theorem manifest_failure_stops_startup
    {number : Type} `{JsNumber number} (srv : Server number) (w : World) :
  (forall A path (r : response A) w0,
      fetchJson path r w0 = (outcome path r, add_request path w0)) /\
  (forall A path (r : response A),
      failed r = true <-> exists e, outcome path r = inl e) /\
  (forall A path status (body : error + A),
      ok status = false ->
      outcome path (Response status body) =
      inl {| err_name := "Error";
             message := "Failed to fetch " +:+ path +:+ ": " +:+ pretty status |}) /\
  (forall e,
      outcome "data/images_index.json" (images_index srv) = inl e ->
      let w1 := add_request "data/images_index.json" w in
      Flat.main srv w = (inl e, w1) /\
      run_main (Flat.main srv) w =
      upd_dom (set_meta ("Error: " +:+ message e)) (console_log (ErrorLog e) w1)) /\
  (forall raw e,
      outcome "data/images_index.json" (images_index srv) = inr raw ->
      outcome "data/class_to_species.json" (class_to_species srv) = inl e ->
      let w2 := add_request "data/class_to_species.json"
                  (upd_state (set_items raw)
                     (add_request "data/images_index.json" w)) in
      Flat.main srv w = (inl e, w2) /\
      run_main (Flat.main srv) w =
      upd_dom (set_meta ("Error: " +:+ message e)) (console_log (ErrorLog e) w2)) /\
  (forall raw classes,
      outcome "data/images_index.json" (images_index srv) = inr raw ->
      outcome "data/class_to_species.json" (class_to_species srv) = inr classes ->
      exists w',
        Flat.main srv w = (inr tt, w') /\
        run_main (Flat.main srv) w = w' /\
        items (state w') = List.filter valid raw /\
        classToSpecies (state w') = classes /\
        forall x,
          x ∈ items (state w') <->
          x ∈ raw /\
          exists p s, image_path x = Some p /\ p <> "" /\
                      species x = Some s /\ s <> "").
Proof.
  split; [intros A path r w0; apply fetchJson_outcome|].
  split; [intros A path r; apply failed_outcome|].
  split; [intros A path status body Hok; unfold outcome; now rewrite Hok|].
  split; [|split].
  - intros e He w1.
    assert (Hmain : Flat.main srv w = (inl e, w1)).
    { unfold Flat.main. apply bind_inl.
      change (Flat.DATA_DIR +:+ "/images_index.json") with "data/images_index.json".
      now rewrite fetchJson_outcome, He. }
    split; [exact Hmain|]. unfold run_main. now rewrite Hmain.
  - intros raw e Hraw He w2.
    assert (Hmain : Flat.main srv w = (inl e, w2)).
    { unfold Flat.main.
      change (Flat.DATA_DIR +:+ "/images_index.json") with "data/images_index.json".
      change (Flat.DATA_DIR +:+ "/class_to_species.json")
        with "data/class_to_species.json".
      erewrite bind_inr by (rewrite fetchJson_outcome, Hraw; reflexivity).
      erewrite bind_inr by reflexivity.
      apply bind_inl. now rewrite fetchJson_outcome, He. }
    split; [exact Hmain|]. unfold run_main. now rewrite Hmain.
  - intros raw classes Hraw Hclasses.
    set (w3 := upd_state (fun s => set_items (List.filter valid (items s)) s)
                 (upd_state (set_classToSpecies classes)
                    (add_request "data/class_to_species.json"
                       (upd_state (set_items raw)
                          (add_request "data/images_index.json" w))))).
    assert (Hmain : Flat.main srv w = Flat.render srv w3).
    { unfold Flat.main.
      change (Flat.DATA_DIR +:+ "/images_index.json") with "data/images_index.json".
      change (Flat.DATA_DIR +:+ "/class_to_species.json")
        with "data/class_to_species.json".
      erewrite bind_inr by (rewrite fetchJson_outcome, Hraw; reflexivity).
      erewrite bind_inr by reflexivity.
      erewrite bind_inr by (rewrite fetchJson_outcome, Hclasses; reflexivity).
      erewrite bind_inr by reflexivity.
      erewrite bind_inr by reflexivity. reflexivity. }
    destruct (Flat_render_returns srv w3) as [[] Hret].
    destruct (Flat_render_pager srv w3) as (Hitems & Hcts & _).
    destruct (Flat.render srv w3) as [r w'] eqn:Hrender.
    cbn [fst snd] in *. subst r.
    exists w'. split; [exact Hmain|]. split; [unfold run_main; now rewrite Hmain|].
    split; [exact Hitems|]. split; [exact Hcts|].
    intros x. rewrite Hitems. cbn.
    rewrite !list_elem_of_In, filter_In, valid_spec. reflexivity.
Qed.

(** ** Descriptors of the rest of the class (paged variant) *)

Section ClassOnlyTheorem.
Context {number : Type} `{JsNumber number}.
Variable srv : Server number.

(** C8, as the code has it: for an entry whose [class_name] is a non-empty
    string that is a key of the class map, [renderDescriptors] shows as the
    species' list its own descriptors and as the class list the union,
    without duplicates, of the descriptor lists of the other species of the
    class, less the descriptors of the species itself. *)
Theorem class_only_descriptors (w : World) (item : entry) (c : string) (members : list string) :
  class_name item = Some c -> c <> "" ->
  classToSpecies (state w) !! c = Some members ->
  exists w',
    Paged.renderDescriptors srv item w = (inr tt, w') /\
    speciesList (dom w') =
      Paged.renderList (loaded Paged.DESCRIPTOR_DIR srv w (species item)) /\
    classList (dom w') =
      Paged.renderList (class_only Paged.DESCRIPTOR_DIR srv w item members).
Proof.
  intros Hcls Hc Hmem.
  unfold Paged.renderDescriptors. rewrite Hcls.
  erewrite bind_inr by reflexivity. cbv beta.
  assert (Str.truthy c = true) as -> by (now destruct c).
  unfold Paged.lookup_class. rewrite Hmem.
  erewrite bind_inr by reflexivity.
  set (others := List.filter _ members).
  destruct (load_run Paged.DESCRIPTOR_DIR srv (species item) w)
    as (w1 & Hload & Hpage1 & Hother).
  erewrite bind_inr by exact Hload.
  set (own := loaded Paged.DESCRIPTOR_DIR srv w (species item)).
  assert (Hsame : map (loaded Paged.DESCRIPTOR_DIR srv w1) (map Some others) =
                  map (fun s => loaded Paged.DESCRIPTOR_DIR srv w (Some s)) others).
  { rewrite map_map. apply map_ext_in. intros s Hs.
    apply filter_In in Hs. destruct Hs as [_ Hs].
    apply negb_true_iff, bool_decide_eq_false in Hs.
    rewrite !loaded_spec. now rewrite Hother. }
  destruct (Z.of_nat (length others) >? 0) eqn:Hlen.
  - destruct (Promise_all_load_spec Paged.DESCRIPTOR_DIR srv (map Some others) w1)
      as (w2 & Hall & Hpage2 & _).
    erewrite bind_inr; cycle 1.
    { erewrite bind_inr by exact Hall. reflexivity. }
    rewrite Hsame. eexists. split; [reflexivity|].
    cbn [bind modify upd_dom dom set_classList set_speciesList speciesList classList snd].
    split; reflexivity.
  - erewrite bind_inr by reflexivity.
    eexists. split; [reflexivity|].
    cbn [bind modify upd_dom dom set_classList set_speciesList speciesList classList snd].
    split; [reflexivity|].
    unfold class_only. fold others. fold own.
    destruct others as [|o os]; [reflexivity|]. exfalso.
    rewrite Z.gtb_ltb in Hlen. apply Z.ltb_ge in Hlen.
    rewrite length_cons in Hlen. lia.
Qed.

End ClassOnlyTheorem.

(** C8, counterexample to the claim as stated: the class named by the empty
    string is a key of the class map, and species c of that class has the
    descriptor "y" that species a lacks; yet after start-up, where the
    current entry is of species a with that class, the class list is
    rendered empty, because an empty [class_name] is falsy. *)
Lemma empty_class_name_shows_no_siblings :
  at_index (items (state empty_class_world)) (idx (state empty_class_world)) =
  Some (sample_entry "a" (Some "")) /\
  class_name (sample_entry "a" (Some "")) = Some "" /\
  classToSpecies (state empty_class_world) !! "" = Some ["a"; "c"] /\
  class_only Paged.DESCRIPTOR_DIR empty_class_server empty_class_world
    (sample_entry "a" (Some "")) ["a"; "c"] = ["y"] /\
  classList (dom empty_class_world) = Paged.renderList [] /\
  Paged.renderList ["y"] <> Paged.renderList [].
Proof. vm_compute. repeat split. discriminate. Qed.

(** ** Descriptor lists once normalised *)

Lemma ToString_strings {number : Type} `{JsNumber number} (l : list string) :
  map ToString (map (JStr (number := number)) l) = l.
Proof. induction l as [|s l IH]; [reflexivity|]. cbn. now rewrite IH. Qed.

(** X1: [normalizeDescriptorList] leaves a plain list of strings as it is,
    so normalising its own output again gives the same list. *)
Theorem normalizeDescriptorList_idempotent
    {number : Type} `{JsNumber number} :
  (forall l : list string,
      normalizeDescriptorList (JArr (map (JStr (number := number)) l)) = l) /\
  (forall obj : json number,
      normalizeDescriptorList (JArr (map JStr (normalizeDescriptorList obj))) =
      normalizeDescriptorList obj).
Proof.
  split.
  - intros l. apply ToString_strings.
  - intros obj. apply ToString_strings.
Qed.

Lemma strip_leading_none fuel cs s :
  Str.strip_one cs s = None -> Str.strip_leading fuel cs s = s.
Proof. intros Hnone. destruct fuel; [reflexivity|]. cbn. now rewrite Hnone. Qed.

Lemma trim_fixed t :
  (forall c r, c ∈ Str.white_space -> t <> c +:+ r /\ t <> r +:+ c) ->
  Str.trim t = t.
Proof.
  intros Hclean.
  assert (Hstart : Str.trimStart t = t).
  { apply strip_leading_none.
    destruct (Str.strip_one Str.white_space t) as [r|] eqn:Hone; [|reflexivity].
    destruct (strip_one_some _ _ _ Hone) as (c & Hc & Ht).
    now destruct (proj1 (Hclean c r Hc)). }
  unfold Str.trim. rewrite Hstart. unfold Str.trimEnd.
  rewrite strip_leading_none; [apply rev_involutive|].
  destruct (Str.strip_one _ (String.rev t)) as [r|] eqn:Hone; [|reflexivity].
  destruct (strip_one_some _ _ _ Hone) as (c' & Hc' & Ht).
  apply list_elem_of_In, in_map_iff in Hc'. destruct Hc' as (c & Hcc & Hc).
  apply list_elem_of_In in Hc.
  destruct (proj2 (Hclean c (String.rev r) Hc)).
  rewrite <- (rev_involutive t), Ht, rev_append, <- Hcc. now rewrite rev_involutive.
Qed.

Lemma trim_idempotent s : Str.trim (Str.trim s) = Str.trim s.
Proof.
  destruct (trim_spec s) as (pre & suf & _ & _ & _ & Hclean). now apply trim_fixed.
Qed.

Lemma fold_Set_add_NoDup_id l : forall acc,
  NoDup (acc ++ l) -> fold_left Set_add l acc = acc ++ l.
Proof.
  induction l as [|x l IH]; intros acc Hnd; cbn [fold_left].
  - now rewrite app_nil_r.
  - assert (Hx : x ∉ acc).
    { apply NoDup_app in Hnd. destruct Hnd as (_ & Hdisj & _).
      intros Hin. apply (Hdisj x Hin). constructor. }
    unfold Set_add. rewrite bool_decide_eq_false_2 by exact Hx.
    rewrite IH; rewrite <- app_assoc; [reflexivity|exact Hnd].
Qed.

Lemma uniq_NoDup_id l : NoDup l -> uniq l = l.
Proof. intros Hnd. unfold uniq. now rewrite fold_Set_add_NoDup_id. Qed.

Lemma tidy_normal data : normal (tidy data).
Proof.
  split.
  - unfold tidy, uniq. apply fold_Set_add_NoDup. constructor.
  - apply Forall_forall. intros d Hd. apply tidy_elem in Hd.
    destruct Hd as (Hne & s & _ & ->). split; [exact Hne|apply trim_idempotent].
Qed.

Lemma tidy_of_normal v : normal v -> tidy v = v.
Proof.
  intros [Hnd Hall]. unfold tidy.
  assert (Hmap : map Str.trim v = v).
  { clear Hnd. induction Hall as [|d v [_ Hd] _ IH]; [reflexivity|].
    cbn. now rewrite Hd, IH. }
  assert (Hfilter : List.filter Str.truthy v = v).
  { clear Hnd Hmap. induction Hall as [|d v [Hd _] _ IH]; [reflexivity|].
    cbn. destruct d; [now destruct Hd|]. cbn. now rewrite IH. }
  rewrite Hmap, Hfilter. now apply uniq_NoDup_id.
Qed.

(** X2: the list the loader stores has no duplicate, no empty string and
    no string with white space around it; the post-processing leaves exactly
    such lists unchanged, so applying it twice is applying it once. *)
Theorem tidy_idempotent :
  (forall data, normal (tidy data)) /\
  (forall v, normal v <-> tidy v = v) /\
  (forall data, tidy (tidy data) = tidy data).
Proof.
  split; [exact tidy_normal|]. split.
  - intros v. split; [apply tidy_of_normal|].
    intros <-. apply tidy_normal.
  - intros data. apply tidy_of_normal, tidy_normal.
Qed.

(** ** Column labels: shape *)
Lemma capitals_app s t : capitals s -> capitals t -> capitals (s +:+ t).
Proof.
  unfold capitals. induction s as [|c s IH]; intros Hs Ht; [exact Ht|].
  rewrite append_cons. cbn [list_ascii_of_string] in *.
  inversion Hs; subst. constructor; auto.
Qed.

Lemma capitals_fromCharCode r : 0 <= r < 26 -> capitals (Str.fromCharCode (65 + r)).
Proof.
  intros Hr. unfold capitals, Str.fromCharCode. cbn [list_ascii_of_string].
  constructor; [|constructor]. rewrite N_ascii_embedding; lia.
Qed.

Lemma toColLabel_loop_capitals fuel : forall n s,
  capitals s -> capitals (toColLabel_loop fuel n s).
Proof.
  induction fuel as [|fuel IH]; intros n s Hs; [exact Hs|].
  cbn [toColLabel_loop]. destruct (Z.ltb_spec 0 n) as [Hn|Hn]; [|exact Hs].
  cbv zeta. apply IH.
  apply capitals_app; [|exact Hs]. apply capitals_fromCharCode.
  destruct (quotient_halves n Hn) as (Ha & _).
  rewrite Z.rem_mod_nonneg by lia. apply Z.mod_pos_bound. lia.
Qed.

Lemma toColLabel_loop_nonpos fuel n s : n <= 0 -> toColLabel_loop fuel n s = s.
Proof.
  intros Hn. destruct fuel as [|fuel]; [reflexivity|].
  cbn [toColLabel_loop]. destruct (Z.ltb_spec 0 n); [lia|reflexivity].
Qed.

(** X3: [toColLabel] gives capital letters only; for [0 <= n < 2^53], where
    the arithmetic of the code is exact, the label is not empty and reads,
    in bijective base 26, as [n + 1], and it is the label of [n / 26 - 1]
    followed by the letter of [n mod 26]; a negative argument gives the
    empty label. *)
Theorem toColLabel_shape :
  (forall n, capitals (toColLabel n)) /\
  (forall n, 0 <= n < 2 ^ 53 ->
     toColLabel n <> "" /\ label_value 0 (toColLabel n) = n + 1) /\
  (forall n, n < 0 -> toColLabel n = "") /\
  (forall n, 0 <= n < 2 ^ 53 ->
     toColLabel n =
     toColLabel (n / 26 - 1) +:+ Str.fromCharCode (65 + n mod 26)).
Proof.
  split; [|split; [|split]].
  - intros n. apply toColLabel_loop_capitals. constructor.
  - intros n Hn. pose proof (toColLabel_value n Hn) as Hv.
    split; [|exact Hv]. intros Hempty. rewrite Hempty in Hv. cbn in Hv. lia.
  - intros n Hn. apply toColLabel_loop_nonpos.
    apply floor_nearest_nonpos; lia.
  - intros n Hn.
    assert (Hq : 0 <= n / 26 <= n).
    { split; [apply Z.div_pos; lia|]. apply Z.div_le_upper_bound; lia. }
    unfold toColLabel. cbv zeta. rewrite add_one_exact by exact Hn.
    assert (Hprev : Double.add (n / 26 - 1) 1 = n / 26).
    { unfold Double.add. rewrite round_exact by lia. lia. }
    rewrite Hprev.
    rewrite toColLabel_loop_exact by (lia || apply toColLabel_enough).
    replace (n + 1 - 1) with n by lia.
    rewrite toColLabel_loop_app, append_nil_r. f_equal.
    apply toColLabel_loop_stable; [|apply toColLabel_enough].
    right. apply Z.le_lt_trans with (Z.log2 (n + 1)).
    + apply Z.log2_le_mono. lia.
    + pose proof (Z.log2_nonneg (n + 1)). lia.
Qed.

(** ** Class lookup by search (paged variant) *)

Lemma findClassForSpecies_some entries species cls :
  Paged.findClassForSpecies entries species = Some cls ->
  exists members, (cls, members) ∈ entries /\ species ∈ members.
Proof.
  induction entries as [|[c members] entries IH]; cbn [Paged.findClassForSpecies];
    [discriminate|].
  case_bool_decide as Hin.
  - intros [= <-]. exists members. split; [constructor|exact Hin].
  - intros Hfind. destruct (IH Hfind) as (ms & Hms & Hsp).
    exists ms. split; [now constructor|exact Hsp].
Qed.

Lemma findClassForSpecies_none entries species :
  Paged.findClassForSpecies entries species = None <->
  forall cls members, (cls, members) ∈ entries -> species ∉ members.
Proof.
  induction entries as [|[c ms] entries IH]; cbn [Paged.findClassForSpecies].
  - split; [|reflexivity]. intros _ cls members Hin. inversion Hin.
  - case_bool_decide as Hin.
    + split; [discriminate|]. intros Hall. destruct (Hall c ms); [constructor|exact Hin].
    + rewrite IH. split.
      * intros Hall cls members Hcm. apply elem_of_cons in Hcm.
        destruct Hcm as [[= -> ->]|Hcm]; [exact Hin|now apply (Hall cls)].
      * intros Hall cls members Hcm. apply (Hall cls). now constructor.
Qed.

Lemma findClassForSpecies_first pre cls members post species :
  species ∈ members ->
  (forall c ms, (c, ms) ∈ pre -> species ∉ ms) ->
  Paged.findClassForSpecies (pre ++ (cls, members) :: post) species = Some cls.
Proof.
  intros Hin. induction pre as [|[c ms] pre IH]; intros Hpre;
    cbn [app Paged.findClassForSpecies].
  - now rewrite bool_decide_eq_true_2.
  - rewrite bool_decide_eq_false_2 by (apply (Hpre c); constructor).
    apply IH. intros c' ms' Hc'. apply (Hpre c'). now constructor.
Qed.

(** X4: [findClassForSpecies], over the entries of the class map in any
    order, returns a class whose list holds the species, returns null
    exactly when no class lists the species, and returns the first such
    class of the order it is given. *)
Theorem findClassForSpecies_finds
    (m : gmap string (list string)) (entries : list (string * list string))
    (species : string) :
  entries ≡ₚ map_to_list m ->
  (forall cls,
      Paged.findClassForSpecies entries species = Some cls ->
      exists members, m !! cls = Some members /\ species ∈ members) /\
  (Paged.findClassForSpecies entries species = None <->
   forall cls members, m !! cls = Some members -> species ∉ members) /\
  (forall pre cls members post,
      entries = pre ++ (cls, members) :: post ->
      species ∈ members ->
      (forall c ms, (c, ms) ∈ pre -> species ∉ ms) ->
      Paged.findClassForSpecies entries species = Some cls).
Proof.
  intros Hperm.
  assert (Hin : forall cls members,
             (cls, members) ∈ entries <-> m !! cls = Some members).
  { intros cls members. rewrite Hperm. apply elem_of_map_to_list. }
  split; [|split].
  - intros cls Hfind. destruct (findClassForSpecies_some _ _ _ Hfind) as (ms & Hms & Hsp).
    exists ms. split; [now apply Hin|exact Hsp].
  - rewrite findClassForSpecies_none. split.
    + intros Hall cls members Hm. apply (Hall cls). now apply Hin.
    + intros Hall cls members Hm. apply (Hall cls). now apply Hin.
  - intros pre cls members post -> Hsp Hpre. now apply findClassForSpecies_first.
Qed.

(** ** The pager: repeated moves *)

Lemma wrap_idempotent n i : 0 <= n -> wrap n (wrap n i) = wrap n i.
Proof.
  intros Hn. destruct (wrap_valid n i Hn) as [[-> _]|Hin]; [reflexivity|].
  now apply wrap_inside.
Qed.

Section Iterate.
Context {number : Type} `{JsNumber number}.
Variable srv : Server number.

Lemma Flat_next_spec w :
  items_length (Flat.step srv w Flat.ClickNext) = items_length w /\
  idx (state (Flat.step srv w Flat.ClickNext)) =
  wrap (items_length w) (idx (state w) + 1).
Proof. apply (Flat_step_set srv (fun s => set_idx (idx s + 1) s) w); reflexivity. Qed.

Lemma Flat_prev_spec w :
  items_length (Flat.step srv w Flat.ClickPrev) = items_length w /\
  idx (state (Flat.step srv w Flat.ClickPrev)) =
  wrap (items_length w) (idx (state w) - 1).
Proof. apply (Flat_step_set srv (fun s => set_idx (idx s - 1) s) w); reflexivity. Qed.

Lemma Paged_next_spec w :
  items_length (Paged.step srv w Paged.ClickNext) = items_length w /\
  idx (state (Paged.step srv w Paged.ClickNext)) =
  wrap (items_length w) (idx (state w) + 1).
Proof. apply (Paged_step_set srv (fun s => set_idx (idx s + 1) s) w); reflexivity. Qed.

Lemma Paged_prev_spec w :
  items_length (Paged.step srv w Paged.ClickPrev) = items_length w /\
  idx (state (Paged.step srv w Paged.ClickPrev)) =
  wrap (items_length w) (idx (state w) - 1).
Proof. apply (Paged_step_set srv (fun s => set_idx (idx s - 1) s) w); reflexivity. Qed.

(** Repeating an event that moves the index by [d] modulo the count. *)
Lemma repeat_moves {event : Type} (step : World -> event -> World) (e : event) (d : Z) :
  (forall w, items_length (step w e) = items_length w /\
             idx (state (step w e)) = wrap (items_length w) (idx (state w) + d)) ->
  (forall n i, 0 <= i < n -> wrap n (i + d) = (i + d) mod n) ->
  forall k w,
    0 <= idx (state w) < items_length w ->
    items_length (fold_left step (repeat e k) w) = items_length w /\
    idx (state (fold_left step (repeat e k) w)) =
    (idx (state w) + Z.of_nat k * d) mod items_length w.
Proof.
  intros Hstep Hwrap. induction k as [|k IH]; intros w Hi; cbn [repeat fold_left].
  - split; [reflexivity|]. rewrite Z.mul_0_l, Z.add_0_r, Z.mod_small; lia.
  - destruct (Hstep w) as [Hn Hidx]. rewrite Hwrap in Hidx by exact Hi.
    destruct (IH (step w e)) as [Hn' Hidx'].
    { rewrite Hn, Hidx. apply Z.mod_pos_bound. lia. }
    rewrite Hn', Hidx', Hn, Hidx. split; [reflexivity|].
    rewrite Zplus_mod_idemp_l. f_equal. lia.
Qed.

(** X5: from a valid index, [k] clicks on "next" move the index to
    [(idx + k) mod N] and [k] clicks on "previous" to [(idx - k) mod N], in
    both variants; N clicks on either return to the index started from. *)
Theorem next_and_previous_repeated (w : World) (k : nat) :
  0 <= idx (state w) < items_length w ->
  idx (state (fold_left (Flat.step srv) (repeat Flat.ClickNext k) w)) =
    (idx (state w) + Z.of_nat k) mod items_length w /\
  idx (state (fold_left (Flat.step srv) (repeat Flat.ClickPrev k) w)) =
    (idx (state w) - Z.of_nat k) mod items_length w /\
  idx (state (fold_left (Paged.step srv) (repeat Paged.ClickNext k) w)) =
    (idx (state w) + Z.of_nat k) mod items_length w /\
  idx (state (fold_left (Paged.step srv) (repeat Paged.ClickPrev k) w)) =
    (idx (state w) - Z.of_nat k) mod items_length w /\
  (Z.of_nat k = items_length w ->
   idx (state (fold_left (Flat.step srv) (repeat Flat.ClickNext k) w)) = idx (state w) /\
   idx (state (fold_left (Flat.step srv) (repeat Flat.ClickPrev k) w)) = idx (state w) /\
   idx (state (fold_left (Paged.step srv) (repeat Paged.ClickNext k) w)) = idx (state w) /\
   idx (state (fold_left (Paged.step srv) (repeat Paged.ClickPrev k) w)) = idx (state w)).
Proof.
  intros Hi.
  assert (Hsucc : forall n i, 0 <= i < n -> wrap n (i + 1) = (i + 1) mod n)
    by (intros; now apply wrap_succ).
  assert (Hpred : forall n i, 0 <= i < n -> wrap n (i + -1) = (i + -1) mod n)
    by (intros n i Hni; replace (i + -1) with (i - 1) by lia; now apply wrap_pred).
  assert (Hfp : forall w0,
             items_length (Flat.step srv w0 Flat.ClickPrev) = items_length w0 /\
             idx (state (Flat.step srv w0 Flat.ClickPrev)) =
             wrap (items_length w0) (idx (state w0) + -1)).
  { intros w0. destruct (Flat_prev_spec w0) as [Hn Hx]. split; [exact Hn|].
    rewrite Hx. f_equal. }
  assert (Hpp : forall w0,
             items_length (Paged.step srv w0 Paged.ClickPrev) = items_length w0 /\
             idx (state (Paged.step srv w0 Paged.ClickPrev)) =
             wrap (items_length w0) (idx (state w0) + -1)).
  { intros w0. destruct (Paged_prev_spec w0) as [Hn Hx]. split; [exact Hn|].
    rewrite Hx. f_equal. }
  destruct (repeat_moves (Flat.step srv) Flat.ClickNext 1 Flat_next_spec Hsucc k w Hi)
    as [_ H1].
  destruct (repeat_moves (Flat.step srv) Flat.ClickPrev (-1) Hfp Hpred k w Hi)
    as [_ H2].
  destruct (repeat_moves (Paged.step srv) Paged.ClickNext 1 Paged_next_spec Hsucc k w Hi)
    as [_ H3].
  destruct (repeat_moves (Paged.step srv) Paged.ClickPrev (-1) Hpp Hpred k w Hi)
    as [_ H4].
  rewrite H1, H2, H3, H4.
  replace (Z.of_nat k * 1) with (Z.of_nat k) by lia.
  replace (idx (state w) + Z.of_nat k * -1) with (idx (state w) - Z.of_nat k) by lia.
  do 4 (split; [reflexivity|]). intros Hk. rewrite Hk.
  replace (idx (state w) + items_length w)
    with (idx (state w) + 1 * items_length w) by lia.
  replace (idx (state w) - items_length w)
    with (idx (state w) + (-1) * items_length w) by lia.
  rewrite !Z.mod_add by lia. rewrite Z.mod_small by exact Hi. now repeat split.
Qed.

End Iterate.

(** ** Shuffle *)

Lemma insert_swap_head {A} (l : list A) j aj x :
  l !! j = Some aj -> aj :: <[j := x]> l ≡ₚ x :: l.
Proof.
  revert j. induction l as [|y l IH]; intros [|j] Hj; try discriminate.
  - cbn in Hj. injection Hj as ->. cbn. apply perm_swap.
  - cbn in Hj. cbn. rewrite (perm_swap y aj). rewrite (IH j Hj). apply perm_swap.
Qed.

Lemma swap_Permutation {A} (a : list A) i j : Paged.swap a i j ≡ₚ a.
Proof.
  unfold Paged.swap.
  destruct (a !! j) as [aj|] eqn:Hj; [|reflexivity].
  destruct (a !! i) as [ai|] eqn:Hi; [|reflexivity].
  revert i j Hi Hj. induction a as [|x a IH]; intros [|i] [|j] Hi Hj; try discriminate.
  - cbn in Hi, Hj. injection Hi as ->. cbn. reflexivity.
  - cbn in Hi, Hj. injection Hi as ->. cbn. now apply insert_swap_head.
  - cbn in Hi, Hj. injection Hj as ->. cbn. now apply insert_swap_head.
  - cbn in Hi, Hj. cbn. f_equiv. now apply IH.
Qed.

Lemma shuffle_from_Permutation i pick : forall a,
  Paged.shuffle_from i pick a ≡ₚ a.
Proof.
  induction i as [|i IH]; intros a; cbn [Paged.shuffle_from]; [reflexivity|].
  rewrite IH. apply swap_Permutation.
Qed.

#[local] Instance same_paging_refl : Reflexive same_paging.
Proof. intros w. now repeat split. Qed.

#[local] Instance same_paging_trans : Transitive same_paging.
Proof. intros a b c (?&?&?) (?&?&?). repeat split; congruence. Qed.

Lemma same_page_paging w w' : same_page w w' -> same_paging w w'.
Proof. intros (?&?&?&?&?). now repeat split. Qed.

Lemma at_index_inside {A} (l : list A) i :
  0 <= i < Z.of_nat (length l) -> exists x, at_index l i = Some x /\ x ∈ l.
Proof.
  intros Hi. unfold at_index. assert ((i <? 0) = false) as -> by lia.
  destruct (lookup_lt_is_Some_2 l (Z.to_nat i)) as [x Hx]; [lia|].
  exists x. split; [exact Hx|]. eapply list_elem_of_lookup_2, Hx.
Qed.

Lemma at_index_nil {A} i : at_index (@nil A) i = None.
Proof. unfold at_index. now destruct (i <? 0). Qed.

Lemma wrap_zero n : 0 <= n -> wrap n 0 = 0.
Proof.
  intros Hn. unfold wrap. destruct (n =? 0) eqn:H0; [reflexivity|].
  assert ((0 <? 0) = false) as -> by lia.
  now assert ((0 >=? n) = false) as -> by lia.
Qed.

Section Paging.
Context {number : Type} `{JsNumber number}.
Variable srv : Server number.

Lemma Paged_renderNumButtons_state w :
  state (snd (Paged.renderNumButtons w)) = state w.
Proof. reflexivity. Qed.

Lemma Paged_renderNumButtons_same_paging : respects same_paging Paged.renderNumButtons.
Proof. unfold Paged.renderNumButtons. respects_auto. Qed.

Lemma load_same_paging dir sp :
  respects same_paging (loadDescriptorsForSpecies dir srv sp).
Proof. intros w. apply same_page_paging, load_same_page. Qed.

Lemma Promise_all_same_paging dir l :
  respects same_paging (Promise_all_load dir srv l).
Proof.
  intros w. destruct (Promise_all_load_spec dir srv l w) as (w' & -> & Hpage & _).
  now apply same_page_paging.
Qed.

Lemma Paged_shown_same_paging item :
  respects same_paging
    (Paged.setMetaText item ;; Paged.setImage item ;;
     Paged.renderNumButtons ;; Paged.renderDescriptors srv item).
Proof.
  unfold Paged.setMetaText, Paged.setImage, Paged.renderDescriptors.
  respects_auto;
    first [ apply Paged_renderNumButtons_same_paging
          | apply load_same_paging
          | apply Promise_all_same_paging ].
Qed.

(** A render of the paged variant, after [clampIdx]. *)
Lemma Paged_render_world w :
  snd (Paged.render srv w) =
  let w1 := upd_state (set_idx (wrap (items_length w) (idx (state w)))) w in
  match at_index (items (state w)) (wrap (items_length w) (idx (state w))) with
  | Some item =>
      snd ((Paged.setMetaText item ;; Paged.setImage item ;;
            Paged.renderNumButtons ;; Paged.renderDescriptors srv item)
             (upd_state (fun s => set_btnPage (idx s / 9) s) w1))
  | None => w1
  end.
Proof.
  unfold Paged.render. unfold bind at 1. rewrite clampIdx_spec.
  unfold bind at 1, gets at 1. cbv zeta.
  change (at_index (items (state (upd_state _ w))) (idx (state (upd_state _ w))))
    with (at_index (items (state w)) (wrap (items_length w) (idx (state w)))).
  destruct (at_index _ _) as [item|]; reflexivity.
Qed.

(** The pager after a render of the paged variant. *)
Lemma Paged_render_paging w :
  let w' := snd (Paged.render srv w) in
  let i := wrap (items_length w) (idx (state w)) in
  items (state w') = items (state w) /\
  idx (state w') = i /\
  btnPage (state w') =
    match at_index (items (state w)) i with
    | Some _ => i / 9
    | None => btnPage (state w)
    end.
Proof.
  cbv zeta. rewrite Paged_render_world. cbv zeta.
  destruct (at_index _ _) as [item|]; [|now repeat split].
  match goal with
  | |- context [snd (_ ?w2)] =>
      destruct (Paged_shown_same_paging item w2) as (Hitems & Hidx & Hpage)
  end.
  rewrite Hitems, Hidx, Hpage. now repeat split.
Qed.

Lemma Paged_advancePage_paging w :
  let w' := snd (Paged.advancePage w) in
  items (state w') = items (state w) /\
  idx (state w') = idx (state w) /\
  btnPage (state w') =
    (if btnPage (state w) + 1 >? (items_length w - 1) / 9 then 0
     else btnPage (state w) + 1).
Proof. cbv zeta. unfold Paged.advancePage. cbn. now repeat split. Qed.

Lemma Paged_shuffle_paging pick w :
  let w' := Paged.step srv w (Paged.ClickShuffle pick) in
  items (state w') ≡ₚ items (state w) /\
  idx (state w') = 0 /\ btnPage (state w') = 0.
Proof.
  cbv zeta. unfold Paged.step. cbn [Paged.handle].
  set (w0 := upd_state (set_btnPage 0) (upd_state (set_idx 0)
        (upd_state (fun s => set_items
           (Paged.shuffle_from (length (items s) - 1) pick (items s)) s) w))).
  assert (Hrun : snd ((modify (upd_state (fun s => set_items
           (Paged.shuffle_from (length (items s) - 1) pick (items s)) s)) ;;
           modify (upd_state (set_idx 0)) ;; modify (upd_state (set_btnPage 0)) ;;
           spawn (Paged.render srv)) w) = snd (Paged.render srv w0))
    by reflexivity.
  rewrite Hrun. clear Hrun.
  destruct (Paged_render_paging w0) as (Hitems & Hidx & Hpage).
  assert (Hzero : wrap (items_length w0) (idx (state w0)) = 0)
    by (apply wrap_zero, items_length_nonneg).
  rewrite Hzero in Hidx, Hpage.
  split; [rewrite Hitems; apply shuffle_from_Permutation|].
  split; [exact Hidx|]. rewrite Hpage.
  destruct (at_index (items (state w0)) 0); reflexivity.
Qed.

Lemma Paged_render_page_ok w :
  (items_length w = 0 -> btnPage (state w) = 0) ->
  page_ok (snd (Paged.render srv w)).
Proof.
  intros Hzero. destruct (Paged_render_paging w) as (Hitems & _ & Hpage).
  unfold page_ok, items_length. rewrite Hitems, Hpage.
  fold (items_length w).
  destruct (wrap_valid (items_length w) (idx (state w)) (items_length_nonneg w))
    as [[Hn Hw]|Hin].
  - left. split; [exact Hn|].
    assert (Hnil : items (state w) = [])
      by (unfold items_length in Hn; destruct (items (state w)); [reflexivity|
          cbn [length] in Hn; lia]).
    rewrite Hnil, at_index_nil. now apply Hzero.
  - right. destruct (at_index_inside (items (state w)) _ Hin) as (x & -> & _).
    pose proof (Z.mul_div_le (wrap (items_length w) (idx (state w))) 9).
    assert (0 <= wrap (items_length w) (idx (state w)) / 9)
      by (apply Z.div_pos; lia).
    lia.
Qed.

Lemma Paged_advancePage_page_ok w :
  page_ok w -> page_ok (snd (Paged.advancePage w)).
Proof.
  intros Hok. destruct (Paged_advancePage_paging w) as (Hitems & _ & Hpage).
  unfold page_ok, items_length in *. rewrite Hitems, Hpage.
  fold (items_length w) in *.
  destruct Hok as [[Hn Hp]|[Hp Hn]].
  - left. split; [exact Hn|]. rewrite Hn, Hp. reflexivity.
  - right. destruct (_ >? _) eqn:Hlast; [lia|].
    pose proof (Z.mul_div_le (items_length w - 1) 9). lia.
Qed.

Lemma Paged_set_render_page_ok (f : State -> State) w :
  (forall s, length (items (f s)) = length (items s)) ->
  (forall s, btnPage (f s) = btnPage s \/ btnPage (f s) = 0) ->
  page_ok w ->
  page_ok (snd ((modify (upd_state f) ;; spawn (Paged.render srv)) w)).
Proof.
  intros Hlen Hpage Hok.
  change (page_ok (snd (Paged.render srv (upd_state f w)))).
  apply Paged_render_page_ok. unfold items_length. cbn. rewrite Hlen.
  intros Hn. destruct Hok as [[_ Hp]|[Hp0 Hp]];
    [|unfold items_length in Hp; lia].
  destruct (Hpage (state w)) as [-> | ->]; [exact Hp|reflexivity].
Qed.

Lemma Paged_step_page_ok w e :
  page_ok w -> page_ok (Paged.step srv w e).
Proof.
  intros Hok. unfold Paged.step.
  destruct e as [| |pick|i| |key]; cbn [Paged.handle].
  1-2,4: apply Paged_set_render_page_ok; [reflexivity|now left|exact Hok].
  - change (page_ok (snd (Paged.render srv
        (upd_state (set_btnPage 0) (upd_state (set_idx 0)
           (upd_state (fun s => set_items
              (Paged.shuffle_from (length (items s) - 1) pick (items s)) s) w)))))).
    apply Paged_render_page_ok. intros _. reflexivity.
  - now apply Paged_advancePage_page_ok.
  - destruct (String.eqb key "ArrowLeft");
      [|destruct (String.eqb key "ArrowRight");
        [|destruct (String.leb "1" key && String.leb key "9");
          [|destruct (String.eqb key "0");
            [now apply Paged_advancePage_page_ok|exact Hok]]]].
    1-2: apply Paged_set_render_page_ok; [reflexivity|now left|exact Hok].
    rewrite Paged_digit_step. destruct (_ <? _); [|exact Hok].
    apply Paged_set_render_page_ok; [reflexivity|now left|exact Hok].
Qed.

Lemma Paged_trace_page_ok es : forall w,
  page_ok w -> Forall page_ok (Paged.trace srv w es).
Proof.
  induction es as [|e es IH]; intros w Hok; cbn [Paged.trace]; constructor.
  - now apply Paged_step_page_ok.
  - now apply IH, Paged_step_page_ok.
Qed.

(** X6: after a render of the paged variant over a non-empty list the
    button page is [idx / 9], so the index is one of the nine of its page;
    after every event the button page is a page of the list (0 when there
    are no images); on such a page the strip holds a numbered control. *)
Theorem button_page_follows_index :
  (forall w,
      0 < items_length w ->
      let w' := snd (Paged.render srv w) in
      btnPage (state w') = idx (state w') / 9 /\
      btnPage (state w') * 9 <= idx (state w') < btnPage (state w') * 9 + 9) /\
  (forall w es, page_ok w -> Forall page_ok (Paged.trace srv w es)) /\
  (forall w, page_ok w -> 0 < items_length w ->
      exists b i, btn_onclick b = JumpTo i /\
        b ∈ numstrip (dom (snd (Paged.renderNumButtons w)))).
Proof.
  split; [|split; [intros w es; apply Paged_trace_page_ok|]].
  - intros w Hn w'. destruct (Paged_render_paging w) as (_ & Hidx & Hpage).
    destruct (wrap_valid (items_length w) (idx (state w)) (items_length_nonneg w))
      as [[Hz _]|Hin]; [lia|].
    destruct (at_index_inside (items (state w)) _ Hin) as (x & Hx & _).
    rewrite Hx in Hpage. subst w'. rewrite Hpage, Hidx.
    split; [reflexivity|].
    pose proof (Z.mul_div_le (wrap (items_length w) (idx (state w))) 9).
    pose proof (Z.mul_succ_div_gt (wrap (items_length w) (idx (state w))) 9).
    lia.
  - intros w [[Hz _]|[Hp Hlt]] Hn; [lia|].
    exists (Paged.nbtn (idx (state w)) (btnPage (state w) * 9) (btnPage (state w) * 9)),
           (btnPage (state w) * 9).
    split; [reflexivity|].
    cbn. apply elem_of_app. left. apply list_elem_of_In, in_map, list_elem_of_In.
    apply elem_of_seqZ. lia.
Qed.

(** Page advance. *)
Lemma advance_mod m p :
  0 <= p <= m -> (if p + 1 >? m then 0 else p + 1) = (p + 1) mod (m + 1).
Proof.
  intros Hp. destruct (p + 1 >? m) eqn:Hlast.
  - assert (p + 1 = m + 1) as -> by lia. now rewrite Z.mod_same by lia.
  - rewrite Z.mod_small; lia.
Qed.

Lemma Paged_advance_repeated k : forall w,
  0 < items_length w ->
  0 <= btnPage (state w) <= (items_length w - 1) / 9 ->
  let w' := fold_left (Paged.step srv) (repeat Paged.ClickAdv k) w in
  items (state w') = items (state w) /\
  idx (state w') = idx (state w) /\
  btnPage (state w') =
    (btnPage (state w) + Z.of_nat k) mod ((items_length w - 1) / 9 + 1).
Proof.
  induction k as [|k IH]; intros w Hn Hp; cbn [repeat fold_left].
  - split; [reflexivity|]. split; [reflexivity|].
    rewrite Z.add_0_r, Z.mod_small; lia.
  - destruct (Paged_advancePage_paging w) as (Hitems & Hidx & Hpage).
    rewrite (advance_mod _ _ Hp) in Hpage.
    set (w1 := Paged.step srv w Paged.ClickAdv).
    assert (Hn1 : items_length w1 = items_length w)
      by (unfold items_length, w1, Paged.step; cbn [Paged.handle]; now rewrite Hitems).
    assert (Hm : 0 <= (items_length w - 1) / 9) by (apply Z.div_pos; lia).
    destruct (IH w1) as (Hitems' & Hidx' & Hpage').
    { lia. }
    { rewrite Hn1. unfold w1, Paged.step. cbn [Paged.handle]. rewrite Hpage.
      pose proof (Z.mod_pos_bound (btnPage (state w) + 1)
                    ((items_length w - 1) / 9 + 1)). lia. }
    cbv zeta in *. rewrite Hitems', Hidx', Hpage', Hn1.
    unfold w1, Paged.step. cbn [Paged.handle]. rewrite Hitems, Hidx, Hpage.
    split; [reflexivity|]. split; [reflexivity|].
    rewrite Zplus_mod_idemp_l. f_equal. lia.
Qed.

(** X7: from a page of a non-empty list, [k] page advances move the button
    page to [(btnPage + k) mod (maxPage + 1)] with
    [maxPage = (N - 1) / 9] and leave the images and the index alone; as
    many advances as there are pages return to the page started from; the
    key "0" does what the control does. *)
Theorem page_advance_cycles (w : World) (k : nat) :
  0 < items_length w ->
  0 <= btnPage (state w) <= (items_length w - 1) / 9 ->
  let w' := fold_left (Paged.step srv) (repeat Paged.ClickAdv k) w in
  items (state w') = items (state w) /\
  idx (state w') = idx (state w) /\
  btnPage (state w') =
    (btnPage (state w) + Z.of_nat k) mod ((items_length w - 1) / 9 + 1) /\
  (Z.of_nat k = (items_length w - 1) / 9 + 1 ->
   btnPage (state w') = btnPage (state w)) /\
  Paged.step srv w (Paged.KeyDown "0") = Paged.step srv w Paged.ClickAdv.
Proof.
  intros Hn Hp w'. destruct (Paged_advance_repeated k w Hn Hp) as (Hi & Hx & Hb).
  fold w' in Hi, Hx, Hb.
  split; [exact Hi|]. split; [exact Hx|]. split; [exact Hb|].
  split; [|reflexivity].
  intros Hk. rewrite Hb, Hk.
  replace (btnPage (state w) + ((items_length w - 1) / 9 + 1))
    with (btnPage (state w) + 1 * ((items_length w - 1) / 9 + 1)) by lia.
  rewrite Z.mod_add by lia. apply Z.mod_small. lia.
Qed.

(** X8: a shuffle, whatever the random draws, leaves a permutation of the
    images, with the index and the button page at 0. *)
Theorem shuffle_permutes_and_resets (w : World) (pick : nat -> nat) :
  let w' := Paged.step srv w (Paged.ClickShuffle pick) in
  items (state w') ≡ₚ items (state w) /\
  idx (state w') = 0 /\ btnPage (state w') = 0 /\
  valid_idx w'.
Proof.
  cbv zeta. destruct (Paged_shuffle_paging pick w) as (Hperm & Hidx & Hpage).
  split; [exact Hperm|]. split; [exact Hidx|]. split; [exact Hpage|].
  unfold valid_idx. rewrite Hidx.
  unfold items_length. destruct (items (state (Paged.step srv w _))); cbn [length].
  - now left.
  - right. lia.
Qed.

End Paging.

Lemma digit_label j :
  0 <= j < 9 ->
  String.leb "1" (pretty (j + 1)) && String.leb (pretty (j + 1)) "9" = true /\
  Paged.parseInt (pretty (j + 1)) = j + 1.
Proof.
  intros Hj.
  assert (Hcases : j = 0 \/ j = 1 \/ j = 2 \/ j = 3 \/ j = 4 \/ j = 5 \/
                   j = 6 \/ j = 7 \/ j = 8) by lia.
  destruct Hcases as [->|[->|[->|[->|[->|[->|[->|[->| ->]]]]]]]];
    vm_compute; split; reflexivity.
Qed.

Section Strip.
Context {number : Type} `{JsNumber number}.
Variable srv : Server number.

(** The controls of the paged strip. *)
Lemma Paged_strip_elem w b :
  b ∈ numstrip (dom (snd (Paged.renderNumButtons w))) ->
  b = Paged.adv \/
  exists i,
    b = Paged.nbtn (idx (state w)) (btnPage (state w) * 9) i /\
    btnPage (state w) * 9 <= i < btnPage (state w) * 9 + 9 /\
    i < items_length w.
Proof.
  cbn. rewrite elem_of_app, list_elem_of_singleton.
  intros [Hin| ->]; [right|now left].
  apply list_elem_of_In, in_map_iff in Hin. destruct Hin as (i & <- & Hi).
  apply list_elem_of_In, elem_of_seqZ in Hi.
  exists i. split; [reflexivity|]. lia.
Qed.

Lemma Flat_strip_elem w b :
  b ∈ numstrip (dom (snd (Flat.renderNumButtons w))) ->
  exists i, b = Flat.numBtn (idx (state w)) i /\ 0 <= i < items_length w.
Proof.
  cbn. intros Hin.
  apply list_elem_of_In, in_map_iff in Hin. destruct Hin as (i & <- & Hi).
  apply list_elem_of_In, elem_of_seqZ in Hi.
  exists i. split; [reflexivity|]. lia.
Qed.

(** X9: in the paged variant, pressing the key that a control of the strip
    shows as its text does what a click on that control does. *)
Theorem digit_keys_mirror_controls (w : World) (b : button) :
  let w' := snd (Paged.renderNumButtons w) in
  b ∈ numstrip (dom w') ->
  Paged.step srv w' (Paged.KeyDown (btn_textContent b)) = Paged.step srv w' (click b).
Proof.
  intros w' Hb. destruct (Paged_strip_elem w b Hb) as [-> |(i & -> & Hi & HiN)].
  - reflexivity.
  - unfold click. cbn [Paged.nbtn btn_textContent btn_onclick].
    set (j := i - btnPage (state w) * 9).
    destruct (digit_label j) as [Hkey Hparse]; [unfold j; lia|].
    destruct (digit_key_not_arrow _ Hkey) as [Hleft Hright].
    unfold Paged.step. cbn [Paged.handle].
    rewrite Hleft, Hright, Hkey, Paged_digit_step, Hparse.
    change (btnPage (state w')) with (btnPage (state w)).
    change (items_length w') with (items_length w).
    replace (btnPage (state w) * 9 + (j + 1 - 1)) with i by (unfold j; lia).
    now assert ((i <? items_length w) = true) as -> by lia.
Qed.

(** X10: every numbered control of a strip targets an index of the list;
    the flat strip labels the control of index [i] with [i + 1], the paged
    strip with its position from 1 to 9 on the page; the control is marked
    active exactly when its target is the index; a click on it makes its
    target the index. *)
Theorem numbered_controls_stay_inside (w : World) (b : button) (i : Z) :
  btn_onclick b = JumpTo i ->
  (b ∈ numstrip (dom (snd (Flat.renderNumButtons w))) ->
     0 <= i < items_length w /\
     btn_textContent b = pretty (i + 1) /\
     (btn_className b = "numBtn active" <-> i = idx (state w)) /\
     idx (state (Flat.step srv (snd (Flat.renderNumButtons w)) (Flat.ClickNum i))) = i) /\
  (0 <= btnPage (state w) ->
   b ∈ numstrip (dom (snd (Paged.renderNumButtons w))) ->
     0 <= i < items_length w /\
     btn_textContent b = pretty (i - btnPage (state w) * 9 + 1) /\
     1 <= i - btnPage (state w) * 9 + 1 <= 9 /\
     (btn_className b = "nbtn active" <-> i = idx (state w)) /\
     idx (state (Paged.step srv (snd (Paged.renderNumButtons w)) (Paged.ClickNum i))) = i).
Proof.
  intros Hclick. split.
  - intros Hb. destruct (Flat_strip_elem w b Hb) as (i' & -> & Hi).
    cbn in Hclick. injection Hclick as ->.
    split; [exact Hi|]. split; [reflexivity|]. split.
    + cbn [Flat.numBtn btn_className]. destruct (Z.eqb_spec i (idx (state w))) as [Heq|Hne].
      * now split.
      * split; [discriminate|]. intros Heq. now destruct Hne.
    + destruct (Flat_step_set srv (set_idx i) (snd (Flat.renderNumButtons w)))
        as [_ Hidx]; [reflexivity|reflexivity|].
      etransitivity; [exact Hidx|]. now apply wrap_inside.
  - intros Hpage Hb.
    destruct (Paged_strip_elem w b Hb) as [-> |(i' & -> & Hi & HiN)]; [discriminate|].
    cbn in Hclick. injection Hclick as ->.
    split; [lia|]. split; [reflexivity|]. split; [lia|]. split.
    + cbn [Paged.nbtn btn_className]. destruct (Z.eqb_spec i (idx (state w))) as [Heq|Hne].
      * now split.
      * split; [discriminate|]. intros Heq. now destruct Hne.
    + destruct (Paged_step_set srv (set_idx i) (snd (Paged.renderNumButtons w)))
        as [_ Hidx]; [reflexivity|].
      etransitivity; [exact Hidx|]. apply wrap_inside.
      change (items_length (snd (Paged.renderNumButtons w))) with (items_length w). lia.
Qed.

End Strip.

(** ** The cache holds normal lists *)

#[local] Instance keeps_refl P : Reflexive (keeps P).
Proof. intros w Hw. exact Hw. Qed.

#[local] Instance keeps_trans P : Transitive (keeps P).
Proof. intros a b c Hab Hbc Ha. apply Hbc, Hab, Ha. Qed.

Lemma cache_normal_stored sp data w :
  keeps cache_normal w (cached sp (tidy data) w).
Proof.
  intros Hinv sp' v.
  cbn [cached upd_state state set_cacheDescriptors cacheDescriptors].
  rewrite lookup_insert. case_decide as Heq.
  - intros [= <-]. apply tidy_normal.
  - apply Hinv.
Qed.

Ltac keeps_step :=
  lazymatch goal with
  | |- respects _ (ret _) => apply respects_ret; typeclasses eauto
  | |- respects _ (throw _) => apply respects_throw; typeclasses eauto
  | |- respects _ (gets _) => apply respects_gets; typeclasses eauto
  | |- respects _ (bind _ _) =>
      (apply respects_bind; try typeclasses eauto); [|intros ?]
  | |- respects _ (try_catch _ _) =>
      (apply respects_try_catch; try typeclasses eauto); [|intros ?]
  | |- respects _ (when _ _) => apply respects_when; try typeclasses eauto
  | |- respects _ (spawn _) => apply respects_spawn
  | |- respects _ (mapM _ _) =>
      (apply respects_mapM; try typeclasses eauto); intros ?
  | |- respects _ (modify _) =>
      apply respects_modify; intros ?;
      first [ (let Hinv := fresh in intros Hinv; exact Hinv)
            | apply cache_normal_stored ]
  | |- respects _ (match ?x with _ => _ end) => destruct x
  end.

Ltac keeps_auto := repeat keeps_step.

Section CacheNormal.
Context {number : Type} `{JsNumber number}.
Variable srv : Server number.

Lemma load_end_keeps_normal dir sp begun :
  respects (keeps cache_normal) (load_end dir srv sp begun).
Proof. unfold load_end, respond. keeps_auto. Qed.

Lemma load_keeps_normal dir sp :
  respects (keeps cache_normal) (loadDescriptorsForSpecies dir srv sp).
Proof.
  unfold loadDescriptorsForSpecies, load_begin, request. keeps_auto.
  apply load_end_keeps_normal.
Qed.

Lemma Promise_all_keeps_normal dir l :
  respects (keeps cache_normal) (Promise_all_load dir srv l).
Proof.
  unfold Promise_all_load, load_begin, request. keeps_auto.
  apply load_end_keeps_normal.
Qed.

Lemma Flat_render_keeps_normal : respects (keeps cache_normal) (Flat.render srv).
Proof.
  unfold Flat.render, clampIdx, Flat.setBigTitle, Flat.setMetaText, Flat.setImage,
    Flat.renderNumButtons, Flat.renderDescriptors.
  keeps_auto. apply load_keeps_normal.
Qed.

Lemma Paged_advancePage_keeps_normal : respects (keeps cache_normal) Paged.advancePage.
Proof. unfold Paged.advancePage, Paged.renderNumButtons. keeps_auto. Qed.

Lemma Paged_render_keeps_normal : respects (keeps cache_normal) (Paged.render srv).
Proof.
  unfold Paged.render, clampIdx, Paged.setMetaText, Paged.setImage,
    Paged.renderNumButtons, Paged.renderDescriptors.
  keeps_auto;
    first [ apply load_keeps_normal | apply Promise_all_keeps_normal ].
Qed.

Lemma Flat_handle_keeps_normal e : respects (keeps cache_normal) (Flat.handle srv e).
Proof.
  destruct e; cbn [Flat.handle]; keeps_auto; apply Flat_render_keeps_normal.
Qed.

Lemma Paged_handle_keeps_normal e : respects (keeps cache_normal) (Paged.handle srv e).
Proof.
  destruct e; cbn [Paged.handle]; keeps_auto;
    first [ apply Paged_render_keeps_normal | apply Paged_advancePage_keeps_normal ].
Qed.

Lemma Flat_main_keeps_normal : respects (keeps cache_normal) (Flat.main srv).
Proof.
  unfold Flat.main, fetchJson, request, respond. keeps_auto.
  apply Flat_render_keeps_normal.
Qed.

Lemma Paged_main_keeps_normal : respects (keeps cache_normal) (Paged.main srv).
Proof.
  unfold Paged.main, fetchJson, request, respond. keeps_auto.
  apply Paged_render_keeps_normal.
Qed.

Lemma run_main_keeps_normal (main : M unit) :
  respects (keeps cache_normal) main -> forall w, keeps cache_normal w (run_main main w).
Proof.
  intros Hmain w Hw. specialize (Hmain w Hw). unfold run_main.
  now destruct (main w) as [[e|[]] w'].
Qed.

Lemma Flat_trace_normal es : forall w,
  cache_normal w -> Forall cache_normal (Flat.trace srv w es).
Proof.
  induction es as [|e es IH]; intros w Hw; cbn [Flat.trace]; constructor.
  - now apply (Flat_handle_keeps_normal e w).
  - now apply IH, (Flat_handle_keeps_normal e w).
Qed.

Lemma Paged_trace_normal es : forall w,
  cache_normal w -> Forall cache_normal (Paged.trace srv w es).
Proof.
  induction es as [|e es IH]; intros w Hw; cbn [Paged.trace]; constructor.
  - now apply (Paged_handle_keeps_normal e w).
  - now apply IH, (Paged_handle_keeps_normal e w).
Qed.

Lemma load_stored dir sp w v w' :
  loadDescriptorsForSpecies dir srv sp w = (inr v, w') ->
  cacheDescriptors (state w') !! sp = Some v.
Proof.
  intros Hload. destruct (cacheDescriptors (state w) !! sp) as [v0|] eqn:Hc.
  - rewrite (load_cached dir srv sp v0 w Hc) in Hload.
    injection Hload as <- <-. exact Hc.
  - rewrite (load_uncached dir srv sp w Hc) in Hload.
    injection Hload as <- <-.
    cbn [cached upd_state state set_cacheDescriptors cacheDescriptors].
    apply lookup_insert_eq.
Qed.

(** X11: every list of the descriptor cache is free of duplicates, of
    empty strings and of surrounding white space: the cache starts so,
    stays so after every event and after start-up of either variant, and
    so is every list a load returns. *)
Theorem cache_holds_normal_lists :
  cache_normal initial_world /\
  (forall w es, cache_normal w -> Forall cache_normal (Flat.trace srv w es)) /\
  (forall w es, cache_normal w -> Forall cache_normal (Paged.trace srv w es)) /\
  (forall w, cache_normal w ->
     cache_normal (run_main (Flat.main srv) w) /\
     cache_normal (run_main (Paged.main srv) w)) /\
  (forall dir sp w v w',
     cache_normal w ->
     loadDescriptorsForSpecies dir srv sp w = (inr v, w') ->
     normal v).
Proof.
  split; [intros sp v Hv; cbn in Hv; now rewrite lookup_empty in Hv|].
  split; [intros w es Hw; now apply Flat_trace_normal|].
  split; [intros w es Hw; now apply Paged_trace_normal|].
  split.
  - intros w Hw. split.
    + now apply (run_main_keeps_normal _ Flat_main_keeps_normal w).
    + now apply (run_main_keeps_normal _ Paged_main_keeps_normal w).
  - intros dir sp w v w' Hw Hload.
    pose proof (load_keeps_normal dir sp w Hw) as Hw'. rewrite Hload in Hw'.
    exact (Hw' sp v (load_stored dir sp w v w' Hload)).
Qed.

End CacheNormal.

Section FlatRender.
Context {number : Type} `{JsNumber number}.
Variable srv : Server number.

(** A render of the flat variant, after [clampIdx]. *)
Lemma Flat_render_run w :
  Flat.render srv w =
  let w1 := upd_state (set_idx (wrap (items_length w) (idx (state w)))) w in
  match at_index (items (state w)) (wrap (items_length w) (idx (state w))) with
  | Some item =>
      (Flat.setBigTitle item ;; Flat.setMetaText item ;; Flat.setImage item ;;
       Flat.renderNumButtons ;; Flat.renderDescriptors srv item) w1
  | None => (inr tt, w1)
  end.
Proof.
  unfold Flat.render. unfold bind at 1. rewrite clampIdx_spec.
  unfold bind at 1, gets at 1. cbv zeta.
  change (at_index (items (state (upd_state _ w))) (idx (state (upd_state _ w))))
    with (at_index (items (state w)) (wrap (items_length w) (idx (state w)))).
  destruct (at_index _ _) as [item|]; reflexivity.
Qed.

(** What the flat variant shows for [item] when the load of its
    descriptors gives [v] and leaves [wL]. *)
Lemma Flat_shown_run item w1 v wL :
  loadDescriptorsForSpecies Flat.DESCRIPTOR_DIR srv (species item) w1 = (inr v, wL) ->
  (Flat.setBigTitle item ;; Flat.setMetaText item ;; Flat.setImage item ;;
   Flat.renderNumButtons ;; Flat.renderDescriptors srv item) w1 =
  (inr tt,
   {| state := state wL; dom := flat_page w1 item v;
      console := console wL; requests := requests wL |}).
Proof.
  intros Hload.
  set (wD := upd_dom (set_numstrip (map (Flat.numBtn (idx (state w1)))
                                        (seqZ 0 (items_length w1))))
              (upd_dom (set_mainImg_src (Flat.IMAGE_BASE_URL +:+ show (image_path item)))
                 (upd_dom (set_meta
                    (if Str.truthy (Str.replaceAll "_" " " (or_empty (species item)))
                     then "Species: " +:+ Str.replaceAll "_" " " (or_empty (species item))
                     else ""))
                    (upd_dom (set_bigTitle
                       ("Image " +:+ pretty (idx (state w1) + 1) +:+ " / " +:+
                        pretty (items_length w1) +:+ " " +:+ Str.utf8 8212 +:+ " " +:+
                        or_empty (image_path item))) w1)))).
  assert (Htail :
    (Flat.setBigTitle item ;; Flat.setMetaText item ;; Flat.setImage item ;;
     Flat.renderNumButtons ;; Flat.renderDescriptors srv item) w1 =
    Flat.renderDescriptors srv item wD) by reflexivity.
  rewrite Htail. clear Htail. unfold Flat.renderDescriptors.
  destruct (cacheDescriptors (state w1) !! species item) as [v0|] eqn:Hc.
  - rewrite (load_cached _ _ _ _ _ Hc) in Hload. injection Hload as <- <-.
    assert (HcD : cacheDescriptors (state wD) !! species item = Some v0) by exact Hc.
    erewrite bind_inr by (apply load_cached; exact HcD). reflexivity.
  - rewrite (load_uncached _ _ _ _ Hc) in Hload. injection Hload as <- <-.
    assert (HcD : cacheDescriptors (state wD) !! species item = None) by exact Hc.
    erewrite bind_inr by (apply load_uncached; exact HcD).
    unfold cached, warned. destruct (served _ _ _); reflexivity.
Qed.

Lemma wrap_fixed w :
  wrap (items_length w) (wrap (items_length w) (idx (state w))) =
  wrap (items_length w) (idx (state w)).
Proof. apply wrap_idempotent, items_length_nonneg. Qed.

(** X12: rendering the flat variant a second time changes nothing, neither
    the page nor the state nor the requests sent; after a render the page
    shows the position, the count and the path in the title, the species in
    the meta line, the image, one control per image, and the loaded
    descriptors of the current image, which are then cached; with no images
    a render leaves the page as it was. *)
Theorem Flat_render_idempotent (w : World) :
  let w' := snd (Flat.render srv w) in
  Flat.render srv w' = (inr tt, w') /\
  (forall item,
      at_index (items (state w')) (idx (state w')) = Some item ->
      dom w' = flat_page w' item
                 (loaded Flat.DESCRIPTOR_DIR srv w (species item)) /\
      cacheDescriptors (state w') !! species item =
        Some (loaded Flat.DESCRIPTOR_DIR srv w (species item))) /\
  (items (state w) = [] -> dom w' = dom w).
Proof.
  cbv zeta. rewrite (Flat_render_run w). cbv zeta.
  set (i := wrap (items_length w) (idx (state w))).
  set (w1 := upd_state (set_idx i) w).
  assert (Hw : wrap (items_length w) i = i) by apply wrap_fixed.
  destruct (at_index (items (state w)) i) as [item|] eqn:Hitem.
  - destruct (load_run Flat.DESCRIPTOR_DIR srv (species item) w1)
      as (wL & Hload & Hpage & _).
    assert (Hsame : loaded Flat.DESCRIPTOR_DIR srv w1 (species item) =
                    loaded Flat.DESCRIPTOR_DIR srv w (species item))
      by (now rewrite !loaded_spec).
    rewrite Hsame in Hload.
    set (v := loaded Flat.DESCRIPTOR_DIR srv w (species item)) in *.
    rewrite (Flat_shown_run item w1 v wL Hload). cbn [snd].
    set (wF := {| state := state wL; dom := flat_page w1 item v;
                  console := console wL; requests := requests wL |}).
    pose proof (load_stored srv _ _ _ _ _ Hload) as Hstored.
    destruct Hpage as (Hitems & Hcts & Hidx & Hbtn & Hdom).
    assert (HitemsF : items (state wF) = items (state w)) by exact Hitems.
    assert (HidxF : idx (state wF) = i) by exact Hidx.
    assert (HnF : items_length wF = items_length w)
      by (unfold items_length; now rewrite HitemsF).
    assert (HpageF : flat_page wF item v = flat_page w1 item v).
    { unfold flat_page. rewrite HnF, HidxF. reflexivity. }
    split; [|split].
    + rewrite (Flat_render_run wF). cbv zeta.
      rewrite HnF, HidxF, HitemsF, !Hw, Hitem.
      assert (Heta : upd_state (set_idx i) wF = wF).
      { unfold wF, upd_state. cbn [state dom console requests]. f_equal.
        assert (Hi : idx (state wL) = i) by exact Hidx. revert Hi.
        destruct (state wL). unfold set_idx. cbn. intros Hi. now rewrite <- Hi. }
      rewrite Heta.
      assert (HstoredF : cacheDescriptors (state wF) !! species item = Some v)
        by exact Hstored.
      rewrite (Flat_shown_run item wF v wF
                 (load_cached Flat.DESCRIPTOR_DIR srv _ _ wF HstoredF)).
      rewrite HpageF. reflexivity.
    + intros item'. rewrite HitemsF, HidxF, Hitem. intros [= <-].
      split; [symmetry; exact HpageF|exact Hstored].
    + intros Hnil. rewrite Hnil, at_index_nil in Hitem. discriminate.
  - cbn [snd]. split; [|split].
    + rewrite (Flat_render_run w1). cbv zeta.
      change (items_length w1) with (items_length w).
      change (idx (state w1)) with i. change (items (state w1)) with (items (state w)).
      rewrite !Hw, Hitem. reflexivity.
    + intros item'. change (idx (state w1)) with i.
      change (items (state w1)) with (items (state w)). now rewrite Hitem.
    + reflexivity.
Qed.

End FlatRender.

Section PagedRender.
Context {number : Type} `{JsNumber number}.
Variable srv : Server number.

Lemma Promise_all_total dir l : returns (Promise_all_load dir srv l).
Proof.
  intros w. destruct (Promise_all_load_spec dir srv l w) as (w' & -> & _).
  now eexists.
Qed.

(** [renderDescriptors] of the paged variant once the other species of
    the class are known. *)
Lemma Paged_described_returns item (otherSpecies : list string) :
  returns
    (myDesc <- loadDescriptorsForSpecies Paged.DESCRIPTOR_DIR srv (species item) ;;
     classDesc <-
       (if (Z.of_nat (length otherSpecies) >? 0) then
          all <- Promise_all_load Paged.DESCRIPTOR_DIR srv (map Some otherSpecies) ;;
          ret (uniq (concat all))
        else ret []) ;;
     let otherOnly :=
       List.filter (fun d => negb (bool_decide (d ∈ myDesc))) classDesc in
     modify (upd_dom (set_speciesList (Paged.renderList myDesc))) ;;
     modify (upd_dom (set_classList (Paged.renderList otherOnly)))).
Proof.
  apply returns_bind; [apply load_total|intros myDesc].
  apply returns_bind.
  - destruct (_ >? _); [|apply returns_ret].
    apply returns_bind; [apply Promise_all_total|intros all; apply returns_ret].
  - intros classDesc. cbv zeta. returns_auto.
Qed.

Lemma bind_ret_run {A B} (a : A) (k : A -> M B) w : bind (ret a) k w = k a w.
Proof. reflexivity. Qed.

Lemma bind_gets_run {A B} (f : World -> A) (k : A -> M B) w :
  bind (gets f) k w = k (f w) w.
Proof. reflexivity. Qed.

Lemma bind_throw_run {A B} e (k : A -> M B) w : bind (throw e) k w = (inl e, w).
Proof. reflexivity. Qed.

Lemma not_thrown {A} (r : (error + A) * World) a :
  fst r = inr a -> ~ exists e, fst r = inl e.
Proof. intros Hr [e He]. congruence. Qed.

Lemma Paged_renderDescriptors_result item w :
  (exists e, fst (Paged.renderDescriptors srv item w) = inl e) <->
  exists c, class_name item = Some c /\ c <> "" /\
            Paged.lookup_class (classToSpecies (state w)) c = Paged.Inherited.
Proof.
  unfold Paged.renderDescriptors. rewrite bind_gets_run.
  destruct (class_name item) as [c|].
  - destruct (Str.truthy c) eqn:Htruthy.
    + assert (Hne : c <> "") by (intros ->; discriminate).
      destruct (Paged.lookup_class (classToSpecies (state w)) c) as [l| |] eqn:Hl.
      * rewrite bind_ret_run.
        destruct (Paged_described_returns item
          (List.filter (fun s => negb (bool_decide (Some s = species item))) l) w)
          as [[] Hret].
        split; [intros Hthrown; now destruct (not_thrown _ _ Hret)|].
        intros (c0 & [= <-] & _ & Hinh). congruence.
      * rewrite bind_throw_run. split; [|intros _; now eexists].
        intros _. exists c. now repeat split.
      * rewrite bind_ret_run.
        destruct (Paged_described_returns item [] w) as [[] Hret].
        split; [intros Hthrown; now destruct (not_thrown _ _ Hret)|].
        intros (c0 & [= <-] & _ & Hinh). congruence.
    + rewrite bind_ret_run.
      destruct (Paged_described_returns item [] w) as [[] Hret].
      split; [intros Hthrown; now destruct (not_thrown _ _ Hret)|].
      intros (c0 & [= <-] & Hne & _). destruct c; [now destruct Hne|discriminate].
  - rewrite bind_ret_run.
    destruct (Paged_described_returns item [] w) as [[] Hret].
    split; [intros Hthrown; now destruct (not_thrown _ _ Hret)|].
    intros (c0 & [=] & _).
Qed.

Lemma Paged_renderNumButtons_run w :
  Paged.renderNumButtons w =
  (inr tt,
   upd_dom (set_numstrip
     (map (Paged.nbtn (idx (state w)) (btnPage (state w) * 9))
        (seqZ (btnPage (state w) * 9)
           (Z.min (btnPage (state w) * 9 + 9) (items_length w) -
            btnPage (state w) * 9)) ++ [Paged.adv])) w).
Proof. reflexivity. Qed.

(** A render of the paged variant, after [clampIdx] and the page. *)
Lemma Paged_render_run w :
  Paged.render srv w =
  let i := wrap (items_length w) (idx (state w)) in
  match at_index (items (state w)) i with
  | Some item =>
      (Paged.setMetaText item ;; Paged.setImage item ;;
       Paged.renderNumButtons ;; Paged.renderDescriptors srv item)
        (upd_state (set_btnPage (i / 9)) (upd_state (set_idx i) w))
  | None => (inr tt, upd_state (set_idx i) w)
  end.
Proof.
  unfold Paged.render. unfold bind at 1. rewrite clampIdx_spec.
  rewrite bind_gets_run. cbv zeta.
  change (at_index (items (state (upd_state _ w))) (idx (state (upd_state _ w))))
    with (at_index (items (state w)) (wrap (items_length w) (idx (state w)))).
  destruct (at_index _ _) as [item|]; reflexivity.
Qed.

Lemma Paged_render_thrown (w : World) (item : entry) :
  at_index (items (state w)) (wrap (items_length w) (idx (state w))) = Some item ->
  (exists e, fst (Paged.render srv w) = inl e) <->
  species item = None \/
  exists c, class_name item = Some c /\ c <> "" /\
            classToSpecies (state w) !! c = None /\
            c ∈ Paged.Object_prototype_names.
Proof.
  intros Hitem. rewrite Paged_render_run. cbv zeta. rewrite Hitem.
  set (w2 := upd_state _ (upd_state _ w)).
  assert (Hinherited : forall c,
    Paged.lookup_class (classToSpecies (state w)) c = Paged.Inherited <->
    classToSpecies (state w) !! c = None /\ c ∈ Paged.Object_prototype_names).
  { intros c. unfold Paged.lookup_class.
    destruct (classToSpecies (state w) !! c); [split; [discriminate|intros [[=] _]]|].
    case_bool_decide; split; try discriminate; try (now intros); try tauto. }
  destruct (species item) as [s|] eqn:Hs.
  - unfold Paged.setMetaText at 1. rewrite Hs.
    erewrite bind_inr by reflexivity.
    erewrite bind_inr by reflexivity.
    erewrite bind_inr by apply Paged_renderNumButtons_run.
    rewrite Paged_renderDescriptors_result.
    split.
    + intros (c & Hc & Hne & Hl). right. exists c.
      apply Hinherited in Hl. tauto.
    + intros [[=]|(c & Hc & Hne & Hl)]. exists c.
      split; [exact Hc|]. split; [exact Hne|]. apply Hinherited. exact Hl.
  - unfold Paged.setMetaText at 1. rewrite Hs. rewrite bind_throw_run.
    split; [intros _; now left|intros _; now eexists].
Qed.

(** X13: a render of the paged variant over an existing entry throws
    exactly when the entry has no species, or when its class name is not a
    key of the class map but a name every object inherits (such as
    "constructor"); for an entry without species the page is left as it was,
    where the flat variant renders and returns. *)
Theorem Paged_render_throws_exactly (w : World) (item : entry) :
  at_index (items (state w)) (wrap (items_length w) (idx (state w))) = Some item ->
  ((exists e, fst (Paged.render srv w) = inl e) <->
   species item = None \/
   exists c, class_name item = Some c /\ c <> "" /\
             classToSpecies (state w) !! c = None /\
             c ∈ Paged.Object_prototype_names) /\
  (species item = None ->
   dom (snd (Paged.render srv w)) = dom w /\
   exists w', Flat.render srv w = (inr tt, w')).
Proof.
  intros Hitem. split; [now apply Paged_render_thrown|].
  intros Hs. split.
  - rewrite Paged_render_run. cbv zeta. rewrite Hitem.
    unfold Paged.setMetaText at 1. rewrite Hs. rewrite bind_throw_run. reflexivity.
  - destruct (Flat_render_returns srv w) as [[] Hret].
    destruct (Flat.render srv w) as [r w']. exists w'. cbn in Hret. now subst r.
Qed.

End PagedRender.

Lemma at_index_elem {A} (l : list A) i x : at_index l i = Some x -> x ∈ l.
Proof.
  unfold at_index. destruct (i <? 0); [discriminate|].
  intros Hl. eapply list_elem_of_lookup_2. exact Hl.
Qed.

Section PagedMain.
Context {number : Type} `{JsNumber number}.
Variable srv : Server number.

(** X14: start-up of the paged variant stops at the first manifest that
    fails, with that error; when both load, the entries without image path
    or species are dropped, the index is valid, and start-up fails only
    when an entry carries an inherited name as its class name. *)
Theorem Paged_main_startup (w : World) :
  (forall e,
      outcome "data/images_index.json" (images_index srv) = inl e ->
      Paged.main srv w = (inl e, add_request "data/images_index.json" w)) /\
  (forall raw e,
      outcome "data/images_index.json" (images_index srv) = inr raw ->
      outcome "data/class_to_species.json" (class_to_species srv) = inl e ->
      Paged.main srv w =
      (inl e,
       add_request "data/class_to_species.json"
         (upd_state (set_items raw) (add_request "data/images_index.json" w)))) /\
  (forall raw classes,
      outcome "data/images_index.json" (images_index srv) = inr raw ->
      outcome "data/class_to_species.json" (class_to_species srv) = inr classes ->
      let w' := snd (Paged.main srv w) in
      items (state w') = List.filter valid raw /\
      classToSpecies (state w') = classes /\
      valid_idx w' /\
      (fst (Paged.main srv w) = inr tt \/
       exists x c,
         x ∈ items (state w') /\ class_name x = Some c /\
         classes !! c = None /\ c ∈ Paged.Object_prototype_names)).
Proof.
  split; [|split].
  - intros e He. unfold Paged.main. apply bind_inl.
    change (Paged.DATA_DIR +:+ "/images_index.json") with "data/images_index.json".
    now rewrite fetchJson_outcome, He.
  - intros raw e Hraw He. unfold Paged.main.
    change (Paged.DATA_DIR +:+ "/images_index.json") with "data/images_index.json".
    change (Paged.DATA_DIR +:+ "/class_to_species.json")
      with "data/class_to_species.json".
    erewrite bind_inr by (rewrite fetchJson_outcome, Hraw; reflexivity).
    erewrite bind_inr by reflexivity.
    apply bind_inl. now rewrite fetchJson_outcome, He.
  - intros raw classes Hraw Hclasses.
    set (w3 := upd_state (fun s => set_items (List.filter valid (items s)) s)
                 (upd_state (set_classToSpecies classes)
                    (add_request "data/class_to_species.json"
                       (upd_state (set_items raw)
                          (add_request "data/images_index.json" w))))).
    assert (Hmain : Paged.main srv w = Paged.render srv w3).
    { unfold Paged.main.
      change (Paged.DATA_DIR +:+ "/images_index.json") with "data/images_index.json".
      change (Paged.DATA_DIR +:+ "/class_to_species.json")
        with "data/class_to_species.json".
      erewrite bind_inr by (rewrite fetchJson_outcome, Hraw; reflexivity).
      erewrite bind_inr by reflexivity.
      erewrite bind_inr by (rewrite fetchJson_outcome, Hclasses; reflexivity).
      erewrite bind_inr by reflexivity.
      erewrite bind_inr by reflexivity. reflexivity. }
    cbv zeta. rewrite Hmain.
    destruct (Paged_render_pager srv w3) as (Hitems & Hcts & _).
    split; [exact Hitems|]. split; [exact Hcts|].
    split; [apply render_valid_Paged|].
    destruct (at_index (items (state w3))
                (wrap (items_length w3) (idx (state w3)))) as [item|] eqn:Hitem.
    + pose proof (at_index_elem _ _ _ Hitem) as Helem.
      pose proof (Paged_render_thrown srv w3 item Hitem) as Hiff.
      destruct (fst (Paged.render srv w3)) as [e|[]] eqn:Hfst; [|now left].
      right. destruct (proj1 Hiff) as [Hnone|(c & Hc & _ & Hmiss & Hproto)];
        [now exists e| |].
      * cbn in Helem.
        apply list_elem_of_In, filter_In in Helem. destruct Helem as [_ Hvalid].
        apply valid_spec in Hvalid. destruct Hvalid as (p & s & _ & _ & Hs & _).
        congruence.
      * exists item, c. split; [rewrite Hitems; exact Helem|].
        now repeat split.
    + left. rewrite Paged_render_run. cbv zeta. now rewrite Hitem.
Qed.

End PagedMain.

(** ** Concrete instances *)

Lemma sample_world_index : idx (state sample_world) = 1.
Proof. vm_compute. reflexivity. Qed.

Lemma sample_world_count : items_length sample_world = 3.
Proof. vm_compute. reflexivity. Qed.

Lemma idx_stays_in_range_witness :
  valid_idx sample_world /\
  Forall (fun w' => valid_idx w' /\ items_length w' = items_length sample_world)
    (Paged.trace sample_server sample_world
       [Paged.ClickNext; Paged.KeyDown "9"; Paged.ClickNum 7; Paged.ClickPrev]) /\
  Flat.render sample_server initial_world =
  (inr tt, upd_state (set_idx 0) initial_world).
Proof.
  assert (Hvalid : valid_idx sample_world).
  { unfold valid_idx. rewrite sample_world_index, sample_world_count. lia. }
  destruct (idx_stays_in_range sample_server) as (_ & Hpaged & _ & Hempty).
  split; [exact Hvalid|]. split.
  - apply Hpaged. exact Hvalid.
  - apply Hempty. reflexivity.
Defined.

Lemma next_previous_inverse_witness :
  0 <= idx (state sample_world) < items_length sample_world /\
  idx (state (Paged.step sample_server
                (Paged.step sample_server sample_world Paged.ClickNext)
                Paged.ClickPrev)) =
  idx (state sample_world).
Proof.
  assert (Hi : 0 <= idx (state sample_world) < items_length sample_world)
    by (rewrite sample_world_index, sample_world_count; lia).
  split; [exact Hi|].
  destruct (next_previous_inverse sample_server sample_world Hi)
    as (_ & (_ & _ & Hback & _) & _).
  exact Hback.
Defined.

Lemma jump_sets_and_clamps_witness :
  idx (state (Paged.step sample_server sample_world (Paged.KeyDown "3"))) =
  wrap (items_length sample_world)
       (btnPage (state sample_world) * 9 + (Paged.parseInt "3" - 1)) /\
  Paged.step sample_server sample_world (Paged.KeyDown "9") = sample_world /\
  wrap 3 (-1) = 2.
Proof.
  destruct (jump_sets_and_clamps sample_server sample_world)
    as (_ & _ & Hkey & Hwrap & _).
  pose proof (Hkey "3" eq_refl) as Hthree. cbv zeta in Hthree.
  destruct Hthree as (Hthree & _ & _).
  pose proof (Hkey "9" eq_refl) as Hnine. cbv zeta in Hnine.
  destruct Hnine as (_ & Hnine & _).
  split; [|split].
  - apply Hthree. vm_compute. reflexivity.
  - apply Hnine. vm_compute. discriminate.
  - apply (Hwrap 3 (-1)); lia.
Defined.


Lemma loadDescriptorsForSpecies_failure_is_empty_witness :
  exists e,
    loadDescriptorsForSpecies "descriptors" sample_server (Some "zebra") initial_world =
    (inr [],
     cached (Some "zebra") []
       (console_log (Warn "Descriptor load failed for zebra:" e)
          (add_request "descriptors/zebra.json" initial_world))) /\
    message e = "Failed to fetch descriptors/zebra.json: 404".
Proof.
  destruct (loadDescriptorsForSpecies_failure_is_empty
              "descriptors" sample_server (Some "zebra"))
    as (_ & Hfail & _).
  destruct (Hfail initial_world) as (e & He & Hload);
    [vm_compute; reflexivity|vm_compute; reflexivity|].
  exists e. split; [exact Hload|].
  vm_compute in He. injection He as <-. reflexivity.
Defined.


Lemma class_only_descriptors_witness :
  exists w',
    Paged.renderDescriptors sample_server (sample_entry "b" (Some "0")) scenario_world =
    (inr tt, w') /\
    speciesList (dom w') = [LiText "" "x"] /\
    classList (dom w') = [LiText "" "y"].
Proof.
  destruct (class_only_descriptors sample_server scenario_world
              (sample_entry "b" (Some "0")) "0" ["a"; "b"; "c"])
    as (w' & Hrun & Hown & Hclass);
    [reflexivity|discriminate|vm_compute; reflexivity|].
  exists w'. split; [exact Hrun|]. split.
  - rewrite Hown. vm_compute. reflexivity.
  - rewrite Hclass. vm_compute. reflexivity.
Defined.

Lemma manifest_failure_stops_startup_witness :
  meta (dom (run_main (Flat.main broken_server) initial_world)) =
  "Error: Failed to fetch data/images_index.json: 503" /\
  (exists w',
      Flat.main sample_server initial_world = (inr tt, w') /\
      items (state w') = sample_items).
Proof.
  destruct (manifest_failure_stops_startup broken_server initial_world)
    as (_ & _ & _ & Hfirst & _).
  destruct (manifest_failure_stops_startup sample_server initial_world)
    as (_ & _ & _ & _ & _ & Hboth).
  split.
  - destruct (Hfirst {| err_name := "Error";
                        message := "Failed to fetch data/images_index.json: 503" |})
      as [_ Hrun]; [vm_compute; reflexivity|].
    rewrite Hrun. vm_compute. reflexivity.
  - destruct (Hboth sample_items {[ "0" := ["a"; "b"; "c"] ]})
      as (w' & Hmain & _ & Hitems & _);
      [vm_compute; reflexivity|vm_compute; reflexivity|].
    exists w'. split; [exact Hmain|]. rewrite Hitems. vm_compute. reflexivity.
Defined.

(** *** Instances of the further properties *)

Lemma sample_world_page : btnPage (state sample_world) = 0.
Proof. vm_compute. reflexivity. Qed.

Lemma tidy_idempotent_witness :
  normal (tidy [" a "; "a"; ""]) /\ tidy ["a"; "b"] = ["a"; "b"].
Proof.
  destruct tidy_idempotent as (Hnormal & Hfixed & _).
  split; [apply Hnormal|]. apply Hfixed. split.
  - apply NoDup_cons. split; [|apply NoDup_singleton].
    intros Hin. apply list_elem_of_In in Hin. destruct Hin as [[=]|[]].
  - repeat constructor; try discriminate; vm_compute; reflexivity.
Defined.

Lemma toColLabel_shape_witness :
  label_value 0 (toColLabel 27) = 27 + 1 /\
  toColLabel (-1) = "" /\
  toColLabel 27 = toColLabel (27 / 26 - 1) +:+ Str.fromCharCode (65 + 27 mod 26).
Proof.
  destruct toColLabel_shape as (_ & Hvalue & Hneg & Hrec).
  split; [apply (Hvalue 27); lia|]. split; [apply (Hneg (-1)); lia|].
  apply (Hrec 27). lia.
Defined.

Lemma findClassForSpecies_finds_witness :
  [("0", ["a"; "b"; "c"])] ≡ₚ map_to_list ({[ "0" := ["a"; "b"; "c"] ]} : gmap string (list string)) /\
  exists members,
    ({[ "0" := ["a"; "b"; "c"] ]} : gmap string (list string)) !! "0" = Some members /\
    "b" ∈ members.
Proof.
  assert (Hentries :
    [("0", ["a"; "b"; "c"])] ≡ₚ
    map_to_list ({[ "0" := ["a"; "b"; "c"] ]} : gmap string (list string)))
    by (rewrite map_to_list_singleton; reflexivity).
  split; [exact Hentries|].
  destruct (findClassForSpecies_finds _ _ "b" Hentries) as (Hfound & _ & _).
  apply Hfound. reflexivity.
Defined.

Lemma next_and_previous_repeated_witness :
  0 <= idx (state sample_world) < items_length sample_world /\
  idx (state (fold_left (Paged.step sample_server) (repeat Paged.ClickNext 3)
                sample_world)) =
  idx (state sample_world).
Proof.
  assert (Hi : 0 <= idx (state sample_world) < items_length sample_world)
    by (rewrite sample_world_index, sample_world_count; lia).
  split; [exact Hi|].
  destruct (next_and_previous_repeated sample_server sample_world 3 Hi)
    as (_ & _ & _ & _ & Hround).
  destruct Hround as (_ & _ & Hnext & _); [now rewrite sample_world_count|].
  exact Hnext.
Defined.

Lemma button_page_follows_index_witness :
  btnPage (state (snd (Paged.render sample_server sample_world))) =
  idx (state (snd (Paged.render sample_server sample_world))) / 9 /\
  Forall page_ok
    (Paged.trace sample_server sample_world [Paged.ClickAdv; Paged.KeyDown "2"]).
Proof.
  destruct (button_page_follows_index sample_server) as (Hpage & Htrace & _).
  split.
  - pose proof (Hpage sample_world) as Hp. cbv zeta in Hp.
    apply Hp. rewrite sample_world_count. lia.
  - apply Htrace. right.
    rewrite sample_world_page, sample_world_count. lia.
Defined.

Lemma page_advance_cycles_witness :
  0 < items_length sample_world /\
  0 <= btnPage (state sample_world) <= (items_length sample_world - 1) / 9 /\
  btnPage (state (fold_left (Paged.step sample_server) (repeat Paged.ClickAdv 1)
                    sample_world)) =
  btnPage (state sample_world).
Proof.
  assert (Hn : 0 < items_length sample_world)
    by (rewrite sample_world_count; lia).
  assert (Hp : 0 <= btnPage (state sample_world) <= (items_length sample_world - 1) / 9)
    by (rewrite sample_world_page, sample_world_count; vm_compute; split; discriminate).
  split; [exact Hn|]. split; [exact Hp|].
  pose proof (page_advance_cycles sample_server sample_world 1 Hn Hp) as Hcycle.
  cbv zeta in Hcycle. destruct Hcycle as (_ & _ & _ & Hround & _).
  apply Hround. rewrite sample_world_count. reflexivity.
Defined.

Lemma digit_keys_mirror_controls_witness :
  Paged.nbtn 1 0 2 ∈ numstrip (dom (snd (Paged.renderNumButtons sample_world))) /\
  Paged.step sample_server (snd (Paged.renderNumButtons sample_world))
    (Paged.KeyDown "3") =
  Paged.step sample_server (snd (Paged.renderNumButtons sample_world))
    (Paged.ClickNum 2).
Proof.
  assert (Hin : Paged.nbtn 1 0 2 ∈
                numstrip (dom (snd (Paged.renderNumButtons sample_world))))
    by (vm_compute; repeat constructor).
  split; [exact Hin|].
  exact (digit_keys_mirror_controls sample_server sample_world (Paged.nbtn 1 0 2) Hin).
Defined.

Lemma numbered_controls_stay_inside_witness :
  btn_onclick (Paged.nbtn 1 0 2) = JumpTo 2 /\
  0 <= 2 < items_length sample_world /\
  btn_textContent (Paged.nbtn 1 0 2) =
  pretty (2 - btnPage (state sample_world) * 9 + 1) /\
  idx (state (Paged.step sample_server (snd (Paged.renderNumButtons sample_world))
                (Paged.ClickNum 2))) = 2.
Proof.
  split; [reflexivity|].
  destruct (numbered_controls_stay_inside sample_server sample_world
              (Paged.nbtn 1 0 2) 2 eq_refl) as (_ & Hpaged).
  destruct Hpaged as (Hi & Hlabel & _ & _ & Hclick).
  - rewrite sample_world_page. lia.
  - vm_compute. repeat constructor.
  - split; [exact Hi|]. split; [exact Hlabel|exact Hclick].
Defined.

Lemma cache_holds_normal_lists_witness :
  cache_normal (run_main (Paged.main sample_server) initial_world) /\
  Forall cache_normal
    (Paged.trace sample_server (run_main (Paged.main sample_server) initial_world)
       [Paged.ClickNext; Paged.ClickShuffle (fun _ => 0%nat)]).
Proof.
  destruct (cache_holds_normal_lists sample_server)
    as (Hinit & _ & Hpaged & Hmain & _).
  destruct (Hmain initial_world Hinit) as [_ Hstarted].
  split; [exact Hstarted|]. apply Hpaged. exact Hstarted.
Defined.

Lemma Flat_render_idempotent_witness :
  Flat.render sample_server
    (snd (Flat.render sample_server
            (run_main (Flat.main sample_server) initial_world))) =
  (inr tt,
   snd (Flat.render sample_server
          (run_main (Flat.main sample_server) initial_world))) /\
  dom (snd (Flat.render sample_server initial_world)) = dom initial_world.
Proof.
  split.
  - pose proof (Flat_render_idempotent sample_server
                  (run_main (Flat.main sample_server) initial_world)) as Hagain.
    cbv zeta in Hagain. destruct Hagain as (Hagain & _). exact Hagain.
  - pose proof (Flat_render_idempotent sample_server initial_world) as Hempty.
    cbv zeta in Hempty. destruct Hempty as (_ & _ & Hempty).
    apply Hempty. reflexivity.
Defined.

Lemma Paged_render_throws_exactly_witness :
  at_index [sample_entry "a" (Some "constructor")] 0 =
  Some (sample_entry "a" (Some "constructor")) /\
  exists e,
    fst (Paged.render sample_server
           (upd_state (set_items [sample_entry "a" (Some "constructor")])
              initial_world)) = inl e.
Proof.
  split; [reflexivity|].
  destruct (Paged_render_throws_exactly sample_server
              (upd_state (set_items [sample_entry "a" (Some "constructor")])
                 initial_world)
              (sample_entry "a" (Some "constructor")) eq_refl) as [Hthrows _].
  apply Hthrows. right. exists "constructor".
  split; [reflexivity|]. split; [discriminate|]. split; [reflexivity|].
  unfold Paged.Object_prototype_names. repeat constructor.
Defined.

Lemma Paged_main_startup_witness :
  (exists e,
      Paged.main broken_server initial_world =
      (inl e, add_request "data/images_index.json" initial_world)) /\
  items (state (snd (Paged.main sample_server initial_world))) =
  List.filter valid sample_items.
Proof.
  split.
  - destruct (Paged_main_startup broken_server initial_world) as (Hfirst & _).
    eexists. apply Hfirst. vm_compute. reflexivity.
  - destruct (Paged_main_startup sample_server initial_world) as (_ & _ & Hboth).
    pose proof (Hboth sample_items {[ "0" := ["a"; "b"; "c"] ]} eq_refl eq_refl)
      as Hstarted.
    cbv zeta in Hstarted. destruct Hstarted as (Hitems & _). exact Hitems.
Defined.
